(** * ltonetwork/anchor: storage service and anchor monitor

    A shallow embedding of [StorageService] (storage.service.ts) and
    [AnchorMonitorService] (anchor-monitor.service.ts), and the properties of
    the block scanner, the anchor index, the association graph and the trust
    role resolver that are stated about them.

    Conventions of the embedding:
    - a JavaScript string is a [string] (a sequence of bytes, UTF-8);
    - a JavaScript number holding a block height or a type tag is a [Z];
    - an [async] function is a state transformer that returns an [Outcome]:
      [await]ed calls are sequenced, a rejected promise is [Throw];
    - a call whose promise is not awaited is recorded as in flight;
    - recursion of unknown depth takes a fuel argument and returns [option]:
      [None] means that the fuel did not suffice, never a result of the code;
    - calls to the logger are left out: it is a sink that never affects the
      control flow. Of the monitor, one scan pass ([checkNewBlock]) and what it
      calls are embedded; [start] sets [lastBlock] and [process] repeats the
      pass after a delay, for ever. *)

From stdpp Require Import gmap strings list fin_maps fin_sets.
From Stdlib Require Import ZArith Ascii String DecimalString Decimal DecimalZ.

Local Set Warnings "-clear-no-such-hyp".

Local Open Scope Z_scope.

(** ** Strings *)

Module Js.

(** [c.toLowerCase()] on one code unit; only A-Z have a lower case here. *)
Definition lower_ascii (c : ascii) : ascii :=
  let n := nat_of_ascii c in
  if ((65 <=? n) && (n <=? 90))%nat then ascii_of_nat (n + 32) else c.

(** [s.toLowerCase()]. *)
Fixpoint toLowerCase (s : string) : string :=
  match s with
  | EmptyString => EmptyString
  | String c s' => String (lower_ascii c) (toLowerCase s')
  end.

(** [s.startsWith(p)]. *)
Fixpoint startsWith (p s : string) : bool :=
  match p, s with
  | EmptyString, _ => true
  | String a p', String b s' => if decide (a = b) then startsWith p' s' else false
  | String _ _, EmptyString => false
  end.

(** [s.slice(n)] for [0 <= n]. *)
Fixpoint drop (n : nat) (s : string) : string :=
  match n, s with
  | O, _ => s
  | S n', String _ s' => drop n' s'
  | S _, EmptyString => EmptyString
  end.

(** [s.replace(pat, rep)] with a string pattern: the first occurrence of
    [pat], scanning from the left, is replaced; without one [s] is returned. *)
Fixpoint replace (pat rep s : string) : string :=
  if startsWith pat s then rep +:+ drop (String.length pat) s
  else match s with
       | EmptyString => EmptyString
       | String c s' => String c (replace pat rep s')
       end.

(** [s.substr(start)]: a negative [start] counts from the end of [s]. *)
Definition substr (start : Z) (s : string) : string :=
  let len := Z.of_nat (String.length s) in
  drop (Z.to_nat (if start <? 0 then Z.max (len + start) 0 else Z.min start len)) s.

(** A number as the scanner meets it: an integer, or NaN. *)
Inductive number := NaN | Int (z : Z).

(** [String(z)] for an integer. *)
Definition String_ (z : Z) : string := NilZero.string_of_int (Z.to_int z).

(** [Number(s)] on the numerals that [String_] writes, which are the
    texts that saveProcessingHeight stores. On other texts JavaScript may read
    a number (an exponent, a fraction, blanks, a radix prefix) where this
    definition answers NaN: what is proved of a number read from a text takes
    the text to be such a numeral. *)
Definition Number (s : string) : number :=
  match NilZero.int_of_string s with
  | Some d => Int (Z.of_int d)
  | None => NaN
  end.

(** The array index that a property name is: the name is the text in
    which [String] writes an integer from 0 to 2^32 - 2. An object lists such
    names before all others, smallest first. *)
Definition array_index (k : string) : option Z :=
  match Number k with
  | Int n =>
      if decide (0 <= n <= 4294967294 ∧ String_ n = k) then Some n else None
  | NaN => None
  end.

(** The names of the members of [Object.prototype], which every plain
    object inherits: functions, and for [__proto__] the prototype itself. *)
Definition Object_prototype : list string :=
  [ "constructor"; "__defineGetter__"; "__defineSetter__"; "hasOwnProperty";
    "__lookupGetter__"; "__lookupSetter__"; "isPrototypeOf";
    "propertyIsEnumerable"; "toString"; "valueOf"; "__proto__";
    "toLocaleString" ]%string.

(** Truthiness of [string | null | undefined] and of [number | null]. *)
Definition truthy_string (v : option string) : bool :=
  match v with
  | Some (String _ _) => true
  | _ => false
  end.

Definition truthy_number (v : option number) : bool :=
  match v with
  | Some (Int z) => negb (z =? 0)
  | _ => false
  end.

End Js.

(** ** Outcomes of asynchronous calls *)

Inductive Error := StorageUnavailable | NodeUnavailable.

(** The settled promise of an [async] function run on a state of type [S]:
    fulfilled with a value, or rejected with an error; both carry the state
    the run has left behind. *)
Inductive Outcome (S A : Type) :=
| Ok (a : A) (s : S)
| Throw (e : Error) (s : S).
Arguments Ok {S A} a s.
Arguments Throw {S A} e s.

Definition M (S A : Type) := S -> Outcome S A.

Definition ret {S A} (a : A) : M S A := fun s => Ok a s.

Definition bind {S A B} (m : M S A) (k : A -> M S B) : M S B :=
  fun s => match m s with
           | Ok a s' => k a s'
           | Throw e s' => Throw e s'
           end.

(** [try { m } catch (e) { }]: the value, or nothing when [m] throws. *)
Definition try_catch {S A} (m : M S A) : M S (option A) :=
  fun s => match m s with
           | Ok a s' => Ok (Some a) s'
           | Throw _ s' => Ok None s'
           end.

(** [const x = await m; k] *)
Notation "'await' x ':=' m 'in' k" := (bind m (fun x => k))
  (at level 10, x name, m at level 100, k at level 200).

(** ** The storage backend *)

(** [roles[role] = { sender, type }] (saveTrustNetworkRole). *)
Record RoleGrant := { grant_sender : string; grant_type : Z }.

(** Modelled from the spec: what the object store, which is not among the
    sources, holds under a key: the entry set of an anchor record (the
    transaction ids that anchored a hash), or a document of named properties
    in enumeration order (a role assignment). *)
Inductive document :=
| Entries (ids : gset string)
| Mapping (props : list (string * RoleGrant)).

(** What [addObject] is given by the storage service: a transaction id
    (saveAnchor), or a document (saveTrustNetworkRole). *)
Inductive value :=
| TxId (id : string)
| Doc (props : list (string * RoleGrant)).

Definition entries_of (d : document) : gset string :=
  match d with Entries ids => ids | Mapping _ => ∅ end.

Definition props_of (d : document) : list (string * RoleGrant) :=
  match d with Entries _ => [] | Mapping props => props end.

(** The own property [k] gets the value [v], and keeps its place. *)
Fixpoint replace_prop {V} (k : string) (v : V) (props : list (string * V))
    : list (string * V) :=
  match props with
  | [] => []
  | (k', v') :: rest =>
      if decide (k' = k) then (k, v) :: rest else (k', v') :: replace_prop k v rest
  end.

(** The place of a new array index [n] in an enumeration: before the
    first name that is no array index or a larger one. *)
Fixpoint insert_index {A} (key : A -> string) (n : Z) (x : A) (l : list A) : list A :=
  match l with
  | [] => [x]
  | y :: l' =>
      match Js.array_index (key y) with
      | Some n' => if n' <? n then y :: insert_index key n x l' else x :: l
      | None => x :: l
      end
  end.

(** [obj[k] = v] on an object given as its own properties in the order in
    which [for..in] lists them: array indices first, smallest first, then the
    other names in the order of their creation. An own property keeps its
    place; a new array index goes to its place among the indices; any other
    new name comes last; but [obj['__proto__'] = v], [v] an object, on an
    object without an own property of that name sets the prototype and leaves
    the own properties as they are. *)
Definition set_prop {V} (k : string) (v : V) (props : list (string * V))
    : list (string * V) :=
  if decide (k ∈ map fst props) then replace_prop k v props
  else if decide (k = "__proto__"%string) then props
  else match Js.array_index k with
       | Some n => insert_index fst n (k, v) props
       | None => props ++ [(k, v)]
       end.

Definition merge_props {V} (old new : list (string * V)) : list (string * V) :=
  foldl (fun acc kv => set_prop kv.1 kv.2 acc) old new.

(** Modelled from the spec: the backend behind [StorageInterface] (the
    LevelDB and Redis storage services) is not among the sources. It is a
    scalar key-value store, an object store, and a set store; [faults] is
    what the connection will answer to the coming calls ([true]: the call
    fails), an empty list meaning that no call fails. *)
Record Storage := {
  values : gmap string string;
  objects : gmap string document;
  sets : gmap string (gset string);
  faults : list bool;
}.

Module Backend.

Definition with_faults (fs : list bool) (s : Storage) : Storage :=
  {| values := values s; objects := objects s; sets := sets s; faults := fs |}.
Definition with_values (v : gmap string string) (s : Storage) : Storage :=
  {| values := v; objects := objects s; sets := sets s; faults := faults s |}.
Definition with_objects (o : gmap string document) (s : Storage) : Storage :=
  {| values := values s; objects := o; sets := sets s; faults := faults s |}.
Definition with_sets (t : gmap string (gset string)) (s : Storage) : Storage :=
  {| values := values s; objects := objects s; sets := t; faults := faults s |}.

(** Modelled from the spec: one call to the backend, which is not among
    the sources. Connectivity failures surface as the single error
    StorageUnavailable; otherwise the operation is carried out on the store. *)
Definition call {A} (op : Storage -> A * Storage) : M Storage A :=
  fun s =>
    let s0 := with_faults (tail (faults s)) s in
    match faults s with
    | true :: _ => Throw StorageUnavailable s0
    | _ => let '(a, s') := op s0 in Ok a s'
    end.

(** Modelled from the spec: [getValue] of the scalar store, which is not
    among the sources; an absent key reads as nothing ([null]). *)
Definition getValue (key : string) : M Storage (option string) :=
  call (fun s => (values s !! key, s)).

(** Modelled from the spec: [setValue] of the scalar store. *)
Definition setValue (key v : string) : M Storage unit :=
  call (fun s => (tt, with_values (<[key := v]> (values s)) s)).

(** Modelled from the spec: [delValue] of the scalar store. *)
Definition delValue (key : string) : M Storage unit :=
  call (fun s => (tt, with_values (delete key (values s)) s)).

(** Modelled from the spec: what the object store, which is not among the
    sources, holds under a key; an absent key reads as the empty object. *)
Definition read_object (key : string) (s : Storage) : document :=
  default (Mapping []) (objects s !! key).

(** Modelled from the spec: [getObject] of the object store. *)
Definition getObject (key : string) : M Storage document :=
  call (fun s => (read_object key s, s)).

(** Modelled from the spec: [addObject] of the object store. Adding a
    transaction id appends it to the entry set under the key (created on the
    first one, never deleted); adding a document merges it into the stored
    one, the last writer winning field by field. *)
Definition addObject (key : string) (v : value) : M Storage unit :=
  call (fun s =>
    let old := read_object key s in
    let new := match v with
               | TxId id => Entries ({[id]} ∪ entries_of old)
               | Doc props => Mapping (merge_props (props_of old) props)
               end in
    (tt, with_objects (<[key := new]> (objects s)) s)).

(** Modelled from the spec: the members of a set of the set store, which is
    not among the sources; an absent key is the empty set. *)
Definition members (key : string) (s : Storage) : gset string :=
  default ∅ (sets s !! key).

(** Modelled from the spec: [sadd] of the set store. *)
Definition sadd (key member : string) : M Storage unit :=
  call (fun s => (tt, with_sets (<[key := {[member]} ∪ members key s]> (sets s)) s)).

(** Modelled from the spec: [srem] of the set store. *)
Definition srem (key member : string) : M Storage unit :=
  call (fun s => (tt, with_sets (<[key := members key s ∖ {[member]}]> (sets s)) s)).

(** Modelled from the spec: [getArray] of the set store lists the members,
    each once, in an order that carries no meaning; what is proved below
    uses of the listing only which members it holds. *)
Definition getArray (key : string) : M Storage (list string) :=
  call (fun s => (elements (members key s), s)).

End Backend.

(** ** StorageService (storage.service.ts) *)

(** The fields of a transaction that the two services read. *)
Record DataItem := { item_key : string; item_value : string }.

Record Transaction := {
  id : string;
  type : Z;
  sender : string;
  party : string;
  data : option (list DataItem);
  anchors : option (list string);
}.

(** [{ type, role }] of the role-definition table's [issues] lists. *)
Record Role := { role_type : Z; role : string }.

(** One entry of [config.getTrustNetworkRoles()]. *)
Record RoleConfig := {
  issues : option (list Role);
  authorization : option (list string);
}.

Record RoleData := {
  roles : list string;
  issues_roles : list Role;
  issues_authorization : list string;
}.

(** A [Date], as the getters that formatPeriod calls report it. *)
Record Date := { getUTCFullYear : Z; getUTCMonth : Z; getUTCDate : Z }.

Module StorageService.
Import Backend.

Definition anchor_key (hash : string) : string :=
  "lto:anchor:" +:+ Js.toLowerCase hash.

Definition getAnchor (hash : string) : M Storage document :=
  getObject (anchor_key hash).

Definition saveAnchor (hash transaction : string) : M Storage unit :=
  addObject (anchor_key hash) (TxId transaction).

Definition pubkey_key (address : string) : string := "lto:pubkey:" +:+ address.

Definition getPublicKey (address : string) : M Storage (option string) :=
  getValue (pubkey_key address).

Definition savePublicKey (address publicKey : string) : M Storage unit :=
  setValue (pubkey_key address) publicKey.

Definition roles_key (address : string) : string := "lto:roles:" +:+ address.
Definition childs_key (address : string) : string :=
  "lto:assoc:" +:+ address +:+ ":childs".
Definition parents_key (address : string) : string :=
  "lto:assoc:" +:+ address +:+ ":parents".
Definition height_key : string := "lto:processing-height".

(** [arr.findIndex(p) === -1] *)
Definition not_found {A} (p : A -> bool) (arr : list A) : bool :=
  negb (existsb p arr).

(** The body of [configData.issues?.forEach(...)]: pushes each role that
    the accumulator does not hold under the same role name. *)
Definition push_issues (acc : list Role) (each : option (list Role)) : list Role :=
  match each with
  | None => acc
  | Some l =>
      foldl (fun acc eachIssues =>
               if not_found (fun each => bool_decide (role each = role eachIssues)) acc
               then acc ++ [eachIssues] else acc) acc l
  end.

(** The body of [configData.authorization?.forEach(...)]. *)
Definition push_authorization (acc : list string) (each : option (list string)) : list string :=
  match each with
  | None => acc
  | Some l =>
      foldl (fun acc eachAuthorization =>
               if not_found (fun each => bool_decide (each = eachAuthorization)) acc
               then acc ++ [eachAuthorization] else acc) acc l
  end.

(** [configRoles[role]], when it is truthy: the entry of the table under
    the name, if it has one of its own; else, the table being a plain object,
    the member of [Object.prototype] of that name, which has neither [issues]
    nor [authorization]. *)
Definition config_of (configRoles : gmap string RoleConfig) (role : string)
    : option RoleConfig :=
  match configRoles !! role with
  | Some configData => Some configData
  | None =>
      if decide (role ∈ Js.Object_prototype)
      then Some {| issues := None; authorization := None |}
      else None
  end.

(** One turn of [for (const role in roles)]. *)
Definition roles_step (configRoles : gmap string RoleConfig)
    (result : RoleData) (role : string) : RoleData :=
  match config_of configRoles role with
  | Some configData =>
      {| roles := roles result ++ [role];
         issues_roles := push_issues (issues_roles result) (issues configData);
         issues_authorization :=
           push_authorization (issues_authorization result) (authorization configData) |}
  | None => result
  end.

Definition getTrustNetworkRoles (configRoles : gmap string RoleConfig)
    (address : string) : M Storage RoleData :=
  await roles := getObject (roles_key address) in
  ret (foldl (roles_step configRoles)
             {| roles := []; issues_roles := []; issues_authorization := [] |}
             (map fst (props_of roles))).

Definition saveTrustNetworkRole (recipient sender : string) (data : Role) : M Storage unit :=
  await roles := getObject (roles_key recipient) in
  let roles := set_prop (role data)
                 {| grant_sender := sender; grant_type := role_type data |}
                 (props_of roles) in
  addObject (roles_key recipient) (Doc roles).

Definition saveAssociation (transaction : Transaction) : M Storage unit :=
  await _ := sadd (childs_key (sender transaction)) (party transaction) in
  await _ := sadd (parents_key (party transaction)) (sender transaction) in
  ret tt.

(** [for (const child of childAssocs) { ... }] of recurRemoveAssociation,
    [recur] being the recursive call. *)
Fixpoint remove_children (recur : string -> Storage -> option (Outcome Storage unit))
    (address : string) (childAssocs : list string) (s : Storage)
    : option (Outcome Storage unit) :=
  match childAssocs with
  | [] => Some (Ok tt s)
  | child :: rest =>
      match srem (childs_key address) child s with
      | Throw e s1 => Some (Throw e s1)
      | Ok _ s1 =>
          match srem (parents_key child) address s1 with
          | Throw e s2 => Some (Throw e s2)
          | Ok _ s2 =>
              match recur child s2 with
              | None => None
              | Some (Throw e s3) => Some (Throw e s3)
              | Some (Ok _ s3) => remove_children recur address rest s3
              end
          end
      end
  end.

Fixpoint recurRemoveAssociation (fuel : nat) (address : string) (s : Storage)
    : option (Outcome Storage unit) :=
  match fuel with
  | O => None
  | S fuel' =>
      match getArray (childs_key address) s with
      | Throw e s1 => Some (Throw e s1)
      | Ok childAssocs s1 =>
          remove_children (recurRemoveAssociation fuel') address childAssocs s1
      end
  end.

Definition removeAssociation (fuel : nat) (transaction : Transaction) (s : Storage)
    : option (Outcome Storage unit) :=
  match srem (childs_key (sender transaction)) (party transaction) s with
  | Throw e s1 => Some (Throw e s1)
  | Ok _ s1 =>
      match srem (parents_key (party transaction)) (sender transaction) s1 with
      | Throw e s2 => Some (Throw e s2)
      | Ok _ s2 => recurRemoveAssociation fuel (party transaction) s2
      end
  end.

(** [{ children, parents }] of getAssociations. *)
Definition getAssociations (address : string) : M Storage (list string * list string) :=
  await children := getArray (childs_key address) in
  await parents := getArray (parents_key address) in
  ret (children, parents).

Definition formatPeriod (date : Date) : string :=
  let year := Js.String_ (getUTCFullYear date) in
  let month := Js.substr (-2) ("0" +:+ Js.String_ (getUTCMonth date + 1)) in
  let day := Js.substr (-2) ("0" +:+ Js.String_ (getUTCDate date)) in
  year +:+ "-" +:+ month +:+ "-" +:+ day +:+ " 00:00:00".

(** [let height; try { height = await getValue(...) } catch (e) { }
    return height ? Number(height) : null] *)
Definition getProcessingHeight : M Storage (option Js.number) :=
  await height := try_catch (getValue height_key) in
  ret (if Js.truthy_string (mjoin height)
       then Js.Number <$> mjoin height
       else None).

Definition saveProcessingHeight (height : Z) : M Storage unit :=
  setValue height_key (Js.String_ height).

Definition clearProcessHeight : M Storage unit :=
  delValue height_key.

End StorageService.

(** ** AnchorMonitorService (anchor-monitor.service.ts) *)

Record Block := { height : Z; transactions : list Transaction }.

(** A call that the monitor has made to a collaborator and awaited, noted
    when it resolves. *)
Inductive Call :=
| GetBlock (height : Z)
| Index (id : string)
| SaveAnchor (hexHash id : string)
| SaveProcessingHeight (height : Z).

(** The monitor's own fields, the storage it writes to, the [saveAnchor]
    calls it has made without awaiting them (hash and transaction id, oldest
    first), and the awaited calls in the order in which they resolved. When an
    in-flight call settles is up to the event loop; no code here waits for it.
    The storage shows what the awaited calls have written: it is the storage
    of the code at the moment a call of the monitor settles, as long as no
    call made without awaiting has settled in between. What is proved of
    the anchor records over more than one call is therefore proved of runs
    with no call in flight; [inflight] itself only grows, and reads as the
    calls made and never awaited. *)
Record Monitor := {
  processing : bool;
  lastBlock : Z;
  storage : Storage;
  inflight : list (string * string);
  calls : list Call;
}.

(** The answer of the node client. *)
Inductive Reply (A : Type) := Resolved (a : A) | Rejected (e : Error).
Arguments Resolved {A} a.
Arguments Rejected {A} e.

Record NodeService := {
  getLastBlockHeight : Reply Z;
  getBlock : Z -> Reply Block;
}.

(** [for (const x of l) { await body(x) }] *)
Fixpoint for_of {S A} (l : list A) (body : A -> M S unit) : M S unit :=
  match l with
  | [] => ret tt
  | x :: l' => await _ := body x in for_of l' body
  end.

Module AnchorMonitorService.

Definition with_storage (st : Storage) (m : Monitor) : Monitor :=
  {| processing := processing m; lastBlock := lastBlock m; storage := st;
     inflight := inflight m; calls := calls m |}.
Definition with_processing (b : bool) (m : Monitor) : Monitor :=
  {| processing := b; lastBlock := lastBlock m; storage := storage m;
     inflight := inflight m; calls := calls m |}.

(** An awaited call to a service that works on the storage. *)
Definition on_storage {A} (c : M Storage A) : M Monitor A :=
  fun m => match c (storage m) with
           | Ok a st => Ok a (with_storage st m)
           | Throw e st => Throw e (with_storage st m)
           end.

(** An awaited call to the node. *)
Definition on_node {A} (r : Reply A) : M Monitor A :=
  fun m => match r with
           | Resolved a => Ok a m
           | Rejected e => Throw e m
           end.

(** The awaited call [c] has resolved. *)
Definition note (c : Call) : M Monitor unit :=
  fun m => Ok tt {| processing := processing m; lastBlock := lastBlock m;
                    storage := storage m; inflight := inflight m;
                    calls := calls m ++ [c] |}.

(** A call to [saveAnchor] whose promise nobody awaits. *)
Definition detached_saveAnchor (hexHash id : string) (m : Monitor) : Monitor :=
  {| processing := processing m; lastBlock := lastBlock m; storage := storage m;
     inflight := inflight m ++ [(hexHash, id)]; calls := calls m |}.

Definition set_processing (b : bool) : M Monitor unit :=
  fun m => Ok tt (with_processing b m).

Definition transactionTypes : list Z := [12; 15].
Definition anchorToken : string := "⚓".

Section Services.

(** The collaborators that are not among the sources: the encoder (pure),
    the node client and the generic indexer (which works on the storage). *)
Context {Buffer : Type}.
Variable hexEncode : Buffer -> string.
Variable base64Decode : string -> Buffer.
Variable base58Decode : string -> Buffer.
Variable node : NodeService.
Variable index : Transaction -> M Storage unit.

(** [await this.storage.saveAnchor(hexHash, transaction.id)] *)
Definition await_saveAnchor (hexHash id : string) : M Monitor unit :=
  await _ := on_storage (StorageService.saveAnchor hexHash id) in
  note (SaveAnchor hexHash id).

(** The body of [for (const item of transaction.data)]. *)
Definition legacy_item (transaction : Transaction) (item : DataItem) : M Monitor unit :=
  if decide (item_key item = anchorToken) then
    let value := Js.replace "base64:" "" (item_value item) in
    let hexHash := hexEncode (base64Decode value) in
    await_saveAnchor hexHash (id transaction)
  else ret tt.

(** The callback of [transaction.anchors.forEach(async (anchor) => ...)]:
    it runs up to its call to saveAnchor, whose promise forEach drops. *)
Definition native_anchor_callback (transaction : Transaction) (m : Monitor)
    (anchor : string) : Monitor :=
  let hexHash := hexEncode (base58Decode anchor) in
  detached_saveAnchor hexHash (id transaction) m.

Definition processTransaction (transaction : Transaction) : M Monitor unit :=
  await _ := on_storage (index transaction) in
  await _ := note (Index (id transaction)) in
  let skip := negb (existsb (Z.eqb (type transaction)) transactionTypes) in
  if skip then ret tt
  else
    match type transaction =? 12, data transaction with
    | true, Some items => for_of items (legacy_item transaction)
    | _, _ =>
        match type transaction =? 15, anchors transaction with
        | true, Some l =>
            fun m => Ok tt (foldl (native_anchor_callback transaction) m l)
        | _, _ => ret tt
        end
    end.

Definition processBlock (block : Block) : M Monitor unit :=
  for_of (transactions block) processTransaction.

(** [for (; lastHeight <= currentHeight; lastHeight++) { ... }]: the body
    runs once for each of the [n] heights from [lastHeight] on. *)
Fixpoint scan (n : nat) (lastHeight : Z) : M Monitor unit :=
  match n with
  | O => ret tt
  | S n' =>
      await block := on_node (getBlock node lastHeight) in
      await _ := note (GetBlock lastHeight) in
      await _ := processBlock block in
      await _ := on_storage (StorageService.saveProcessingHeight lastHeight) in
      await _ := note (SaveProcessingHeight lastHeight) in
      scan n' (lastHeight + 1)
  end.

(** [getProcessingHeight() || this.lastBlock] *)
Definition checkpoint_or (checkpoint : option Js.number) (lastBlock : Z) : Z :=
  if Js.truthy_number checkpoint
  then match checkpoint with
       | Some (Js.Int z) => z
       | _ => lastBlock
       end
  else lastBlock.

Definition checkNewBlock : M Monitor unit :=
  await _ := set_processing true in
  await currentHeight := on_node (getLastBlockHeight node) in
  await checkpoint := on_storage StorageService.getProcessingHeight in
  fun m =>
    let lastHeight := checkpoint_or checkpoint (lastBlock m) + 1 in
    (await _ := scan (Z.to_nat (currentHeight + 1 - lastHeight)) lastHeight in
     set_processing false) m.

End Services.

(** [config.getNodeStartingBlock()]: a height, or ['last']. *)
Inductive StartingBlock := Last | Height (h : Z).

Definition with_lastBlock (h : Z) (m : Monitor) : Monitor :=
  {| processing := processing m; lastBlock := h; storage := storage m;
     inflight := inflight m; calls := calls m |}.

Section Loop.

Context {Buffer : Type}.
Variable hexEncode : Buffer -> string.
Variable base64Decode : string -> Buffer.
Variable base58Decode : string -> Buffer.
Variable index : Transaction -> M Storage unit.

(** [this.lastBlock = config.getNodeStartingBlock() === 'last' ?
    await this.node.getLastBlockHeight() : config.getNodeStartingBlock()] *)
Definition resolve_lastBlock (startingBlock : StartingBlock) (node : NodeService)
    : M Monitor unit :=
  await h := match startingBlock with
             | Last => on_node (getLastBlockHeight node)
             | Height h => ret h
             end in
  fun m => Ok tt (with_lastBlock h m).

(** One turn of [process]: [if (!this.processing) await this.checkNewBlock()];
    the delay that follows takes time and changes nothing. *)
Definition process_turn (node : NodeService) : M Monitor unit :=
  fun m =>
    if processing m then Ok tt m
    else checkNewBlock hexEncode base64Decode base58Decode node index m.

(** [process] calls itself after every turn: [fuel] bounds the turns, and
    [nodes i] is the node client as the turn [i] from now finds it. *)
Fixpoint process (fuel : nat) (nodes : nat -> NodeService) (m : Monitor)
    : option (Outcome Monitor unit) :=
  match fuel with
  | O => None
  | S fuel' =>
      match process_turn (nodes O) m with
      | Throw e m' => Some (Throw e m')
      | Ok _ m' => process fuel' (fun i => nodes (S i)) m'
      end
  end.

(** [try { ...; await this.process() } catch (e) { this.processing = false;
    throw e }] *)
Definition start (fuel : nat) (startingBlock : StartingBlock) (node : NodeService)
    (nodes : nat -> NodeService) (m : Monitor) : option (Outcome Monitor unit) :=
  match resolve_lastBlock startingBlock node m with
  | Throw e m' => Some (Throw e (with_processing false m'))
  | Ok _ m' =>
      match process fuel nodes m' with
      | None => None
      | Some (Ok _ m'') => Some (Ok tt m'')
      | Some (Throw e m'') => Some (Throw e (with_processing false m''))
      end
  end.

End Loop.

End AnchorMonitorService.

(** ** RedisConnection (redis.connection.ts) *)

(** The client of the Redis server, as far as the paginated read uses
    it: [connection.zrange(key, start, stop)]. *)
Record Redis := { redis_zrange : string -> Z -> Z -> Reply (list string) }.

Module RedisConnection.

(** [limit] and [offset] are numbers: [Number] returns them as they are. *)
Definition zrangePaginate (connection : Redis) (key : string) (limit offset : Z)
    : Reply (list string) :=
  let start := offset in
  let stop := (limit - 1) + start in
  redis_zrange connection key start stop.

End RedisConnection.

(** ** Vocabulary of the properties *)

Section Vocabulary.
Import Backend StorageService.

(** The state that a settled call has left behind. *)
Definition final {S A} (o : Outcome S A) : S :=
  match o with Ok _ s => s | Throw _ s => s end.

(** The number of members over all sets of the set store. *)
Definition weight (t : gmap string (gset string)) : nat :=
  map_fold (fun _ X n => (size X + n)%nat) 0%nat t.

Definition children (s : Storage) (a : string) : gset string :=
  members (childs_key a) s.
Definition parents (s : Storage) (a : string) : gset string :=
  members (parents_key a) s.

(** [c] can be reached from [p] along one or more child edges. *)
Definition descends (s : Storage) : relation string :=
  tc (fun p c => c ∈ children s p).

Definition acyclic (s : Storage) : Prop := ∀ a, ¬ descends s a a.

(** An edge is in the parent's children set iff its mirror is in the
    child's parents set. *)
Definition mirrored (s : Storage) : Prop :=
  ∀ p c, c ∈ children s p ↔ p ∈ parents s c.

Definition graph_size (s : Storage) : nat := weight (sets s).

(** The entry set of the anchor record kept for [hash]. *)
Definition anchor_entries (s : Storage) (hash : string) : gset string :=
  entries_of (read_object (anchor_key hash) s).

(** The list [l] without its repetitions under [key]: of the elements with
    one key the first stays. *)
Fixpoint dedup_by {A K} `{EqDecision K} (key : A -> K) (l : list A) : list A :=
  match l with
  | [] => []
  | x :: l' => x :: filter (fun y => key y ≠ key x) (dedup_by key l')
  end.

(** getRoles as the specification words it: of the assigned role names
    those present in the role-definition table; the issues-roles lists of
    these merged and deduplicated by role name, the first occurrence winning;
    their issues-authorization lists merged and deduplicated by exact match. *)
Definition getRoles (table : gmap string RoleConfig) (assigned : list string) : RoleData :=
  let present := filter (fun name => is_Some (table !! name)) assigned in
  let configs := omap (fun name => table !! name) present in
  {| roles := present;
     issues_roles :=
       dedup_by role (configs ≫= fun config => default [] (issues config));
     issues_authorization :=
       dedup_by (fun scope : string => scope)
                (configs ≫= fun config => default [] (authorization config)) |}.

End Vocabulary.

(** ** Vocabulary of a scan pass *)

Section PassVocabulary.
Import StorageService AnchorMonitorService.

Context {Buffer : Type}.
Variable hexEncode : Buffer -> string.
Variable base64Decode : string -> Buffer.
Variable node : NodeService.

(** The awaited calls that indexing one transaction makes: the generic
    indexer, then saveAnchor for each legacy anchor item. *)
Definition anchor_calls (tx : Transaction) : list Call :=
  match type tx =? 12, data tx with
  | true, Some items =>
      omap (fun item =>
              if decide (item_key item = anchorToken)
              then Some (SaveAnchor
                           (hexEncode (base64Decode
                              (Js.replace "base64:" "" (item_value item))))
                           (id tx))
              else None) items
  | _, _ => []
  end.

Definition transaction_calls (tx : Transaction) : list Call :=
  Index (id tx) :: anchor_calls tx.

(** The calls of one fully processed block: its fetch, the indexing of its
    transactions in order, the checkpoint. *)
Definition block_calls (h : Z) (block : Block) : list Call :=
  GetBlock h :: (transactions block ≫= transaction_calls) ++ [SaveProcessingHeight h].

Definition block_at (h : Z) : Block :=
  match getBlock node h with
  | Resolved block => block
  | Rejected _ => {| height := h; transactions := [] |}
  end.

(** The calls of a pass over [n] heights from [first] on that runs to its end. *)
Definition pass_calls (first n : Z) : list Call :=
  seqZ first n ≫= fun h => block_calls h (block_at h).

(** The first height of the pass that starts in [m]. *)
Definition first_height (m : Monitor) : Z :=
  match getProcessingHeight (storage m) with
  | Ok checkpoint _ => checkpoint_or checkpoint (lastBlock m) + 1
  | Throw _ _ => lastBlock m + 1
  end.

(** The calls of the pass that starts in [m], if it runs to its end. *)
Definition expected_calls (m : Monitor) : list Call :=
  match getLastBlockHeight node with
  | Resolved currentHeight =>
      pass_calls (first_height m) (currentHeight + 1 - first_height m)
  | Rejected _ => []
  end.

(** The heights of the blocks fetched, in the order of the calls. *)
Definition fetched_heights (t : list Call) : list Z :=
  omap (fun c => match c with GetBlock h => Some h | _ => None end) t.

(** The run of [c] adds the calls [ideal] when it returns, and some of
    them, from the first on, when it throws. *)
Definition traced {A} (c : M Monitor A) (ideal : list Call) : Prop :=
  ∀ m, match c m with
       | Ok _ m' => calls m' = calls m ++ ideal
       | Throw _ m' => ∃ t, t `prefix_of` ideal ∧ calls m' = calls m ++ t
       end.

End PassVocabulary.

(** ** Sample data *)

Section Samples.
Import Backend StorageService.

Definition empty_storage : Storage :=
  {| values := ∅; objects := ∅; sets := ∅; faults := [] |}.

(** A issues an association with B, and revokes it. *)
Definition issue_A_B : Transaction :=
  {| id := "tx-issue"; type := 16; sender := "A"; party := "B";
     data := None; anchors := None |}.

Definition revoke_A_B : Transaction :=
  {| id := "tx-revoke"; type := 17; sender := "A"; party := "B";
     data := None; anchors := None |}.

(** A is the parent of B; B is the parent of C and of D. *)
Definition family : Storage :=
  {| values := ∅; objects := ∅;
     sets := {[ childs_key "A" := {["B"]}; parents_key "B" := {["A"]};
                childs_key "B" := {["C"; "D"]};
                parents_key "C" := {["B"]}; parents_key "D" := {["B"]} ]};
     faults := [] |}.

(** A is the parent of B; B is the parent of C, and C the parent of B. *)
Definition ring : Storage :=
  {| values := ∅; objects := ∅;
     sets := {[ childs_key "A" := {["B"]}; parents_key "B" := {["A"; "C"]};
                childs_key "B" := {["C"]}; parents_key "C" := {["B"]};
                childs_key "C" := {["B"]} ]};
     faults := [] |}.

(** The role-definition table: a validator may issue the role node and the
    authorization scope tx:anchor. *)
Definition role_table : gmap string RoleConfig :=
  {[ "validator" := {| issues := Some [ {| role_type := 100; role := "node" |} ];
                       authorization := Some ["tx:anchor"] |} ]}.

(** An address that was granted the roles validator and ghost. *)
Definition granted : Storage :=
  final (saveTrustNetworkRole "3Jq" "3Nr" {| role_type := 101; role := "ghost" |}
    (final (saveTrustNetworkRole "3Jq" "3Nr" {| role_type := 100; role := "validator" |}
       empty_storage))).

(** The same address, granted the role toString as well. *)
Definition granted_toString : Storage :=
  final (saveTrustNetworkRole "3Jq" "3Nr" {| role_type := 102; role := "toString" |}
    granted).

(** A legacy anchor transaction with one anchor item, and a native one. *)
Definition legacy_anchor : Transaction :=
  {| id := "tx-12"; type := 12; sender := "A"; party := "";
     data := Some [ {| item_key := "note"; item_value := "base64:aGk=" |};
                    {| item_key := AnchorMonitorService.anchorToken;
                       item_value := "base64:3q2+7w==" |} ];
     anchors := None |}.

Definition native_anchor : Transaction :=
  {| id := "tx-15"; type := 15; sender := "A"; party := "";
     data := None; anchors := Some ["3yZe7d"] |}.

(** Stand-ins for the collaborators: an encoder for which the buffer of a
    text is the text itself, and an indexer that writes nothing. *)
Definition plain_encode (buffer : string) : string := buffer.
Definition plain_decode (text : string) : string := text.
Definition silent_index (transaction : Transaction) : M Storage unit := ret tt.

(** A node at height [current]; its block 7 carries the two anchor
    transactions, the others are empty. *)
Definition sample_node (current : Z) : NodeService :=
  {| getLastBlockHeight := Resolved current;
     getBlock := fun h =>
       Resolved {| height := h;
                   transactions := if h =? 7 then [legacy_anchor; native_anchor] else [] |} |}.

(** A storage whose checkpoint is [h]. *)
Definition checkpointed (h : Z) (fs : list bool) : Storage :=
  {| values := {[ height_key := Js.String_ h ]}; objects := ∅; sets := ∅; faults := fs |}.

Definition idle_monitor (st : Storage) (last : Z) : Monitor :=
  {| processing := false; lastBlock := last; storage := st;
     inflight := []; calls := [] |}.

End Samples.

(** ** Vocabulary of the further properties *)

Section FurtherVocabulary.
Import Backend StorageService.

(** [d] is [a] or can be reached from it along child edges. *)
Definition reaches (s : Storage) : relation string :=
  rtc (fun p c => c ∈ children s p).

(** No set of [s'] holds a member that the set of [s] lacks. *)
Definition shrinks (s s' : Storage) : Prop :=
  ∀ k, members k s' ⊆ members k s.

(** Every child edge of [s0] that [s] lacks leads to an address that has
    no children left in [s], or to one of [pending]. *)
Definition settled (s0 : Storage) (pending : gset string) (s : Storage) : Prop :=
  ∀ x c, c ∈ children s0 x -> c ∉ children s x ->
         children s c = ∅ ∨ c ∈ pending.

(** Every entry of [s0] that [s] lacks belongs to the mirrored pair of a
    child edge of [s0] that leaves an address reached from [a]. *)
Definition cut_below (s0 : Storage) (a : string) (s : Storage) : Prop :=
  ∀ k z, z ∈ members k s0 -> z ∉ members k s ->
         ∃ y c, reaches s0 a y ∧ c ∈ children s0 y ∧
                ((k = childs_key y ∧ z = c) ∨ (k = parents_key c ∧ z = y)).

(** The role names that the stored document of [address] holds, in the
    order of enumeration. *)
Definition role_names (s : Storage) (address : string) : list string :=
  map fst (props_of (read_object (roles_key address) s)).

(** The names of an object after a value has been assigned to the name
    [k], from the names it had. *)
Definition enumerate_with (k : string) (names : list string) : list string :=
  if decide (k ∈ names) then names
  else if decide (k = "__proto__"%string) then names
  else match Js.array_index k with
       | Some n => insert_index (fun name => name) n k names
       | None => names ++ [k]
       end.

(** What the loop of getTrustNetworkRoles makes of the assigned role
    names: the names for which [configRoles[role]] is truthy, and of the table
    entries among them the roles to issue, each name once, and the
    authorizations, each once. *)
Definition listed (table : gmap string RoleConfig) (assigned : list string) : RoleData :=
  let present := filter (fun name => is_Some (config_of table name)) assigned in
  let configs := omap (config_of table) present in
  {| roles := present;
     issues_roles :=
       dedup_by role (configs ≫= fun config => default [] (issues config));
     issues_authorization :=
       dedup_by (fun scope : string => scope)
                (configs ≫= fun config => default [] (authorization config)) |}.

(** The field that [('0' + n).substr(-2)] yields has two characters and
    reads back as [n]. *)
Definition padded (n : Z) : bool :=
  let field := Js.substr (-2) ("0" +:+ Js.String_ n) in
  (String.length field =? 2)%nat &&
  match Js.Number field with Js.Int z => z =? n | Js.NaN => false end.

(** What the Redis server answers to ZRANGE over the ranking [l]: the
    members from the index [start] to the index [stop], both included; a
    negative index counts from the end, an index past the end is cut. *)
Definition ranked (l : list string) (start stop : Z) : list string :=
  let n := Z.of_nat (List.length l) in
  let first := if start <? 0 then Z.max (n + start) 0 else start in
  let last := if stop <? 0 then n + stop else Z.min stop (n - 1) in
  if last <? first then []
  else take (Z.to_nat (last - first + 1)) (drop (Z.to_nat first) l).

(** The connection answers the ranked reads of [key] as a server that
    holds the ranking [l] there. *)
Definition serves (connection : Redis) (key : string) (l : list string) : Prop :=
  ∀ start stop, redis_zrange connection key start stop = Resolved (ranked l start stop).

(** The run of [c], whatever its outcome, keeps every call that was made
    and not awaited among the calls made and not awaited. *)
Definition keeps_in_flight {A} (c : M Monitor A) : Prop :=
  ∀ m p, p ∈ inflight m -> p ∈ inflight (final (c m)).

(** The run of [c], whatever its outcome, leaves the stored checkpoint as
    it was. *)
Definition keeps_checkpoint {A} (c : M Monitor A) : Prop :=
  ∀ m, values (storage (final (c m))) !! height_key =
       values (storage m) !! height_key.

(** The run of [c], whatever its outcome, leaves the monitor's own fields
    [processing] and [lastBlock] as they were. *)
Definition keeps_fields {A} (c : M Monitor A) : Prop :=
  ∀ m, processing (final (c m)) = processing m ∧
       lastBlock (final (c m)) = lastBlock m.

End FurtherVocabulary.

(** ** Vocabulary of the anchors of a transaction *)

Section AnchorVocabulary.
Import StorageService AnchorMonitorService.

Context {Buffer : Type}.
Variable hexEncode : Buffer -> string.
Variable base64Decode : string -> Buffer.

(** The hashes under which the loop over the data items saves the
    transaction: one for each item that bears the anchor key. *)
Definition legacy_hashes (items : list DataItem) : list string :=
  omap (fun item =>
          if decide (item_key item = anchorToken)
          then Some (hexEncode (base64Decode
                       (Js.replace "base64:" "" (item_value item))))
          else None) items.

(** The record of [h] is one of those that a transaction of type 12 is
    saved under. *)
Definition anchored (tx : Transaction) (h : string) : bool :=
  match type tx =? 12, data tx with
  | true, Some items =>
      bool_decide (anchor_key h ∈ anchor_key <$> legacy_hashes items)
  | _, _ => false
  end.

End AnchorVocabulary.

(** ** Further sample data *)

Section FurtherSamples.
Import Backend StorageService.

(** C issues an association with E, and revokes it. *)
Definition issue_C_E : Transaction :=
  {| id := "tx-issue-2"; type := 16; sender := "C"; party := "E";
     data := None; anchors := None |}.

(** A connection to a server that holds three transaction ids under
    every key. *)
Definition sample_connection : Redis :=
  {| redis_zrange := fun _ start stop => Resolved (ranked ["tx-1"; "tx-2"; "tx-3"] start stop) |}.

(** A node at height 3 that fails to deliver any block. *)
Definition broken_node : NodeService :=
  {| getLastBlockHeight := Resolved 3;
     getBlock := fun _ => Rejected NodeUnavailable |}.

End FurtherSamples.

(** * Properties *)

(** ** Keys of the association sets *)

Section Keys.
Import StorageService.

Lemma list_of_append (a b : string) :
  list_ascii_of_string (a +:+ b) = list_ascii_of_string a ++ list_ascii_of_string b.
Proof. induction a as [|c a IH]; simpl; [done | by rewrite IH]. Qed.

Lemma list_of_string_inj (a b : string) :
  list_ascii_of_string a = list_ascii_of_string b -> a = b.
Proof.
  intros H. rewrite <- (string_of_list_ascii_of_string a),
    <- (string_of_list_ascii_of_string b). by rewrite H.
Qed.

Lemma append_inj_r (a b t : string) : a +:+ t = b +:+ t -> a = b.
Proof.
  intros H. apply list_of_string_inj.
  apply (f_equal list_ascii_of_string) in H. rewrite !list_of_append in H.
  by apply app_inv_tail in H.
Qed.

Lemma childs_key_inj (a b : string) : childs_key a = childs_key b -> a = b.
Proof.
  unfold childs_key. intros H. apply String.app_inj in H. by apply append_inj_r in H.
Qed.

Lemma parents_key_inj (a b : string) : parents_key a = parents_key b -> a = b.
Proof.
  unfold parents_key. intros H. apply String.app_inj in H. by apply append_inj_r in H.
Qed.

Lemma childs_parents_ne (a b : string) : childs_key a ≠ parents_key b.
Proof.
  unfold childs_key, parents_key. intros H. apply String.app_inj in H.
  apply (f_equal list_ascii_of_string) in H. rewrite !list_of_append in H.
  change (list_ascii_of_string ":parents")
    with (list_ascii_of_string ":" ++ list_ascii_of_string "parents") in H.
  rewrite (assoc (++)) in H.
  apply app_inj_2 in H; [|done]. destruct H as [_ H]. discriminate H.
Qed.

End Keys.

(** ** Calls to the backend *)

Section Calls.
Import Backend.

Lemma with_faults_id (s : Storage) : with_faults (faults s) s = s.
Proof. by destruct s. Qed.

Lemma call_nofault {A} (op : Storage -> A * Storage) (s : Storage) :
  faults s = [] -> call op s = let '(a, s') := op s in Ok a s'.
Proof.
  intros H. unfold call. rewrite H. simpl. rewrite <- H at 1.
  by rewrite with_faults_id.
Qed.

(** A call either fails, leaving the store as it was, or runs its operation
    on the store; the head of [faults] is consumed in both cases. *)
Lemma call_cases {A} (op : Storage -> A * Storage) (s : Storage) :
  let s0 := with_faults (tail (faults s)) s in
  call op s = Throw StorageUnavailable s0 ∨
  call op s = Ok (op s0).1 (op s0).2.
Proof.
  unfold call. destruct (faults s) as [|[] fs]; simpl; auto;
    right; by destruct (op _).
Qed.

Lemma srem_cases (k x : string) (s : Storage) :
  (∃ s', srem k x s = Throw StorageUnavailable s' ∧ sets s' = sets s) ∨
  (∃ s', srem k x s = Ok tt s' ∧
         sets s' = <[k := members k s ∖ {[x]}]> (sets s) ∧
         faults s' = tail (faults s)).
Proof.
  destruct (call_cases
    (fun s => (tt, with_sets (<[k := members k s ∖ {[x]}]> (sets s)) s)) s)
    as [H|H]; [left|right]; eexists; (split; [exact H|]); done.
Qed.

Lemma sadd_cases (k x : string) (s : Storage) :
  (∃ s', sadd k x s = Throw StorageUnavailable s' ∧ sets s' = sets s) ∨
  (∃ s', sadd k x s = Ok tt s' ∧
         sets s' = <[k := {[x]} ∪ members k s]> (sets s) ∧
         faults s' = tail (faults s)).
Proof.
  destruct (call_cases
    (fun s => (tt, with_sets (<[k := {[x]} ∪ members k s]> (sets s)) s)) s)
    as [H|H]; [left|right]; eexists; (split; [exact H|]); done.
Qed.

Lemma getArray_cases (k : string) (s : Storage) :
  (∃ s', getArray k s = Throw StorageUnavailable s' ∧ sets s' = sets s) ∨
  (∃ s', getArray k s = Ok (elements (members k s)) s' ∧
         sets s' = sets s ∧ faults s' = tail (faults s)).
Proof.
  destruct (call_cases (fun s => (elements (members k s), s)) s)
    as [H|H]; [left|right]; eexists; (split; [exact H|]); done.
Qed.

(** Membership after a removal and after an addition, by key. *)
Lemma members_after_srem (k x k' : string) (s s' : Storage) :
  sets s' = <[k := members k s ∖ {[x]}]> (sets s) ->
  members k' s' = if decide (k' = k) then members k s ∖ {[x]} else members k' s.
Proof.
  intros H. unfold members at 1. rewrite H. case_decide as Hk.
  - subst. by rewrite lookup_insert_eq.
  - by rewrite lookup_insert_ne.
Qed.

Lemma members_after_sadd (k x k' : string) (s s' : Storage) :
  sets s' = <[k := {[x]} ∪ members k s]> (sets s) ->
  members k' s' = if decide (k' = k) then {[x]} ∪ members k s else members k' s.
Proof.
  intros H. unfold members at 1. rewrite H. case_decide as Hk.
  - subst. by rewrite lookup_insert_eq.
  - by rewrite lookup_insert_ne.
Qed.

Lemma members_same_sets (k : string) (s s' : Storage) :
  sets s' = sets s -> members k s' = members k s.
Proof. intros H. unfold members. by rewrite H. Qed.

End Calls.

(** ** The size of the association graph *)

Section Weight.
Import Backend.

Lemma weight_insert (t : gmap string (gset string)) (k : string) (X : gset string) :
  (weight (<[k := X]> t) + size (default ∅ (t !! k)) = weight t + size X)%nat.
Proof.
  unfold weight.
  assert (Hcomm : ∀ (m : gmap string (gset string)) (j1 j2 : string)
            (z1 z2 : gset string) (y : nat),
            j1 ≠ j2 -> m !! j1 = Some z1 -> m !! j2 = Some z2 ->
            (size z1 + (size z2 + y) = size z2 + (size z1 + y))%nat)
    by (intros; lia).
  destruct (t !! k) as [Y|] eqn:Hk; cbv [default from_option Datatypes.id].
  - rewrite (map_fold_delete_L _ _ k Y t); [|by apply Hcomm|done].
    rewrite <- insert_delete_eq.
    rewrite map_fold_insert_L; [lia|by apply Hcomm|by rewrite lookup_delete_eq].
  - rewrite map_fold_insert_L; [|by apply Hcomm|done].
    rewrite size_empty. lia.
Qed.

Lemma weight_srem (k x : string) (s s' : Storage) :
  sets s' = <[k := members k s ∖ {[x]}]> (sets s) ->
  (weight (sets s') <= weight (sets s))%nat ∧
  (x ∈ members k s -> (weight (sets s') < weight (sets s))%nat).
Proof.
  intros H. rewrite H.
  pose proof (weight_insert (sets s) k (members k s ∖ {[x]})) as Hw.
  fold (members k s) in Hw.
  assert (Hle : (size (members k s ∖ {[x]}) <= size (members k s))%nat)
    by (apply subseteq_size; set_solver).
  split; [lia|]. intros Hx.
  assert ((size (members k s ∖ {[x]}) < size (members k s))%nat); [|lia].
  apply subset_size. set_solver.
Qed.

End Weight.

(** ** The association graph *)

Section Associations.
Import Backend StorageService.

(** The loop over the children ends when the recursive calls do: either a
    removal has already shrunk the graph, or every child still listed is a
    child in the store, so that its removal shrinks it. *)
Lemma remove_children_ends recur (n : nat) (a : string) :
  (∀ c s, (graph_size s < n)%nat ->
     ∃ o, recur c s = Some o ∧ (graph_size (final o) <= graph_size s)%nat) ->
  ∀ l s,
    ((graph_size s < n)%nat ∨
     (graph_size s = n ∧ ∀ c, c ∈ l -> c ∈ children s a)) ->
    ∃ o, remove_children recur a l s = Some o ∧
         (graph_size (final o) <= graph_size s)%nat.
Proof.
  intros Hrec l. induction l as [|child rest IH]; intros s Hs; simpl.
  { eexists; split; [done|]. simpl. lia. }
  destruct (srem_cases (childs_key a) child s) as [(s1 & -> & E1)|(s1 & -> & E1 & _)].
  { eexists; split; [done|]. unfold graph_size; simpl. rewrite E1. lia. }
  destruct (weight_srem _ _ _ _ E1) as [Hle1 Hlt1].
  destruct (srem_cases (parents_key child) a s1) as [(s2 & -> & E2)|(s2 & -> & E2 & _)].
  { eexists; split; [done|]. unfold graph_size; simpl. rewrite E2. lia. }
  destruct (weight_srem _ _ _ _ E2) as [Hle2 _].
  assert (Hlt : (graph_size s2 < n)%nat).
  { unfold graph_size in *. destruct Hs as [Hs|[Hs Hin]]; [lia|].
    specialize (Hlt1 (Hin child (list_elem_of_here _ _))). lia. }
  destruct (Hrec child s2 Hlt) as ([[] s3|e s3] & -> & Hle3); simpl in Hle3.
  - destruct (IH s3) as (o & -> & Hle4); [left; lia|].
    eexists; split; [done|]. unfold graph_size in *. lia.
  - eexists; split; [done|]. unfold graph_size in *. simpl. lia.
Qed.

(** The cascade ends once the fuel exceeds the size of the graph: no call
    follows an edge that has not just been removed. *)
Lemma recurRemoveAssociation_ends (fuel : nat) :
  ∀ a s, (graph_size s < fuel)%nat ->
    ∃ o, recurRemoveAssociation fuel a s = Some o ∧
         (graph_size (final o) <= graph_size s)%nat.
Proof.
  induction fuel as [|fuel IH]; intros a s Hs; [lia|]. simpl.
  destruct (getArray_cases (childs_key a) s) as [(s1 & -> & E1)|(s1 & -> & E1 & _)].
  { eexists; split; [done|]. unfold graph_size; simpl. rewrite E1. lia. }
  assert (Es : graph_size s1 = graph_size s) by (unfold graph_size; by rewrite E1).
  destruct (remove_children_ends (recurRemoveAssociation fuel) (graph_size s) a)
    with (l := elements (members (childs_key a) s)) (s := s1) as (o & Ho & Hle).
  - intros c s' Hs'. apply IH. lia.
  - right. split; [done|]. intros c Hc. apply elem_of_elements in Hc.
    unfold children. by rewrite (members_same_sets _ _ _ E1).
  - exists o. split; [done|]. lia.
Qed.

(** Without faults a call to the set store is its operation. *)
Lemma srem_nofault (k x : string) (s : Storage) :
  faults s = [] ->
  srem k x s = Ok tt (with_sets (<[k := members k s ∖ {[x]}]> (sets s)) s).
Proof. intros H. unfold srem. by rewrite call_nofault. Qed.

Lemma getArray_nofault (k : string) (s : Storage) :
  faults s = [] -> getArray k s = Ok (elements (members k s)) s.
Proof. intros H. unfold getArray. by rewrite call_nofault. Qed.

(** Removing the mirrored pair of the edge from [a] to [c] takes exactly
    these two entries out of the set store. *)
Lemma members_unlink (a c : string) (s s1 s2 : Storage) (k x : string) :
  sets s1 = <[childs_key a := members (childs_key a) s ∖ {[c]}]> (sets s) ->
  sets s2 = <[parents_key c := members (parents_key c) s1 ∖ {[a]}]> (sets s1) ->
  x ∈ members k s2 ↔
  x ∈ members k s ∧
  ¬ ((k = childs_key a ∧ x = c) ∨ (k = parents_key c ∧ x = a)).
Proof.
  intros E1 E2.
  rewrite (members_after_srem _ _ k _ _ E2).
  rewrite (members_after_srem _ _ (parents_key c) _ _ E1).
  rewrite (members_after_srem _ _ k _ _ E1).
  pose proof (childs_parents_ne a c) as Hne.
  repeat case_decide; subst; try congruence; set_solver.
Qed.

Lemma mirrored_unlink (a c : string) (s s1 s2 : Storage) :
  sets s1 = <[childs_key a := members (childs_key a) s ∖ {[c]}]> (sets s) ->
  sets s2 = <[parents_key c := members (parents_key c) s1 ∖ {[a]}]> (sets s1) ->
  mirrored s -> mirrored s2.
Proof.
  intros E1 E2 Hm p c'. unfold children, parents.
  rewrite !(members_unlink a c s s1 s2) by done.
  specialize (Hm p c'). unfold children, parents in Hm.
  pose proof (childs_parents_ne p c) as N1.
  pose proof (childs_parents_ne a c') as N2.
  split; intros [Hin Hno]; (split; [tauto|]); intros [[Hk Hx]|[Hk Hx]];
    try congruence; apply Hno.
  - apply parents_key_inj in Hk. subst. by left.
  - apply childs_key_inj in Hk. subst. by right.
Qed.

Lemma remove_children_mirrored recur (a : string) :
  (∀ c s s', recur c s = Some (Ok tt s') -> mirrored s -> mirrored s') ->
  ∀ l s s', remove_children recur a l s = Some (Ok tt s') ->
            mirrored s -> mirrored s'.
Proof.
  intros Hrec l. induction l as [|child rest IH]; intros s s' H Hm; simpl in H.
  { by simplify_eq. }
  destruct (srem_cases (childs_key a) child s)
    as [(s1 & E & _)|(s1 & E & E1 & _)]; rewrite E in H; [done|].
  destruct (srem_cases (parents_key child) a s1)
    as [(s2 & E' & _)|(s2 & E' & E2 & _)]; rewrite E' in H; [done|].
  destruct (recur child s2) as [[[] s3|e s3]|] eqn:Hr; [|done..].
  eapply IH; [done|]. eapply Hrec; [done|].
  by eapply mirrored_unlink.
Qed.

Lemma recurRemoveAssociation_mirrored (fuel : nat) :
  ∀ a s s', recurRemoveAssociation fuel a s = Some (Ok tt s') ->
            mirrored s -> mirrored s'.
Proof.
  induction fuel as [|fuel IH]; intros a s s' H Hm; simpl in H; [done|].
  destruct (getArray_cases (childs_key a) s)
    as [(s1 & E & _)|(s1 & E & E1 & _)]; rewrite E in H; [done|].
  eapply remove_children_mirrored; [exact IH|exact H|].
  intros p c. unfold children, parents.
  rewrite !(members_same_sets _ _ _ E1). apply Hm.
Qed.

Lemma recurRemoveAssociation_leaf (fuel : nat) (c : string) (s : Storage) :
  faults s = [] -> children s c = ∅ ->
  recurRemoveAssociation (S fuel) c s = Some (Ok tt s).
Proof.
  intros Hf Hc. simpl. rewrite getArray_nofault by done.
  fold (children s c). by rewrite Hc, elements_empty.
Qed.

(** Children without children of their own: the loop removes the pair of
    each, and the recursive call on each returns at once. *)
Lemma remove_children_leaves (fuel : nat) (a : string) :
  ∀ l s, faults s = [] ->
    (∀ c, c ∈ l -> children s c = ∅) ->
    ∃ s', remove_children (recurRemoveAssociation (S fuel)) a l s = Some (Ok tt s') ∧
          faults s' = [] ∧
          ∀ k x, x ∈ members k s' ↔
                 x ∈ members k s ∧
                 ¬ ((k = childs_key a ∧ x ∈ l) ∨
                    (x = a ∧ ∃ c, c ∈ l ∧ k = parents_key c)).
Proof.
  intros l. induction l as [|child rest IH]; intros s Hf Hleaf.
  { exists s. split; [done|]. split; [done|]. intros k x.
    split; [|tauto]. intros Hx. split; [done|].
    intros [[_ H]|[_ (c & H & _)]]; by apply not_elem_of_nil in H. }
  cbn [remove_children]. rewrite srem_nofault by done.
  set (s1 := with_sets _ s). rewrite (srem_nofault _ _ s1) by done.
  set (s2 := with_sets _ s1).
  assert (Hu : ∀ k x, x ∈ members k s2 ↔ x ∈ members k s ∧
              ¬ ((k = childs_key a ∧ x = child) ∨ (k = parents_key child ∧ x = a)))
    by (intros k x; by apply (members_unlink a child s s1 s2)).
  assert (Hleaf2 : ∀ c, c ∈ child :: rest -> children s2 c = ∅).
  { intros c Hc. apply set_eq. intros x. unfold children. rewrite Hu.
    specialize (Hleaf c Hc). unfold children in Hleaf. rewrite Hleaf. set_solver. }
  rewrite (recurRemoveAssociation_leaf fuel child s2);
    [|done|apply Hleaf2, list_elem_of_here].
  destruct (IH s2) as (s' & -> & Hf' & Hmem); [done| |].
  { intros c Hc. apply Hleaf2. by apply list_elem_of_further. }
  exists s'. split; [done|]. split; [done|]. intros k x.
  rewrite Hmem, Hu. split.
  - intros [[Hin N1] N2]. split; [done|].
    intros [[Hk Hx]|[Hx (c & Hc & Hk)]].
    + apply elem_of_cons in Hx as [Hx|Hx]; [apply N1|apply N2]; auto.
    + apply elem_of_cons in Hc as [Hc|Hc]; [apply N1|apply N2]; subst; eauto.
  - intros [Hin N]. split; [split; [done|]|].
    + intros [[Hk Hx]|[Hk Hx]]; apply N; subst.
      * left. split; [done|]. apply list_elem_of_here.
      * right. split; [done|]. exists child. split; [apply list_elem_of_here|done].
    + intros [[Hk Hx]|[Hx (c & Hc & Hk)]]; apply N.
      * left. split; [done|]. by apply list_elem_of_further.
      * right. split; [done|]. exists c. split; [by apply list_elem_of_further|done].
Qed.

Lemma recurRemoveAssociation_unfold (fuel : nat) (a : string) (s : Storage) :
  recurRemoveAssociation (S fuel) a s =
  match getArray (childs_key a) s with
  | Throw e s1 => Some (Throw e s1)
  | Ok childAssocs s1 =>
      remove_children (recurRemoveAssociation fuel) a childAssocs s1
  end.
Proof. done. Qed.

(** C4. removeAssociation(A, B), B having the children C and D and these
    having none: the call returns, A has no child B, B has no children, C and
    D have no parent B, and the set store has lost exactly the pair of A-B
    and the two pairs of B-C and B-D. *)
Theorem removeAssociation_cascade (fuel : nat) (tx : Transaction)
    (C D : string) (s : Storage) :
  faults s = [] ->
  children s (party tx) = {[C; D]} ->
  children s C = ∅ ->
  children s D = ∅ ->
  ∃ s', removeAssociation (S (S fuel)) tx s = Some (Ok tt s') ∧
        (party tx ∉ children s' (sender tx)) ∧
        children s' (party tx) = ∅ ∧
        (party tx ∉ parents s' C) ∧
        (party tx ∉ parents s' D) ∧
        ∀ k x, x ∈ members k s' ↔
               x ∈ members k s ∧
               ¬ ((k = childs_key (sender tx) ∧ x = party tx) ∨
                  (k = parents_key (party tx) ∧ x = sender tx) ∨
                  (k = childs_key (party tx) ∧ (x = C ∨ x = D)) ∨
                  (x = party tx ∧ (k = parents_key C ∨ k = parents_key D))).
Proof.
  destruct tx as [i t A B da an]. cbn [sender party]. intros Hf HB HC HD.
  unfold removeAssociation. cbn [sender party].
  rewrite srem_nofault by done. set (s1 := with_sets _ s).
  rewrite (srem_nofault _ _ s1) by done. set (s2 := with_sets _ s1).
  assert (Hu : ∀ k x, x ∈ members k s2 ↔ x ∈ members k s ∧
              ¬ ((k = childs_key A ∧ x = B) ∨ (k = parents_key B ∧ x = A)))
    by (intros k x; by apply (members_unlink A B s s1 s2)).
  assert (HBne : B ≠ C ∧ B ≠ D).
  { split; intros ->; [rewrite HC in HB|rewrite HD in HB]; set_solver. }
  assert (Hl : ∀ x, x ∈ elements (children s2 B) ↔ x = C ∨ x = D).
  { intros x. rewrite elem_of_elements. unfold children at 1. rewrite Hu.
    fold (children s B). rewrite HB.
    pose proof (childs_parents_ne B B). set_solver. }
  rewrite recurRemoveAssociation_unfold, (getArray_nofault _ s2) by done.
  fold (children s2 B).
  destruct (remove_children_leaves fuel B (elements (children s2 B)) s2)
    as (s' & -> & _ & Hmem); [done| |].
  { intros c Hc. apply Hl in Hc. apply set_eq. intros x.
    unfold children. rewrite Hu. fold (children s c).
    destruct Hc as [->| ->]; [rewrite HC|rewrite HD]; set_solver. }
  assert (Hall : ∀ k x, x ∈ members k s' ↔
               x ∈ members k s ∧
               ¬ ((k = childs_key A ∧ x = B) ∨
                  (k = parents_key B ∧ x = A) ∨
                  (k = childs_key B ∧ (x = C ∨ x = D)) ∨
                  (x = B ∧ (k = parents_key C ∨ k = parents_key D)))).
  { intros k x. rewrite Hmem, Hu. rewrite Hl. split.
    - intros [[Hin N1] N2]. split; [done|].
      intros [H|[H|[H|[Hx [Hk|Hk]]]]]; [tauto|tauto|tauto| |]; apply N2; right;
        (split; [done|]); [exists C|exists D]; (split; [|done]); apply Hl; auto.
    - intros [Hin N]. split; [split; [done|tauto]|].
      intros [H|[Hx (c & Hc & Hk)]]; [tauto|].
      apply Hl in Hc. apply N. do 3 right. split; [done|].
      destruct Hc as [->| ->]; auto. }
  exists s'. split; [done|]. unfold children, parents.
  split; [|split; [|split; [|split; [|exact Hall]]]].
  - rewrite Hall. tauto.
  - apply set_eq. intros x. rewrite Hall. fold (children s B). rewrite HB.
    set_solver.
  - rewrite Hall. tauto.
  - rewrite Hall. tauto.
Qed.

(** C5. The mirror-edge invariant is kept by every association operation
    that completes: saveAssociation, removeAssociation and the recursive
    cascade. *)
Theorem mirror_edge_invariant (s : Storage) :
  mirrored s ->
  (∀ tx s', saveAssociation tx s = Ok tt s' -> mirrored s') ∧
  (∀ fuel tx s', removeAssociation fuel tx s = Some (Ok tt s') -> mirrored s') ∧
  (∀ fuel a s', recurRemoveAssociation fuel a s = Some (Ok tt s') -> mirrored s').
Proof.
  intros Hm. split; [|split].
  - intros tx s' H. unfold saveAssociation, bind in H.
    destruct (sadd_cases (childs_key (sender tx)) (party tx) s)
      as [(s1 & E & _)|(s1 & E & E1 & _)]; rewrite E in H; [done|].
    destruct (sadd_cases (parents_key (party tx)) (sender tx) s1)
      as [(s2 & E' & _)|(s2 & E' & E2 & _)]; rewrite E' in H; [done|].
    unfold ret in H. simplify_eq. intros p c. unfold children, parents.
    rewrite (members_after_sadd _ _ (childs_key p) _ _ E2).
    rewrite (members_after_sadd _ _ (parents_key c) _ _ E2).
    rewrite (members_after_sadd _ _ (childs_key p) _ _ E1).
    rewrite (members_after_sadd _ _ (parents_key c) _ _ E1).
    rewrite (members_after_sadd _ _ (parents_key (party tx)) _ _ E1).
    specialize (Hm p c). unfold children, parents in Hm.
    pose proof (childs_parents_ne p (party tx)).
    pose proof (childs_parents_ne (sender tx) c).
    pose proof (childs_parents_ne (sender tx) (party tx)).
    repeat case_decide; try congruence;
      repeat match goal with
             | H : childs_key _ = childs_key _ |- _ => apply childs_key_inj in H
             | H : parents_key _ = parents_key _ |- _ => apply parents_key_inj in H
             | H : childs_key _ ≠ childs_key _ |- _ =>
                 apply (not_inj (f := childs_key)) in H
             | H : parents_key _ ≠ parents_key _ |- _ =>
                 apply (not_inj (f := parents_key)) in H
             end; subst; set_solver.
  - intros fuel tx s' H. unfold removeAssociation in H.
    destruct (srem_cases (childs_key (sender tx)) (party tx) s)
      as [(s1 & E & _)|(s1 & E & E1 & _)]; rewrite E in H; [done|].
    destruct (srem_cases (parents_key (party tx)) (sender tx) s1)
      as [(s2 & E' & _)|(s2 & E' & E2 & _)]; rewrite E' in H; [done|].
    eapply recurRemoveAssociation_mirrored; [exact H|].
    by eapply mirrored_unlink.
  - intros fuel a s' H. by eapply recurRemoveAssociation_mirrored.
Qed.

(** C6, as amended. removeAssociation and the cascade terminate on every
    association graph, cyclic or not: fuel beyond the number of entries in
    the set store always suffices, since each recursive call follows an edge
    that has just been removed and no edge is ever added. *)
Theorem removeAssociation_terminates (tx : Transaction) (s : Storage) :
  (∃ o, removeAssociation (S (graph_size s)) tx s = Some o) ∧
  (∀ a, ∃ o, recurRemoveAssociation (S (graph_size s)) a s = Some o).
Proof.
  split.
  - unfold removeAssociation.
    destruct (srem_cases (childs_key (sender tx)) (party tx) s)
      as [(s1 & -> & _)|(s1 & -> & E1 & _)]; [eauto|].
    destruct (srem_cases (parents_key (party tx)) (sender tx) s1)
      as [(s2 & -> & _)|(s2 & -> & E2 & _)]; [eauto|].
    destruct (weight_srem _ _ _ _ E1) as [H1 _].
    destruct (weight_srem _ _ _ _ E2) as [H2 _].
    destruct (recurRemoveAssociation_ends (S (graph_size s)) (party tx) s2)
      as (o & Ho & _); [unfold graph_size; lia|eauto].
  - intros a.
    destruct (recurRemoveAssociation_ends (S (graph_size s)) a s)
      as (o & Ho & _); [lia|eauto].
Qed.

Lemma removeAssociation_cascade_witness :
  faults family = [] ∧
  children family "B" = {["C"; "D"]} ∧
  children family "C" = ∅ ∧
  children family "D" = ∅ ∧
  ∃ s', removeAssociation 2 revoke_A_B family = Some (Ok tt s') ∧
        children s' "B" = ∅.
Proof.
  assert (H1 : faults family = []) by reflexivity.
  assert (H2 : children family "B" = {["C"; "D"]}) by (vm_compute; reflexivity).
  assert (H3 : children family "C" = ∅) by (vm_compute; reflexivity).
  assert (H4 : children family "D" = ∅) by (vm_compute; reflexivity).
  repeat (split; [assumption|]).
  destruct (removeAssociation_cascade 0 revoke_A_B "C" "D" family H1 H2 H3 H4)
    as (s' & Hrun & _ & Hempty & _).
  exists s'. split; [exact Hrun|exact Hempty].
Defined.

Lemma mirrored_empty : mirrored empty_storage.
Proof. intros p c. unfold children, parents, members. simpl. by rewrite !lookup_empty. Qed.

Lemma mirror_edge_invariant_witness :
  mirrored empty_storage ∧
  ∃ s', saveAssociation issue_A_B empty_storage = Ok tt s' ∧ mirrored s'.
Proof.
  split; [exact mirrored_empty|].
  eexists. split; [reflexivity|].
  apply (proj1 (mirror_edge_invariant empty_storage mirrored_empty) issue_A_B).
  reflexivity.
Defined.

(** C6, as stated, fails: termination does not hang on acyclicity. The
    graph [ring] has the cycle B, C, B, which the removal of A-B leaves in
    place, and removeAssociation returns on it, as does the cascade from B. *)
Lemma removeAssociation_returns_on_cycle :
  ¬ acyclic ring ∧
  descends (final (srem (parents_key "B") "A"
                     (final (srem (childs_key "A") "B" ring)))) "B" "B" ∧
  (∃ s', removeAssociation 3 revoke_A_B ring = Some (Ok tt s')) ∧
  (∃ s', recurRemoveAssociation 3 "B" ring = Some (Ok tt s')).
Proof.
  assert (Hcycle : ∀ s, "C" ∈ children s "B" -> "B" ∈ children s "C" ->
                        descends s "B" "B")
    by (intros s H1 H2; apply tc_l with "C"; [|apply tc_once]; done).
  split; [|split; [|split]].
  - intros H. apply (H "B"). apply Hcycle; by vm_compute.
  - apply Hcycle; by vm_compute.
  - eexists. vm_compute. reflexivity.
  - eexists. vm_compute. reflexivity.
Qed.

End Associations.

(** ** The anchor index *)

Section Anchors.
Import Backend StorageService.

Lemma lower_ascii_idem (c : ascii) :
  Js.lower_ascii (Js.lower_ascii c) = Js.lower_ascii c.
Proof. destruct c as [[] [] [] [] [] [] [] []]; reflexivity. Qed.

Lemma toLowerCase_idem (h : string) :
  Js.toLowerCase (Js.toLowerCase h) = Js.toLowerCase h.
Proof.
  induction h as [|c h IH]; simpl; [done|]. by rewrite lower_ascii_idem, IH.
Qed.

Lemma anchor_key_lower (h : string) : anchor_key (Js.toLowerCase h) = anchor_key h.
Proof. unfold anchor_key. by rewrite toLowerCase_idem. Qed.

Lemma getObject_Ok (k : string) (s s' : Storage) (d : document) :
  getObject k s = Ok d s' -> d = read_object k s' ∧ objects s' = objects s.
Proof.
  intros H. destruct (call_cases (fun s => (read_object k s, s)) s) as [E|E];
    unfold getObject in H; rewrite E in H; [done|]. by simplify_eq.
Qed.

(** What a completed [saveAnchor] leaves in the anchor records. *)
Lemma saveAnchor_Ok (h t : string) (s s' : Storage) :
  saveAnchor h t s = Ok tt s' ->
  ∀ h', anchor_entries s' h' =
        if decide (anchor_key h' = anchor_key h)
        then {[t]} ∪ anchor_entries s h' else anchor_entries s h'.
Proof.
  intros H h'. unfold saveAnchor, addObject in H.
  match type of H with call ?op _ = _ =>
    destruct (call_cases op s) as [E|E]; rewrite E in H; [done|] end.
  simplify_eq. unfold anchor_entries, read_object. simpl.
  case_decide as Hk.
  - rewrite Hk, lookup_insert_eq. done.
  - by rewrite lookup_insert_ne.
Qed.

(** C10. Anchors are stored and looked up under the lower-cased hash:
    [getAnchor] and [saveAnchor] are insensitive to the casing of the hash,
    and an id saved under one casing is found under every other. *)
Theorem anchor_case_insensitive (h t : string) (s : Storage) :
  anchor_key h = "lto:anchor:" +:+ Js.toLowerCase h ∧
  getAnchor h s = getAnchor (Js.toLowerCase h) s ∧
  saveAnchor h t s = saveAnchor (Js.toLowerCase h) t s ∧
  ∀ h' s1 d s2,
    Js.toLowerCase h' = Js.toLowerCase h ->
    saveAnchor h t s = Ok tt s1 ->
    getAnchor h' s1 = Ok d s2 ->
    t ∈ entries_of d.
Proof.
  split; [done|]. unfold getAnchor, saveAnchor. rewrite anchor_key_lower.
  split; [done|]. split; [done|].
  intros h' s1 d s2 Hh Hsave Hget.
  apply getObject_Ok in Hget as [-> Hobj].
  pose proof (saveAnchor_Ok h t s s1 Hsave h') as Hs.
  unfold anchor_entries, read_object in *. rewrite Hobj, Hs.
  rewrite decide_True; [set_solver|]. unfold anchor_key. by rewrite Hh.
Qed.

Lemma anchor_case_insensitive_witness :
  Js.toLowerCase "abcDEF09" = Js.toLowerCase "ABCdef09" ∧
  saveAnchor "ABCdef09" "tx-12" empty_storage =
    Ok tt (final (saveAnchor "ABCdef09" "tx-12" empty_storage)) ∧
  getAnchor "abcDEF09" (final (saveAnchor "ABCdef09" "tx-12" empty_storage)) =
    Ok (Entries {["tx-12"]}) (final (saveAnchor "ABCdef09" "tx-12" empty_storage)) ∧
  "tx-12" ∈ entries_of (Entries {["tx-12"]}).
Proof.
  assert (H1 : Js.toLowerCase "abcDEF09" = Js.toLowerCase "ABCdef09") by reflexivity.
  assert (H2 : saveAnchor "ABCdef09" "tx-12" empty_storage =
    Ok tt (final (saveAnchor "ABCdef09" "tx-12" empty_storage))) by reflexivity.
  assert (H3 : getAnchor "abcDEF09" (final (saveAnchor "ABCdef09" "tx-12" empty_storage)) =
    Ok (Entries {["tx-12"]}) (final (saveAnchor "ABCdef09" "tx-12" empty_storage)))
    by (vm_compute; reflexivity).
  repeat (split; [assumption|]).
  exact (proj2 (proj2 (proj2 (anchor_case_insensitive "ABCdef09" "tx-12" empty_storage)))
           "abcDEF09" _ _ _ H1 H2 H3).
Defined.

End Anchors.

(** ** Transactions in the monitor *)

Section Transactions.
Import Backend StorageService AnchorMonitorService.

Context {Buffer : Type}.
Variable hexEncode : Buffer -> string.
Variable base64Decode : string -> Buffer.
Variable base58Decode : string -> Buffer.
Variable index : Transaction -> M Storage unit.

Local Abbreviation processTransaction :=
  (processTransaction hexEncode base64Decode base58Decode index).
Local Abbreviation legacy_item := (legacy_item hexEncode base64Decode).

Lemma replace_prefix (b64 : string) : Js.replace "base64:" "" ("base64:" +:+ b64) = b64.
Proof. done. Qed.

Lemma saveAnchor_nofault (h t : string) (s : Storage) :
  faults s = [] -> ∃ s', saveAnchor h t s = Ok tt s' ∧ faults s' = [].
Proof.
  intros H. unfold saveAnchor, addObject. rewrite call_nofault by done.
  eexists. split; [done|]. done.
Qed.

Lemma await_saveAnchor_Ok (h t : string) (m m' : Monitor) :
  await_saveAnchor h t m = Ok tt m' ->
  saveAnchor h t (storage m) = Ok tt (storage m') ∧
  calls m' = calls m ++ [SaveAnchor h t] ∧
  inflight m' = inflight m.
Proof.
  unfold await_saveAnchor, bind, on_storage, note. intros H.
  destruct (saveAnchor h t (storage m)) as [[] st|e st]; [|done].
  by simplify_eq.
Qed.

(** A saved anchor stays saved, and a noted call stays noted, over the
    rest of the items. *)
Lemma legacy_item_keeps (tx : Transaction) (item : DataItem) (m m' : Monitor)
    (h t : string) :
  legacy_item tx item m = Ok tt m' ->
  (t ∈ anchor_entries (storage m) h -> t ∈ anchor_entries (storage m') h) ∧
  (SaveAnchor h t ∈ calls m -> SaveAnchor h t ∈ calls m').
Proof.
  unfold legacy_item. case_decide; [|unfold ret; intros; by simplify_eq].
  intros H'. apply await_saveAnchor_Ok in H' as (Hs & Hc & _).
  rewrite Hc, (saveAnchor_Ok _ _ _ _ Hs h). split.
  - case_decide; set_solver.
  - intros ?. apply elem_of_app. by left.
Qed.

Lemma legacy_items_keep (tx : Transaction) (h t : string) :
  ∀ items m m',
    for_of items (legacy_item tx) m = Ok tt m' ->
    (t ∈ anchor_entries (storage m) h -> t ∈ anchor_entries (storage m') h) ∧
    (SaveAnchor h t ∈ calls m -> SaveAnchor h t ∈ calls m').
Proof.
  intros items. induction items as [|item items IH]; intros m m' H; simpl in H.
  { unfold ret in H. by simplify_eq. }
  unfold bind in H. destruct (legacy_item tx item m) as [[] m1|e m1] eqn:E; [|done].
  destruct (legacy_item_keeps tx item m m1 h t E), (IH m1 m' H). split; auto.
Qed.

Lemma legacy_items_record (tx : Transaction) (b64 : string) :
  ∀ items m m',
    {| item_key := anchorToken; item_value := "base64:" +:+ b64 |} ∈ items ->
    for_of items (legacy_item tx) m = Ok tt m' ->
    id tx ∈ anchor_entries (storage m') (hexEncode (base64Decode b64)) ∧
    SaveAnchor (hexEncode (base64Decode b64)) (id tx) ∈ calls m'.
Proof.
  intros items. induction items as [|item items IH]; intros m m' Hin H.
  { by apply not_elem_of_nil in Hin. }
  simpl in H. unfold bind in H.
  destruct (legacy_item tx item m) as [[] m1|e m1] eqn:E; [|done].
  apply elem_of_cons in Hin as [<-|Hin]; [|by eapply IH].
  destruct (legacy_items_keep tx (hexEncode (base64Decode b64)) (id tx) items m1 m' H)
    as [K1 K2].
  split; [apply K1|apply K2].
  - unfold legacy_item in E. cbn [item_key item_value] in E.
    rewrite decide_True, replace_prefix in E by done.
    apply await_saveAnchor_Ok in E as (Hs & _).
    rewrite (saveAnchor_Ok _ _ _ _ Hs). rewrite decide_True by done. set_solver.
  - unfold legacy_item in E. cbn [item_key item_value] in E.
    rewrite decide_True, replace_prefix in E by done.
    apply await_saveAnchor_Ok in E as (_ & -> & _).
    apply elem_of_app. right. apply list_elem_of_here.
Qed.

Lemma legacy_items_nofault (tx : Transaction) :
  ∀ items m, faults (storage m) = [] ->
    ∃ m', for_of items (legacy_item tx) m = Ok tt m' ∧ faults (storage m') = [].
Proof.
  intros items. induction items as [|item items IH]; intros m Hf; simpl.
  { by exists m. }
  unfold bind. unfold legacy_item at 1. case_decide.
  - unfold await_saveAnchor, bind, on_storage.
    destruct (saveAnchor_nofault
      (hexEncode (base64Decode (Js.replace "base64:" "" (item_value item))))
      (id tx) (storage m) Hf) as (st & -> & Hf').
    simpl. apply IH. done.
  - unfold ret. by apply IH.
Qed.

(** processTransaction on a legacy anchor transaction that carries data. *)
Lemma processTransaction_legacy (tx : Transaction) (items : list DataItem) (m : Monitor) :
  type tx = 12 -> data tx = Some items ->
  processTransaction tx m =
  match index tx (storage m) with
  | Ok _ st =>
      (await _ := note (Index (id tx)) in for_of items (legacy_item tx))
        (with_storage st m)
  | Throw e st => Throw e (with_storage st m)
  end.
Proof.
  intros Ht Hd. unfold AnchorMonitorService.processTransaction, bind at 1, on_storage.
  destruct (index tx (storage m)) as [[] st|e st]; [|done].
  unfold bind. simpl. rewrite Ht, Hd. done.
Qed.

(** C8. A type-12 transaction with a legacy item whose key is the anchor
    marker and whose value is "base64:<b64>": once processed, the anchor
    record of hexEncode(base64Decode(<b64>)) holds the transaction's id,
    saveAnchor having been called with that very hash; and it is processed
    whenever the indexer succeeds and the storage does not fail. *)
Theorem legacy_anchor_recorded (tx : Transaction) (items : list DataItem)
    (b64 : string) (m : Monitor) :
  type tx = 12 ->
  data tx = Some items ->
  {| item_key := anchorToken; item_value := "base64:" +:+ b64 |} ∈ items ->
  (∀ m', processTransaction tx m = Ok tt m' ->
         id tx ∈ anchor_entries (storage m') (hexEncode (base64Decode b64)) ∧
         SaveAnchor (hexEncode (base64Decode b64)) (id tx) ∈ calls m') ∧
  (∀ st, index tx (storage m) = Ok tt st -> faults st = [] ->
         ∃ m', processTransaction tx m = Ok tt m').
Proof.
  intros Ht Hd Hin. rewrite (processTransaction_legacy tx items m Ht Hd). split.
  - intros m' H. destruct (index tx (storage m)) as [[] st|e st]; [|done].
    unfold bind, note in H. by eapply legacy_items_record.
  - intros st -> Hf. unfold bind, note.
    edestruct (legacy_items_nofault tx items) as (m' & -> & _); [|by eauto]. done.
Qed.

(** processTransaction on a native anchor transaction: the indexer is
    awaited; the anchors are handed to saveAnchor and nothing waits for them. *)
Lemma processTransaction_native (tx : Transaction) (l : list string) (m : Monitor)
    (st : Storage) :
  type tx = 15 -> anchors tx = Some l ->
  index tx (storage m) = Ok tt st ->
  processTransaction tx m =
  Ok tt {| processing := processing m; lastBlock := lastBlock m; storage := st;
           inflight := inflight m ++
                       map (fun anchor => (hexEncode (base58Decode anchor), id tx)) l;
           calls := calls m ++ [Index (id tx)] |}.
Proof.
  intros Ht Ha Hi. unfold AnchorMonitorService.processTransaction, bind at 1, on_storage.
  rewrite Hi. unfold bind. simpl. rewrite Ht, Ha. simpl. f_equal. clear Ha.
  generalize (calls m ++ [Index (id tx)]). generalize (inflight m).
  induction l as [|a l IH]; intros fl cs; simpl.
  - unfold with_storage. simpl. by rewrite app_nil_r.
  - unfold native_anchor_callback at 2, detached_saveAnchor, with_storage. simpl.
    specialize (IH (fl ++ [(hexEncode (base58Decode a), id tx)]) cs).
    unfold with_storage in IH. simpl in IH.
    rewrite <- (assoc (++)) in IH. simpl in IH. rewrite <- IH. done.
Qed.

End Transactions.

Section TransactionsAtSamples.
Import Backend StorageService AnchorMonitorService.

Lemma legacy_anchor_recorded_witness :
  type legacy_anchor = 12 ∧
  data legacy_anchor =
    Some [ {| item_key := "note"; item_value := "base64:aGk=" |};
           {| item_key := anchorToken; item_value := "base64:" +:+ "3q2+7w==" |} ] ∧
  ∃ m', processTransaction plain_encode plain_decode plain_decode silent_index
          legacy_anchor (idle_monitor empty_storage 0) = Ok tt m' ∧
        "tx-12" ∈ anchor_entries (storage m') "3q2+7w==" ∧
        SaveAnchor "3q2+7w==" "tx-12" ∈ calls m'.
Proof.
  assert (H1 : type legacy_anchor = 12) by reflexivity.
  assert (H2 : data legacy_anchor =
    Some [ {| item_key := "note"; item_value := "base64:aGk=" |};
           {| item_key := anchorToken; item_value := "base64:" +:+ "3q2+7w==" |} ])
    by reflexivity.
  assert (H3 : {| item_key := anchorToken; item_value := "base64:" +:+ "3q2+7w==" |}
               ∈ [ {| item_key := "note"; item_value := "base64:aGk=" |};
                   {| item_key := anchorToken; item_value := "base64:" +:+ "3q2+7w==" |} ])
    by (apply list_elem_of_further, list_elem_of_here).
  repeat (split; [assumption|]).
  destruct (legacy_anchor_recorded plain_encode plain_decode plain_decode silent_index
              legacy_anchor _ "3q2+7w==" (idle_monitor empty_storage 0) H1 H2 H3)
    as [Hrec Hrun].
  destruct (Hrun empty_storage) as [m' Hm']; [reflexivity..|].
  exists m'. split; [exact Hm'|]. exact (Hrec m' Hm').
Defined.

(** C2 fails on the code. For the native anchor transaction [native_anchor],
    whatever the encoder and the state of the monitor: processTransaction
    finishes with the storage as the indexer left it (here untouched) and
    with the call to saveAnchor in flight; no write of the anchor has
    completed, and none is among the awaited calls. *)
Theorem native_anchor_write_in_flight {Buffer : Type} (hexEncode : Buffer -> string)
    (base64Decode base58Decode : string -> Buffer) (m : Monitor) :
  ∃ m', processTransaction hexEncode base64Decode base58Decode silent_index
          native_anchor m = Ok tt m' ∧
        storage m' = storage m ∧
        inflight m' = inflight m ++ [(hexEncode (base58Decode "3yZe7d"), "tx-15")] ∧
        calls m' = calls m ++ [Index "tx-15"].
Proof.
  eexists. split.
  - apply (processTransaction_native hexEncode base64Decode base58Decode silent_index
             native_anchor ["3yZe7d"] m (storage m)); reflexivity.
  - done.
Qed.

End TransactionsAtSamples.

(** ** The trust role resolver *)

Section Roles.
Import Backend StorageService.

(** Pushing what is not yet held, element by element, appends the list
    without its repetitions and without what the accumulator holds. *)
Lemma push_dedup {A K} `{EqDecision K} (key : A -> K) (l : list A) :
  ∀ acc,
    foldl (fun acc x =>
             if not_found (fun each => bool_decide (key each = key x)) acc
             then acc ++ [x] else acc) acc l =
    acc ++ filter (fun y => key y ∉ key <$> acc) (dedup_by key l).
Proof.
  induction l as [|x l IH]; intros acc; simpl.
  { by rewrite app_nil_r. }
  assert (Hfound : not_found (fun each => bool_decide (key each = key x)) acc = true
                   ↔ key x ∉ key <$> acc).
  { unfold not_found. rewrite negb_true_iff, <- not_true_iff_false, existsb_exists.
    rewrite list_elem_of_fmap. split.
    - intros Hn (y & Hy & Hin). apply Hn. exists y.
      split; [by apply list_elem_of_In|]. by apply bool_decide_eq_true.
    - intros Hn (y & Hin & Hy). apply Hn. exists y.
      apply bool_decide_eq_true in Hy. split; [done|]. by apply list_elem_of_In. }
  rewrite IH. destruct (not_found _ acc) eqn:E.
  - assert (Hx : key x ∉ key <$> acc) by (by apply Hfound).
    rewrite filter_cons_True by done. rewrite <- (assoc (++)). simpl. do 2 f_equal.
    rewrite list_filter_filter. apply list_filter_iff. intros y.
    rewrite fmap_app, elem_of_app. simpl. rewrite list_elem_of_singleton. tauto.
  - assert (Hx : ¬ (key x ∉ key <$> acc)) by (rewrite <- Hfound; congruence).
    rewrite filter_cons_False by done. f_equal.
    rewrite list_filter_filter. apply list_filter_iff. intros y.
    split; [|tauto]. intros Hy. split; [done|]. intros Heq. apply Hx. by rewrite <- Heq.
Qed.

Lemma filter_all {A} (P : A -> Prop) `{∀ x, Decision (P x)} (l : list A) :
  (∀ x, P x) -> filter P l = l.
Proof.
  intros HP. induction l as [|x l IH]; [done|].
  rewrite filter_cons_True by done. by rewrite IH.
Qed.

Lemma push_issues_app (acc : list Role) (each : option (list Role)) (l : list Role) :
  push_issues (push_issues acc each) (Some l) =
  push_issues acc (Some (default [] each ++ l)).
Proof. destruct each as [l0|]; simpl; [by rewrite foldl_app|done]. Qed.

Lemma push_authorization_app (acc : list string) (each : option (list string))
    (l : list string) :
  push_authorization (push_authorization acc each) (Some l) =
  push_authorization acc (Some (default [] each ++ l)).
Proof. destruct each as [l0|]; simpl; [by rewrite foldl_app|done]. Qed.

(** The loop over the assigned role names, from any accumulator. *)
Lemma foldl_roles_step (table : gmap string RoleConfig) (assigned : list string) :
  ∀ result,
    foldl (roles_step table) result assigned =
    let present := filter (fun name => is_Some (config_of table name)) assigned in
    let configs := omap (config_of table) present in
    {| roles := roles result ++ present;
       issues_roles :=
         push_issues (issues_roles result)
           (Some (configs ≫= fun config => default [] (issues config)));
       issues_authorization :=
         push_authorization (issues_authorization result)
           (Some (configs ≫= fun config => default [] (authorization config))) |}.
Proof.
  induction assigned as [|name assigned IH]; intros result.
  { destruct result. simpl. by rewrite app_nil_r. }
  cbn [foldl]. rewrite IH. cbv zeta. unfold roles_step.
  destruct (config_of table name) as [config|] eqn:E.
  - rewrite filter_cons_True by (by rewrite E). cbn [roles issues_roles issues_authorization].
    cbn [omap list_omap]. rewrite E. rewrite !bind_cons.
    rewrite push_issues_app, push_authorization_app. by rewrite <- (assoc (++)).
  - rewrite filter_cons_False; [done|]. rewrite E. by intros [? ?].
Qed.

(** A call that the connection does not fail runs its operation. *)
Lemma call_head {A} (op : Storage -> A * Storage) (s : Storage) :
  head (faults s) ≠ Some true ->
  call op s = Ok (op (with_faults (tail (faults s)) s)).1
                 (op (with_faults (tail (faults s)) s)).2.
Proof.
  intros Hf. unfold call. destruct (faults s) as [|[] fs]; simpl in *; try done;
    by destruct (op _).
Qed.

(** What [getTrustNetworkRoles] returns, on the names it reads. *)
Lemma getTrustNetworkRoles_Ok (table : gmap string RoleConfig) (address : string)
    (s s' : Storage) (r : RoleData) :
  getTrustNetworkRoles table address s = Ok r s' ->
  r = listed table (role_names s address).
Proof.
  unfold getTrustNetworkRoles, bind. intros H.
  destruct (getObject (roles_key address) s) as [document s1|e s1] eqn:Hget; [|done].
  apply getObject_Ok in Hget as [-> Hobj]. unfold ret in H. simplify_eq.
  unfold role_names, read_object. rewrite Hobj.
  rewrite foldl_roles_step. cbv zeta. unfold listed.
  cbn [roles issues_roles issues_authorization]. f_equal.
  - unfold push_issues. rewrite (push_dedup role). simpl.
    apply filter_all. intros y. apply not_elem_of_nil.
  - unfold push_authorization. rewrite (push_dedup (fun scope : string => scope)).
    simpl. apply filter_all. intros y. apply not_elem_of_nil.
Qed.

Lemma getTrustNetworkRoles_head (table : gmap string RoleConfig) (address : string)
    (s : Storage) :
  head (faults s) ≠ Some true ->
  ∃ s', getTrustNetworkRoles table address s =
        Ok (listed table (role_names s address)) s'.
Proof.
  intros Hf.
  destruct (getTrustNetworkRoles table address s) as [r s'|e s'] eqn:E.
  - exists s'. by rewrite (getTrustNetworkRoles_Ok _ _ _ _ _ E).
  - unfold getTrustNetworkRoles, bind, getObject in E. by rewrite call_head in E.
Qed.

(** C9. A role name that the table lacks, but that names a member of
    [Object.prototype] (toString, constructor, ...), is not ignored: assigned
    to an address, it is among the roles that getTrustNetworkRoles returns
    for it, where getRoles as the specification words it has no such role. *)
Theorem inherited_role_listed (table : gmap string RoleConfig) (address name : string)
    (s : Storage) :
  name ∈ Js.Object_prototype ->
  table !! name = None ->
  name ∈ role_names s address ->
  head (faults s) ≠ Some true ->
  ∃ r s', getTrustNetworkRoles table address s = Ok r s' ∧
          name ∈ roles r ∧
          name ∉ roles (getRoles table (role_names s address)).
Proof.
  intros Hproto Hnone Hin Hf.
  destruct (getTrustNetworkRoles_head table address s Hf) as [s' Hget].
  exists (listed table (role_names s address)), s'. split; [exact Hget|]. split.
  - unfold listed. cbn [roles]. apply list_elem_of_filter. split; [|exact Hin].
    unfold config_of. rewrite Hnone. by rewrite decide_True.
  - unfold getRoles. cbn [roles]. rewrite list_elem_of_filter, Hnone.
    intros [[? ?] _]. done.
Qed.

Lemma inherited_role_listed_witness :
  "toString"%string ∈ Js.Object_prototype ∧
  role_table !! "toString" = None ∧
  "toString"%string ∈ role_names granted_toString "3Jq" ∧
  head (faults granted_toString) ≠ Some true ∧
  ∃ r s', getTrustNetworkRoles role_table "3Jq" granted_toString = Ok r s' ∧
          "toString"%string ∈ roles r ∧
          "toString"%string ∉ roles (getRoles role_table (role_names granted_toString "3Jq")).
Proof.
  assert (H1 : "toString"%string ∈ Js.Object_prototype)
    by (apply list_elem_of_In; vm_compute; tauto).
  assert (H2 : role_table !! "toString" = None) by (vm_compute; reflexivity).
  assert (H3 : "toString"%string ∈ role_names granted_toString "3Jq")
    by (apply list_elem_of_In; vm_compute; tauto).
  assert (H4 : head (faults granted_toString) ≠ Some true)
    by (vm_compute; intros E; discriminate E).
  split; [exact H1|]. split; [exact H2|]. split; [exact H3|]. split; [exact H4|].
  exact (inherited_role_listed role_table "3Jq" "toString" granted_toString H1 H2 H3 H4).
Defined.

(** The address granted validator and ghost: the roles are validator alone,
    with what the table lets a validator issue. *)
Example getTrustNetworkRoles_validator_and_ghost :
  map fst (props_of (read_object (roles_key "3Jq") granted)) = ["validator"; "ghost"] ∧
  getTrustNetworkRoles role_table "3Jq" granted =
  Ok {| roles := ["validator"];
        issues_roles := [ {| role_type := 100; role := "node" |} ];
        issues_authorization := ["tx:anchor"] |} granted.
Proof. split; vm_compute; reflexivity. Qed.

(** The same address granted toString as well: toString is among its roles. *)
Example getTrustNetworkRoles_toString :
  role_names granted_toString "3Jq" = ["validator"; "ghost"; "toString"] ∧
  getTrustNetworkRoles role_table "3Jq" granted_toString =
  Ok {| roles := ["validator"; "toString"];
        issues_roles := [ {| role_type := 100; role := "node" |} ];
        issues_authorization := ["tx:anchor"] |} granted_toString.
Proof. split; vm_compute; reflexivity. Qed.

End Roles.

(** ** The calls of a scan pass *)

Section Traces.
Import Backend StorageService AnchorMonitorService.

Lemma traced_ret {A} (a : A) : traced (ret a) [].
Proof. intros m. simpl. by rewrite app_nil_r. Qed.

Lemma traced_bind {A B} (c : M Monitor A) (k : A -> M Monitor B) (i1 i2 : list Call) :
  traced c i1 -> (∀ a, traced (k a) i2) -> traced (bind c k) (i1 ++ i2).
Proof.
  intros Hc Hk m. unfold bind. specialize (Hc m).
  destruct (c m) as [a m1|e m1].
  - specialize (Hk a m1). destruct (k a m1) as [b m2|e m2].
    + by rewrite Hk, Hc, (assoc (++)).
    + destruct Hk as (t & Ht & ->). exists (i1 ++ t).
      split; [by apply prefix_app|]. by rewrite Hc, (assoc (++)).
  - destruct Hc as (t & Ht & ->). exists t. split; [by apply prefix_app_r|done].
Qed.

Lemma traced_on_storage {A} (c : M Storage A) : traced (on_storage c) [].
Proof.
  intros m. unfold on_storage. destruct (c (storage m)); simpl.
  - by rewrite app_nil_r.
  - exists []. by rewrite app_nil_r.
Qed.

Lemma traced_note (c : Call) : traced (note c) [c].
Proof. by intros m. Qed.

Lemma traced_set_processing (b : bool) : traced (set_processing b) [].
Proof. intros m. simpl. by rewrite app_nil_r. Qed.

(** After a call to the node the run goes on with the answer, or stops. *)
Lemma traced_on_node {A B} (r : Reply A) (k : A -> M Monitor B) (i : list Call) :
  (∀ a, r = Resolved a -> traced (k a) i) -> traced (bind (on_node r) k) i.
Proof.
  intros Hk m. unfold bind, on_node. destruct r as [a|e].
  - by apply Hk.
  - exists []. split; [apply prefix_nil|by rewrite app_nil_r].
Qed.

Lemma traced_for_of {A} (body : A -> M Monitor unit) (f : A -> list Call) (l : list A) :
  (∀ x, traced (body x) (f x)) -> traced (for_of l body) (l ≫= f).
Proof.
  intros Hb. induction l as [|x l IH]; cbn [for_of].
  - apply traced_ret.
  - rewrite bind_cons. apply traced_bind; [apply Hb|]. intros _. apply IH.
Qed.

Context {Buffer : Type}.
Variable hexEncode : Buffer -> string.
Variable base64Decode : string -> Buffer.
Variable base58Decode : string -> Buffer.
Variable node : NodeService.
Variable index : Transaction -> M Storage unit.

Local Abbreviation processTransaction' :=
  (processTransaction hexEncode base64Decode base58Decode index).
Local Abbreviation processBlock' :=
  (processBlock hexEncode base64Decode base58Decode index).
Local Abbreviation scan' := (scan hexEncode base64Decode base58Decode node index).
Local Abbreviation checkNewBlock' :=
  (checkNewBlock hexEncode base64Decode base58Decode node index).
Local Abbreviation transaction_calls' := (transaction_calls hexEncode base64Decode).
Local Abbreviation block_calls' := (block_calls hexEncode base64Decode).
Local Abbreviation pass_calls' := (pass_calls hexEncode base64Decode node).
Local Abbreviation expected_calls' := (expected_calls hexEncode base64Decode node).

Lemma traced_legacy_item (tx : Transaction) (item : DataItem) :
  traced (legacy_item hexEncode base64Decode tx item)
    (option_list
       (if decide (item_key item = anchorToken)
        then Some (SaveAnchor
                     (hexEncode (base64Decode (Js.replace "base64:" "" (item_value item))))
                     (id tx))
        else None)).
Proof.
  unfold legacy_item. case_decide; [|apply traced_ret].
  unfold await_saveAnchor. apply (traced_bind _ _ [] [_]);
    [apply traced_on_storage|intros _; apply traced_note].
Qed.

Lemma omap_bind_option_list {A B} (f : A -> option B) (l : list A) :
  omap f l = l ≫= fun x => option_list (f x).
Proof.
  induction l as [|x l IH]; [done|]. rewrite bind_cons. cbn [omap list_omap].
  fold (omap f l). rewrite IH. by destruct (f x).
Qed.

Lemma traced_processTransaction (tx : Transaction) :
  traced (processTransaction' tx) (transaction_calls' tx).
Proof.
  unfold processTransaction, transaction_calls.
  apply (traced_bind _ _ [] (_ :: _)); [apply traced_on_storage|]. intros _.
  apply (traced_bind _ _ [_] _); [apply traced_note|]. intros _.
  unfold anchor_calls, transactionTypes. cbn [existsb].
  destruct (type tx =? 12) eqn:E12; cbn [orb negb].
  - destruct (data tx) as [items|].
    + rewrite omap_bind_option_list. apply traced_for_of.
      intros item. apply traced_legacy_item.
    + destruct (type tx =? 15) eqn:E15; [lia|apply traced_ret].
  - destruct (type tx =? 15) eqn:E15; cbn [orb negb]; [|apply traced_ret].
    destruct (data tx), (anchors tx); try apply traced_ret.
    + intros m. simpl. rewrite app_nil_r. clear. revert m.
      induction l0 as [|a l IH]; intros m; [done|]. simpl. by rewrite IH.
    + intros m. simpl. rewrite app_nil_r. clear. revert m.
      induction l as [|a l IH]; intros m; [done|]. simpl. by rewrite IH.
Qed.

Lemma traced_processBlock (block : Block) :
  traced (processBlock' block) (transactions block ≫= transaction_calls').
Proof. apply traced_for_of, traced_processTransaction. Qed.

Lemma traced_scan (n : nat) :
  ∀ h, traced (scan' n h) (pass_calls' h (Z.of_nat n)).
Proof.
  induction n as [|n IH]; intros h.
  { apply traced_ret. }
  unfold pass_calls. rewrite seqZ_cons by lia. rewrite bind_cons.
  replace (Z.pred (Z.of_nat (S n))) with (Z.of_nat n) by lia.
  cbn [scan].
  apply traced_on_node. intros block Hb.
  unfold block_calls at 1, block_at. rewrite Hb.
  change (GetBlock h :: ?l) with ([GetBlock h] ++ l).
  rewrite <- !(assoc (++)).
  apply traced_bind; [apply traced_note|]. intros _.
  apply traced_bind; [apply traced_processBlock|]. intros _.
  apply (traced_bind _ _ [] _); [apply traced_on_storage|]. intros _.
  apply (traced_bind _ _ [_] _); [apply traced_note|]. intros _.
  apply IH.
Qed.

End Traces.

(** ** The checkpoint *)

Section Checkpoint.
Import Backend StorageService AnchorMonitorService.

Lemma to_int_proper (z : Z) : Z.to_int z ≠ Decimal.Pos Nil ∧ Z.to_int z ≠ Decimal.Neg Nil.
Proof.
  destruct z as [|p|p]; simpl; split; try discriminate;
    intros [= H]; by apply (DecimalPos.Unsigned.to_uint_nonnil p).
Qed.

(** A height written by saveProcessingHeight reads back as itself. *)
Lemma Number_String (z : Z) : Js.Number (Js.String_ z) = Js.Int z.
Proof.
  unfold Js.Number, Js.String_. destruct (to_int_proper z) as [H1 H2].
  rewrite NilZero.isi by done. by rewrite DecimalZ.of_to.
Qed.

Lemma String_truthy (z : Z) : Js.truthy_string (Some (Js.String_ z)) = true.
Proof.
  pose proof (Number_String z) as H. unfold Js.Number in H.
  destruct (Js.String_ z) eqn:E; [done|done].
Qed.

Lemma getValue_cases (k : string) (s : Storage) :
  let s0 := with_faults (tail (faults s)) s in
  getValue k s = Throw StorageUnavailable s0 ∧ head (faults s) = Some true ∨
  getValue k s = Ok (values s !! k) s0 ∧ head (faults s) ≠ Some true.
Proof.
  unfold getValue, call. destruct (faults s) as [|[] fs]; simpl; auto.
Qed.

(** getProcessingHeight, by the answer of the read. *)
Lemma getProcessingHeight_cases (s : Storage) :
  let s0 := with_faults (tail (faults s)) s in
  getProcessingHeight s =
  Ok (if decide (head (faults s) = Some true) then None
      else if Js.truthy_string (values s !! height_key)
           then Js.Number <$> values s !! height_key else None) s0.
Proof.
  unfold getProcessingHeight, bind, try_catch.
  destruct (getValue_cases height_key s) as [[-> Hf]|[-> Hf]]; simpl.
  - by rewrite decide_True.
  - by rewrite decide_False.
Qed.

End Checkpoint.

(** ** The order of the calls in a pass *)

Section PassOrder.
Import Backend StorageService AnchorMonitorService.

Context {Buffer : Type}.
Variable hexEncode : Buffer -> string.
Variable base64Decode : string -> Buffer.
Variable base58Decode : string -> Buffer.
Variable node : NodeService.
Variable index : Transaction -> M Storage unit.

Local Abbreviation checkNewBlock' :=
  (checkNewBlock hexEncode base64Decode base58Decode node index).
Local Abbreviation transaction_calls' := (transaction_calls hexEncode base64Decode).
Local Abbreviation block_calls' := (block_calls hexEncode base64Decode).
Local Abbreviation pass_calls' := (pass_calls hexEncode base64Decode node).
Local Abbreviation expected_calls' := (expected_calls hexEncode base64Decode node).
Local Abbreviation block_at' := (block_at node).

(** Indexing transactions makes no call to the node and saves no checkpoint. *)
Lemma transaction_calls_kind (c : Call) (txs : list Transaction) :
  c ∈ txs ≫= transaction_calls' ->
  (∃ i, c = Index i) ∨ (∃ h i, c = SaveAnchor h i).
Proof.
  intros H. apply list_elem_of_bind in H as (tx & Hc & _).
  unfold transaction_calls in Hc. apply elem_of_cons in Hc as [->|Hc]; [eauto|].
  unfold anchor_calls in Hc. destruct (type tx =? 12), (data tx) as [items|];
    try by apply not_elem_of_nil in Hc.
  apply list_elem_of_omap in Hc as (item & _ & Hc). case_decide; [|done].
  simplify_eq. eauto.
Qed.

Lemma seqZ_clamp (first n : Z) : seqZ first (Z.of_nat (Z.to_nat n)) = seqZ first n.
Proof. unfold seqZ. by rewrite Nat2Z.id. Qed.

Lemma seqZ_split (first n h : Z) (hs1 hs2 : list Z) :
  seqZ first n = hs1 ++ h :: hs2 ->
  hs1 = seqZ first (h - first) ∧ first <= h < first + n.
Proof.
  intros H.
  assert (Hh : seqZ first n !! List.length hs1 = Some h).
  { rewrite H. by rewrite list_lookup_middle. }
  apply lookup_seqZ in Hh as [-> Hlt].
  replace (first + Z.of_nat (List.length hs1) - first) with (Z.of_nat (List.length hs1)) by lia.
  split; [|lia].
  replace n with (Z.of_nat (List.length hs1) + (n - Z.of_nat (List.length hs1))) in H by lia.
  rewrite seqZ_app in H by lia.
  apply app_inj_1 in H as [H _]; [done|]. rewrite length_seqZ. lia.
Qed.

(** In the calls of fully processed blocks, what comes before the fetch of
    a block are the calls of the blocks before it. *)
Lemma calls_before_fetch (hs : list Z) :
  ∀ t1 t2 h,
    (hs ≫= fun h => block_calls' h (block_at' h)) = t1 ++ GetBlock h :: t2 ->
    ∃ hs1 hs2, hs = hs1 ++ h :: hs2 ∧
               t1 = hs1 ≫= fun h => block_calls' h (block_at' h).
Proof.
  induction hs as [|h0 hs IH]; intros t1 t2 h H.
  { by destruct t1. }
  rewrite bind_cons in H.
  assert (Hrec : ∀ k, (hs ≫= fun h => block_calls' h (block_at' h)) = k ++ GetBlock h :: t2 ->
            ∃ hs1 hs2, h0 :: hs = hs1 ++ h :: hs2 ∧
              block_calls' h0 (block_at' h0) ++ k = hs1 ≫= fun h => block_calls' h (block_at' h)).
  { intros k Hk. destruct (IH _ _ _ Hk) as (hs1 & hs2 & -> & ->).
    exists (h0 :: hs1), hs2. by rewrite bind_cons. }
  apply app_eq_inv in H as [(k & Hb & Hk)|(k & -> & Hk)]; [|by apply Hrec].
  destruct k as [|c k].
  { rewrite app_nil_r in Hb. simpl in Hk.
    destruct (Hrec [] (eq_sym Hk)) as (hs1 & hs2 & E1 & E2).
    rewrite app_nil_r, Hb in E2. eauto. }
  simpl in Hk. injection Hk as <- _. unfold block_calls in Hb.
  destruct t1 as [|c t1]; simpl in Hb.
  - injection Hb as -> _. by exists [], hs.
  - injection Hb as _ Hb.
    assert (Hin : GetBlock h ∈
              (transactions (block_at' h0) ≫= transaction_calls') ++ [SaveProcessingHeight h0]).
    { rewrite Hb. apply elem_of_app. right. apply list_elem_of_here. }
    apply elem_of_app in Hin as [Hin|Hin].
    + apply transaction_calls_kind in Hin as [[? ?]|(? & ? & ?)]; done.
    + by apply list_elem_of_singleton in Hin.
Qed.

(** What comes right before a checkpoint are the fetch of its block and
    the indexing of all the transactions of the block. *)
Lemma calls_before_checkpoint (hs : list Z) :
  ∀ t1 t2 h,
    (hs ≫= fun h => block_calls' h (block_at' h)) = t1 ++ SaveProcessingHeight h :: t2 ->
    ∃ pre, t1 = pre ++ GetBlock h :: (transactions (block_at' h) ≫= transaction_calls').
Proof.
  induction hs as [|h0 hs IH]; intros t1 t2 h H.
  { by destruct t1. }
  rewrite bind_cons in H.
  apply app_eq_inv in H as [(k & Hb & Hk)|(k & -> & Hk)].
  - unfold block_calls in Hb.
    change (GetBlock h0 :: ?l ++ ?r) with ((GetBlock h0 :: l) ++ r) in Hb.
    destruct k as [|c k].
    + rewrite app_nil_r in Hb. simpl in Hk.
      destruct (IH [] t2 h) as (pre & Hpre); [by rewrite <- Hk|].
      by destruct pre.
    + simpl in Hk. injection Hk as <- _.
      destruct k as [|c k _] using rev_ind.
      * apply app_inj_tail in Hb as [<- [= <-]]. by exists [].
      * rewrite app_comm_cons, (assoc (++)) in Hb.
        apply app_inj_tail in Hb as [Hb _].
        assert (Hin : SaveProcessingHeight h ∈
                  GetBlock h0 :: (transactions (block_at' h0) ≫= transaction_calls')).
        { rewrite Hb. apply elem_of_app. right. apply list_elem_of_here. }
        apply elem_of_cons in Hin as [Hin|Hin]; [done|].
        apply transaction_calls_kind in Hin as [[? ?]|(? & ? & ?)]; done.
  - destruct (IH _ _ _ Hk) as (pre & ->).
    exists (block_calls' h0 (block_at' h0) ++ pre). by rewrite (assoc (++)).
Qed.

Lemma fetched_heights_app (t1 t2 : list Call) :
  fetched_heights (t1 ++ t2) = fetched_heights t1 ++ fetched_heights t2.
Proof. apply omap_app. Qed.

Lemma fetched_heights_transactions (txs : list Transaction) :
  fetched_heights (txs ≫= transaction_calls') = [].
Proof.
  destruct (fetched_heights _) as [|h l] eqn:E; [done|].
  assert (Hin : h ∈ fetched_heights (txs ≫= transaction_calls'))
    by (rewrite E; apply list_elem_of_here).
  apply list_elem_of_omap in Hin as (c & Hc & Hh).
  apply transaction_calls_kind in Hc as [[? ->]|(? & ? & ->)]; done.
Qed.

Lemma fetched_heights_blocks (hs : list Z) :
  fetched_heights (hs ≫= fun h => block_calls' h (block_at' h)) = hs.
Proof.
  induction hs as [|h hs IH]; [done|].
  rewrite bind_cons, fetched_heights_app, IH. unfold block_calls.
  change (GetBlock h :: ?l) with ([GetBlock h] ++ l).
  rewrite !fetched_heights_app, fetched_heights_transactions. done.
Qed.

(** The calls of a pass, whatever its outcome. *)
Lemma checkNewBlock_calls (m : Monitor) :
  match checkNewBlock' m with
  | Ok _ m' => calls m' = calls m ++ expected_calls' m
  | Throw _ m' => ∃ t, t `prefix_of` expected_calls' m ∧ calls m' = calls m ++ t
  end.
Proof.
  unfold checkNewBlock, expected_calls, first_height.
  unfold bind at 1, set_processing. unfold bind at 1, on_node.
  destruct (getLastBlockHeight node) as [currentHeight|e].
  2:{ exists []. split; [done|]. simpl. by rewrite app_nil_r. }
  unfold bind at 1, on_storage. cbn [storage with_processing].
  rewrite getProcessingHeight_cases. cbv zeta. cbn [lastBlock with_storage with_processing].
  set (first := checkpoint_or _ (lastBlock m) + 1).
  assert (Hc : pass_calls' first (Z.of_nat (Z.to_nat (currentHeight + 1 - first))) =
               pass_calls' first (currentHeight + 1 - first))
    by (unfold pass_calls; by rewrite seqZ_clamp).
  rewrite <- Hc.
  pose proof (traced_bind _ (fun _ => set_processing false) _ []
    (traced_scan hexEncode base64Decode base58Decode node index
       (Z.to_nat (currentHeight + 1 - first)) first)
    (fun _ => traced_set_processing false)) as Ht.
  rewrite app_nil_r in Ht.
  apply (Ht (with_storage _ (with_processing true m))).
Qed.

Lemma expected_calls_pass (m : Monitor) :
  ∃ n, expected_calls' m = pass_calls' (first_height m) n.
Proof.
  unfold expected_calls. destruct (getLastBlockHeight node); [eauto|].
  by exists 0.
Qed.

Lemma seqZ_prefix (first n : Z) (l r : list Z) :
  l ++ r = seqZ first n -> l = seqZ first (Z.of_nat (List.length l)).
Proof.
  intros H.
  assert (Hlen : (List.length l <= Z.to_nat n)%nat).
  { pose proof (f_equal List.length H) as HL.
    rewrite length_app, length_seqZ in HL. lia. }
  destruct (decide (n <= 0)) as [Hn|Hn].
  { rewrite seqZ_nil in H by done. by apply app_eq_nil in H as [-> _]. }
  replace n with (Z.of_nat (List.length l) + (n - Z.of_nat (List.length l))) in H by lia.
  rewrite seqZ_app in H by lia.
  apply app_inj_1 in H as [H _]; [done|]. rewrite length_seqZ. lia.
Qed.

Lemma pass_calls_block (first h1 h2 : Z) :
  first <= h1 < h2 ->
  ∃ pre post, pass_calls' first (h2 - first) =
              pre ++ block_calls' h1 (block_at' h1) ++ post.
Proof.
  intros Hh. unfold pass_calls.
  replace (h2 - first) with ((h1 - first) + (h2 - h1)) by lia.
  rewrite seqZ_app by lia. rewrite (seqZ_cons (first + (h1 - first))) by lia.
  rewrite bind_app, bind_cons. replace (first + (h1 - first)) with h1 by lia.
  eauto.
Qed.

(** X25. The order of the calls that a pass awaits, whether it runs to
    its end or throws: the blocks are fetched in increasing order of height,
    one height after the other; when the fetch of block h2 resolves, the
    awaited calls that have resolved so far are exactly those of the blocks
    from the first height to h2 - 1, each with its fetch, the awaited calls of
    its transactions and its saveProcessingHeight; and what comes right before
    saveProcessingHeight(h) resolves is the fetch of block h followed by the
    awaited calls of all its transactions. The saveAnchor calls of the
    transactions of type 15, which nothing awaits, are no part of this
    order. *)
Theorem pass_order (m : Monitor) :
  ∃ t,
    calls (final (checkNewBlock' m)) = calls m ++ t ∧
    t `prefix_of` expected_calls' m ∧
    (∀ m', checkNewBlock' m = Ok tt m' -> t = expected_calls' m) ∧
    fetched_heights t = seqZ (first_height m) (Z.of_nat (List.length (fetched_heights t))) ∧
    (∀ h2 t1 t2, t = t1 ++ GetBlock h2 :: t2 ->
       t1 = pass_calls' (first_height m) (h2 - first_height m)) ∧
    (∀ h1 h2 t1 t2, t = t1 ++ GetBlock h2 :: t2 ->
       first_height m <= h1 < h2 ->
       ∃ pre post, t1 = pre ++ block_calls' h1 (block_at' h1) ++ post) ∧
    (∀ h t1 t2, t = t1 ++ SaveProcessingHeight h :: t2 ->
       ∃ pre, t1 = pre ++ GetBlock h ::
                     (transactions (block_at' h) ≫= transaction_calls')).
Proof.
  assert (Ht : ∃ t, calls (final (checkNewBlock' m)) = calls m ++ t ∧
                    t `prefix_of` expected_calls' m ∧
                    (∀ m', checkNewBlock' m = Ok tt m' -> t = expected_calls' m)).
  { pose proof (checkNewBlock_calls m) as H.
    destruct (checkNewBlock' m) as [[] m1|e m1]; simpl.
    - exists (expected_calls' m). split; [done|]. split; [done|]. done.
    - destruct H as (t & Hp & Hc). exists t. split; [done|]. split; [done|]. done. }
  destruct Ht as (t & Hc & [r Hp] & Hok). exists t.
  destruct (expected_calls_pass m) as [n Hn]. rewrite Hn in Hp. unfold pass_calls in Hp.
  assert (Hfetch : ∀ h2 t1 t2, t = t1 ++ GetBlock h2 :: t2 ->
             t1 = pass_calls' (first_height m) (h2 - first_height m)).
  { intros h2 t1 t2 ->. rewrite <- (assoc (++)) in Hp. simpl in Hp.
    apply calls_before_fetch in Hp as (hs1 & hs2 & Hs & ->).
    apply seqZ_split in Hs as [-> _]. done. }
  split; [done|]. split; [by exists r; rewrite Hn|]. split; [done|].
  split; [|split; [exact Hfetch|split]].
  - apply (f_equal fetched_heights) in Hp.
    rewrite fetched_heights_blocks, fetched_heights_app in Hp.
    symmetry in Hp. by eapply seqZ_prefix.
  - intros h1 h2 t1 t2 E Hh. rewrite (Hfetch _ _ _ E).
    by apply pass_calls_block.
  - intros h t1 t2 ->. rewrite <- (assoc (++)) in Hp. simpl in Hp.
    by apply calls_before_checkpoint in Hp.
Qed.

(** C1, as amended. A pass that runs to its end fetches the heights from
    its first height up to the node's current height, in this order; the
    first height is c + 1 when a checkpoint c other than 0 is saved and read,
    whatever the last known height, and the last known height + 1 when no
    checkpoint is saved. *)
Theorem pass_heights (m m' : Monitor) (currentHeight : Z) :
  getLastBlockHeight node = Resolved currentHeight ->
  checkNewBlock' m = Ok tt m' ->
  ∃ t, calls m' = calls m ++ t ∧
       fetched_heights t =
         seqZ (first_height m) (currentHeight + 1 - first_height m) ∧
       (∀ c, values (storage m) !! height_key = Some (Js.String_ c) ->
             c ≠ 0 ->
             head (faults (storage m)) ≠ Some true ->
             first_height m = c + 1) ∧
       (values (storage m) !! height_key = None ->
        first_height m = lastBlock m + 1).
Proof.
  intros Hcur Hrun. pose proof (checkNewBlock_calls m) as H. rewrite Hrun in H.
  exists (expected_calls' m). split; [done|]. split; [|split].
  - unfold expected_calls. rewrite Hcur. apply fetched_heights_blocks.
  - intros c Hc Hnz Hf. unfold first_height. rewrite getProcessingHeight_cases.
    rewrite decide_False by done. rewrite Hc, String_truthy. simpl.
    rewrite Number_String. unfold checkpoint_or. simpl.
    destruct (c =? 0) eqn:E; [lia|done].
  - intros Hc. unfold first_height. rewrite getProcessingHeight_cases, Hc.
    by case_decide.
Qed.

(** C7. getProcessingHeight never throws; when the read of the checkpoint
    fails it returns null, as it does when no checkpoint is stored; and the
    pass then starts from the last known height. *)
Theorem getProcessingHeight_swallows (m : Monitor) :
  (∃ r s', getProcessingHeight (storage m) = Ok r s') ∧
  (∀ e s1, getValue height_key (storage m) = Throw e s1 ->
           getProcessingHeight (storage m) = Ok None s1 ∧
           first_height m = lastBlock m + 1) ∧
  (∀ s1, getValue height_key (storage m) = Ok None s1 ->
         getProcessingHeight (storage m) = Ok None s1 ∧
         first_height m = lastBlock m + 1).
Proof.
  split; [rewrite getProcessingHeight_cases; eauto|].
  split; intros; unfold first_height, getProcessingHeight, bind, try_catch;
    rewrite H; done.
Qed.

End PassOrder.

(** ** Passes over the sample chain *)

Section PassesAtSamples.
Import Backend StorageService AnchorMonitorService.

Lemma pass_heights_witness :
  getLastBlockHeight (sample_node 8) = Resolved 8 ∧
  checkNewBlock plain_encode plain_decode plain_decode (sample_node 8) silent_index
    (idle_monitor (checkpointed 5 []) 10) =
  Ok tt (final (checkNewBlock plain_encode plain_decode plain_decode (sample_node 8)
                  silent_index (idle_monitor (checkpointed 5 []) 10))) ∧
  ∃ t, calls (final (checkNewBlock plain_encode plain_decode plain_decode (sample_node 8)
                       silent_index (idle_monitor (checkpointed 5 []) 10))) =
       calls (idle_monitor (checkpointed 5 []) 10) ++ t ∧
       fetched_heights t = seqZ (5 + 1) (8 + 1 - (5 + 1)).
Proof.
  assert (H1 : getLastBlockHeight (sample_node 8) = Resolved 8) by reflexivity.
  assert (H2 : checkNewBlock plain_encode plain_decode plain_decode (sample_node 8)
                 silent_index (idle_monitor (checkpointed 5 []) 10) =
    Ok tt (final (checkNewBlock plain_encode plain_decode plain_decode (sample_node 8)
                    silent_index (idle_monitor (checkpointed 5 []) 10))))
    by (vm_compute; reflexivity).
  repeat (split; [assumption|]).
  destruct (pass_heights plain_encode plain_decode plain_decode (sample_node 8)
              silent_index _ _ 8 H1 H2) as (t & Hc & Hf & Hsaved & _).
  exists t. split; [exact Hc|].
  rewrite (Hsaved 5) in Hf; [exact Hf|vm_compute; reflexivity|lia|simpl; congruence].
Defined.

(** C1, as stated, fails: with the checkpoint 5 saved and the last known
    height 10, the pass starts at height 6, and max(5, 10) + 1 is 11. *)
Lemma pass_starts_after_checkpoint :
  ∃ m', checkNewBlock plain_encode plain_decode plain_decode (sample_node 12)
          silent_index (idle_monitor (checkpointed 5 []) 10) = Ok tt m' ∧
        fetched_heights (calls m') = [6; 7; 8; 9; 10; 11; 12] ∧
        head (fetched_heights (calls m')) ≠ Some (Z.max 5 10 + 1).
Proof.
  eexists. split; [vm_compute; reflexivity|].
  split; [vm_compute; reflexivity|]. vm_compute. intros [=].
Qed.

Lemma getProcessingHeight_swallows_witness :
  getValue height_key (storage (idle_monitor (checkpointed 41 [true]) 10)) =
    Throw StorageUnavailable (checkpointed 41 []) ∧
  getProcessingHeight (storage (idle_monitor (checkpointed 41 [true]) 10)) =
    Ok None (checkpointed 41 []) ∧
  first_height (idle_monitor (checkpointed 41 [true]) 10) = 10 + 1.
Proof.
  assert (H : getValue height_key (storage (idle_monitor (checkpointed 41 [true]) 10)) =
              Throw StorageUnavailable (checkpointed 41 [])) by reflexivity.
  split; [exact H|].
  exact (proj1 (proj2 (getProcessingHeight_swallows
                         (idle_monitor (checkpointed 41 [true]) 10))) _ _ H).
Defined.

(** A pass from the checkpoint 5 to the height 8: the awaited calls in
    their order and what they have written, and the call that saves the
    anchor of the native transaction of block 7, made and never awaited. *)
Example pass_over_sample_chain :
  checkNewBlock plain_encode plain_decode plain_decode (sample_node 8) silent_index
    (idle_monitor (checkpointed 5 []) 10) =
  Ok tt {| processing := false; lastBlock := 10;
           storage :=
             {| values := {[ height_key := "8" ]};
                objects := {[ anchor_key "3q2+7w==" := Entries {["tx-12"]} ]};
                sets := ∅; faults := [] |};
           inflight := [("3yZe7d", "tx-15")];
           calls := [ GetBlock 6; SaveProcessingHeight 6;
                      GetBlock 7; Index "tx-12"; SaveAnchor "3q2+7w==" "tx-12";
                      Index "tx-15"; SaveProcessingHeight 7;
                      GetBlock 8; SaveProcessingHeight 8 ] |}.
Proof. vm_compute. reflexivity. Qed.

End PassesAtSamples.

(** * Further properties *)

(** ** The association graph, continued *)

Section AssociationsFurther.
Import Backend StorageService.

Lemma sadd_nofault (k x : string) (s : Storage) :
  faults s = [] ->
  sadd k x s = Ok tt (with_sets (<[k := {[x]} ∪ members k s]> (sets s)) s).
Proof. intros H. unfold sadd. by rewrite call_nofault. Qed.

(** Adding the mirrored pair of the edge from [a] to [c] puts exactly these
    two entries into the set store. *)
Lemma members_link (a c : string) (s s1 s2 : Storage) (k x : string) :
  sets s1 = <[childs_key a := {[c]} ∪ members (childs_key a) s]> (sets s) ->
  sets s2 = <[parents_key c := {[a]} ∪ members (parents_key c) s1]> (sets s1) ->
  x ∈ members k s2 ↔
  x ∈ members k s ∨ (k = childs_key a ∧ x = c) ∨ (k = parents_key c ∧ x = a).
Proof.
  intros E1 E2.
  rewrite (members_after_sadd _ _ k _ _ E2).
  rewrite (members_after_sadd _ _ (parents_key c) _ _ E1).
  rewrite (members_after_sadd _ _ k _ _ E1).
  pose proof (childs_parents_ne a c) as Hne.
  repeat case_decide; subst; try congruence; set_solver.
Qed.

Lemma saveAssociation_Ok (tx : Transaction) (s s' : Storage) :
  saveAssociation tx s = Ok tt s' ->
  values s' = values s ∧ objects s' = objects s ∧
  ∀ k x, x ∈ members k s' ↔
         x ∈ members k s ∨
         (k = childs_key (sender tx) ∧ x = party tx) ∨
         (k = parents_key (party tx) ∧ x = sender tx).
Proof.
  intros H. unfold saveAssociation, bind in H.
  destruct (sadd_cases (childs_key (sender tx)) (party tx) s)
    as [(s1 & E & _)|(s1 & E & E1 & _)]; rewrite E in H; [done|].
  destruct (sadd_cases (parents_key (party tx)) (sender tx) s1)
    as [(s2 & E' & _)|(s2 & E' & E2 & _)]; rewrite E' in H; [done|].
  unfold ret in H. simplify_eq.
  assert (Hv : values s' = values s ∧ objects s' = objects s).
  { unfold sadd, call in E, E'.
    destruct (faults s) as [|[] ?]; simplify_eq;
      destruct (faults _) as [|[] ?] in E'; by simplify_eq. }
  destruct Hv as [Hv Ho]. split; [done|]. split; [done|].
  intros k x. eapply members_link; done.
Qed.

Lemma getAssociations_Ok (a : string) (s s' : Storage) (r : list string * list string) :
  getAssociations a s = Ok r s' ->
  r = (elements (children s a), elements (parents s a)) ∧ sets s' = sets s.
Proof.
  intros H. unfold getAssociations, bind in H.
  destruct (getArray_cases (childs_key a) s) as [(s1 & E & _)|(s1 & E & E1 & _)];
    rewrite E in H; [done|].
  destruct (getArray_cases (parents_key a) s1) as [(s2 & E' & _)|(s2 & E' & E2 & _)];
    rewrite E' in H; [done|].
  unfold ret in H. simplify_eq. unfold children, parents.
  rewrite (members_same_sets _ _ _ E1). split; [done|]. by rewrite E2.
Qed.

(** X1. After a completed saveAssociation the set store holds what it held
    and the two entries of the edge, no more; getAssociations then lists the
    party among the children of the sender and the sender among the parents
    of the party, each once. *)
Theorem saveAssociation_getAssociations (tx : Transaction) (s s' : Storage) :
  saveAssociation tx s = Ok tt s' ->
  (∀ k x, x ∈ members k s' ↔
          x ∈ members k s ∨
          (k = childs_key (sender tx) ∧ x = party tx) ∨
          (k = parents_key (party tx) ∧ x = sender tx)) ∧
  (∀ r s2, getAssociations (sender tx) s' = Ok r s2 ->
           party tx ∈ r.1 ∧ NoDup r.1 ∧ NoDup r.2) ∧
  (∀ r s2, getAssociations (party tx) s' = Ok r s2 ->
           sender tx ∈ r.2 ∧ NoDup r.1 ∧ NoDup r.2).
Proof.
  intros H. apply saveAssociation_Ok in H as (_ & _ & Hm).
  split; [exact Hm|]. split; intros r s2 Hg;
    apply getAssociations_Ok in Hg as [-> _]; cbn [fst snd];
    (split; [|split; apply NoDup_elements]);
    apply elem_of_elements; unfold children, parents; rewrite Hm; auto.
Qed.

Lemma saveAssociation_getAssociations_witness :
  saveAssociation issue_A_B family = Ok tt (final (saveAssociation issue_A_B family)) ∧
  ∀ r s2, getAssociations "A" (final (saveAssociation issue_A_B family)) = Ok r s2 ->
          "B" ∈ r.1 ∧ NoDup r.1 ∧ NoDup r.2.
Proof.
  assert (H : saveAssociation issue_A_B family =
              Ok tt (final (saveAssociation issue_A_B family))) by reflexivity.
  split; [exact H|].
  exact (proj1 (proj2 (saveAssociation_getAssociations issue_A_B family _ H))).
Defined.

(** X2. Saving an association that is already saved changes no set:
    indexing the same transaction again is harmless. *)
Theorem saveAssociation_again (tx : Transaction) (s s1 s2 : Storage) :
  saveAssociation tx s = Ok tt s1 ->
  saveAssociation tx s1 = Ok tt s2 ->
  ∀ k, members k s2 = members k s1.
Proof.
  intros H1 H2 k. apply saveAssociation_Ok in H1 as (_ & _ & Hm1).
  apply saveAssociation_Ok in H2 as (_ & _ & Hm2).
  apply set_eq. intros x. rewrite Hm2, !Hm1. tauto.
Qed.

Lemma saveAssociation_again_witness :
  saveAssociation issue_A_B empty_storage =
    Ok tt (final (saveAssociation issue_A_B empty_storage)) ∧
  saveAssociation issue_A_B (final (saveAssociation issue_A_B empty_storage)) =
    Ok tt (final (saveAssociation issue_A_B
                    (final (saveAssociation issue_A_B empty_storage)))) ∧
  members (childs_key "A")
    (final (saveAssociation issue_A_B (final (saveAssociation issue_A_B empty_storage)))) =
  members (childs_key "A") (final (saveAssociation issue_A_B empty_storage)).
Proof.
  assert (H1 : saveAssociation issue_A_B empty_storage =
    Ok tt (final (saveAssociation issue_A_B empty_storage))) by reflexivity.
  assert (H2 : saveAssociation issue_A_B (final (saveAssociation issue_A_B empty_storage)) =
    Ok tt (final (saveAssociation issue_A_B
                    (final (saveAssociation issue_A_B empty_storage))))) by reflexivity.
  repeat (split; [assumption|]).
  exact (saveAssociation_again issue_A_B _ _ _ H1 H2 (childs_key "A")).
Defined.

Lemma shrinks_refl (s : Storage) : shrinks s s.
Proof. by intros k. Qed.

Lemma shrinks_trans (s1 s2 s3 : Storage) :
  shrinks s1 s2 -> shrinks s2 s3 -> shrinks s1 s3.
Proof. intros H1 H2 k. specialize (H1 k). specialize (H2 k). set_solver. Qed.

Lemma shrinks_same_sets (s s' : Storage) : sets s' = sets s -> shrinks s s'.
Proof. intros H k. by rewrite (members_same_sets _ _ _ H). Qed.

Lemma shrinks_srem (k x : string) (s s' : Storage) :
  sets s' = <[k := members k s ∖ {[x]}]> (sets s) -> shrinks s s'.
Proof.
  intros H k'. rewrite (members_after_srem _ _ k' _ _ H).
  case_decide; subst; set_solver.
Qed.

(** A call to [srem] or [getArray], whatever its outcome, leaves the other
    stores alone and adds nothing to a set. *)
Lemma srem_final (k x : string) (s : Storage) :
  shrinks s (final (srem k x s)) ∧
  values (final (srem k x s)) = values s ∧ objects (final (srem k x s)) = objects s.
Proof.
  assert (Hst : values (final (srem k x s)) = values s ∧
                objects (final (srem k x s)) = objects s)
    by (unfold srem, call; by destruct (faults s) as [|[] fs]).
  split; [|done].
  destruct (srem_cases k x s) as [(s' & -> & E)|(s' & -> & E & _)]; simpl.
  - by apply shrinks_same_sets.
  - by apply (shrinks_srem k x).
Qed.

Lemma getArray_final (k : string) (s : Storage) :
  sets (final (getArray k s)) = sets s ∧
  values (final (getArray k s)) = values s ∧
  objects (final (getArray k s)) = objects s.
Proof. unfold getArray, call. by destruct (faults s) as [|[] fs]. Qed.

Lemma remove_children_shrinks recur (a : string) :
  (∀ c s o, recur c s = Some o ->
     shrinks s (final o) ∧ values (final o) = values s ∧ objects (final o) = objects s) ->
  ∀ l s o, remove_children recur a l s = Some o ->
    shrinks s (final o) ∧ values (final o) = values s ∧ objects (final o) = objects s.
Proof.
  intros Hrec l. induction l as [|child rest IH]; intros s o H; simpl in H.
  { simplify_eq. simpl. split; [apply shrinks_refl|done]. }
  destruct (srem_final (childs_key a) child s) as (K1 & V1 & O1).
  destruct (srem (childs_key a) child s) as [[] s1|e s1]; simpl in *;
    [|by simplify_eq].
  destruct (srem_final (parents_key child) a s1) as (K2 & V2 & O2).
  destruct (srem (parents_key child) a s1) as [[] s2|e s2]; simpl in *.
  2:{ simplify_eq. simpl. split; [by eapply shrinks_trans|]. split; congruence. }
  destruct (recur child s2) as [[[] s3|e s3]|] eqn:Hr; [| |done].
  - destruct (Hrec _ _ _ Hr) as (K3 & V3 & O3). simpl in *.
    destruct (IH _ _ H) as (K4 & V4 & O4).
    split; [eauto using shrinks_trans|]. split; congruence.
  - destruct (Hrec _ _ _ Hr) as (K3 & V3 & O3). simplify_eq. simpl in *.
    split; [eauto using shrinks_trans|]. split; congruence.
Qed.

Lemma recurRemoveAssociation_shrinks (fuel : nat) :
  ∀ a s o, recurRemoveAssociation fuel a s = Some o ->
    shrinks s (final o) ∧ values (final o) = values s ∧ objects (final o) = objects s.
Proof.
  induction fuel as [|fuel IH]; intros a s o H; [done|].
  rewrite recurRemoveAssociation_unfold in H.
  destruct (getArray_final (childs_key a) s) as (K1 & V1 & O1).
  destruct (getArray (childs_key a) s) as [l s1|e s1]; simpl in *.
  - destruct (remove_children_shrinks _ a IH _ _ _ H) as (K2 & V2 & O2).
    split; [|split; congruence].
    eapply shrinks_trans; [by apply shrinks_same_sets|done].
  - simplify_eq. simpl. split; [by apply shrinks_same_sets|done].
Qed.

Lemma removeAssociation_shrinks_aux (fuel : nat) (tx : Transaction) (s : Storage)
    (o : Outcome Storage unit) :
  removeAssociation fuel tx s = Some o -> shrinks s (final o).
Proof.
  intros H. unfold removeAssociation in H.
  destruct (srem_final (childs_key (sender tx)) (party tx) s) as (K1 & _).
  destruct (srem (childs_key (sender tx)) (party tx) s) as [[] s1|e s1]; simpl in *;
    [|by simplify_eq].
  destruct (srem_final (parents_key (party tx)) (sender tx) s1) as (K2 & _).
  destruct (srem (parents_key (party tx)) (sender tx) s1) as [[] s2|e s2]; simpl in *.
  2:{ simplify_eq. simpl. by eapply shrinks_trans. }
  destruct (recurRemoveAssociation_shrinks _ _ _ _ H) as (K3 & _).
  eauto using shrinks_trans.
Qed.

(** X3. removeAssociation, whatever its outcome, adds no member to any
    set, and leaves the scalar store and the object store as they were. *)
Theorem removeAssociation_only_removes (fuel : nat) (tx : Transaction) (s : Storage)
    (o : Outcome Storage unit) :
  removeAssociation fuel tx s = Some o ->
  (∀ k x, x ∈ members k (final o) -> x ∈ members k s) ∧
  values (final o) = values s ∧
  objects (final o) = objects s.
Proof.
  intros H. unfold removeAssociation in H.
  destruct (srem_final (childs_key (sender tx)) (party tx) s) as (K1 & V1 & O1).
  destruct (srem (childs_key (sender tx)) (party tx) s) as [[] s1|e s1]; simpl in *.
  2:{ simplify_eq. simpl. split; [|done]. intros k x. apply K1. }
  destruct (srem_final (parents_key (party tx)) (sender tx) s1) as (K2 & V2 & O2).
  destruct (srem (parents_key (party tx)) (sender tx) s1) as [[] s2|e s2]; simpl in *.
  2:{ simplify_eq. simpl. split; [|split; congruence].
      intros k x Hx. by apply K1, K2. }
  destruct (recurRemoveAssociation_shrinks _ _ _ _ H) as (K3 & V3 & O3).
  split; [|split; congruence]. intros k x Hx. by apply K1, K2, K3.
Qed.

Lemma removeAssociation_only_removes_witness :
  ∃ s', removeAssociation 3 revoke_A_B ring = Some (Ok tt s') ∧
        values s' = values ring ∧ objects s' = objects ring.
Proof.
  assert (H : ∃ s', removeAssociation 3 revoke_A_B ring = Some (Ok tt s'))
    by (eexists; vm_compute; reflexivity).
  destruct H as [s' H]. exists s'. split; [exact H|].
  exact (proj2 (removeAssociation_only_removes 3 revoke_A_B ring _ H)).
Defined.

Lemma reaches_mono (s0 s : Storage) (a d : string) :
  shrinks s0 s -> reaches s a d -> reaches s0 a d.
Proof.
  intros Hs H. induction H as [|x y z Hxy _ IH]; [apply rtc_refl|].
  eapply rtc_l; [|exact IH]. simpl. by apply (Hs (childs_key x)).
Qed.

(** Removing the pair of the edge from [a] to [c] leaves the children of
    every address as they were, [c] among those of [a] apart. *)
Lemma children_unlink (a c : string) (s s1 s2 : Storage) (y : string) :
  sets s1 = <[childs_key a := members (childs_key a) s ∖ {[c]}]> (sets s) ->
  sets s2 = <[parents_key c := members (parents_key c) s1 ∖ {[a]}]> (sets s1) ->
  ∀ x, x ∈ children s2 y ↔ x ∈ children s y ∧ ¬ (y = a ∧ x = c).
Proof.
  intros E1 E2 x. unfold children. rewrite (members_unlink a c s s1 s2) by done.
  pose proof (childs_parents_ne y c). split; intros [Hin Hn]; (split; [done|]).
  - intros [-> ->]. apply Hn. by left.
  - intros [[Hk ->]|[Hk _]]; [|done]. apply childs_key_inj in Hk. by apply Hn.
Qed.

Lemma remove_children_settles recur (s0 : Storage) (pending : gset string) (a : string) :
  (∀ c s s', recur c s = Some (Ok tt s') ->
     shrinks s0 s -> settled s0 ({[c]} ∪ ({[a]} ∪ pending)) s ->
     shrinks s s' ∧ settled s0 ({[a]} ∪ pending) s' ∧ children s' c = ∅) ->
  ∀ l s s', remove_children recur a l s = Some (Ok tt s') ->
    shrinks s0 s -> settled s0 ({[a]} ∪ pending) s ->
    shrinks s s' ∧ settled s0 ({[a]} ∪ pending) s' ∧
    ∀ c, c ∈ l -> c ∉ children s' a.
Proof.
  intros Hrec l. induction l as [|child rest IH]; intros s s' H Hs0 Hset; simpl in H.
  { simplify_eq. split; [apply shrinks_refl|]. split; [done|].
    intros c Hc. by apply not_elem_of_nil in Hc. }
  destruct (srem_cases (childs_key a) child s)
    as [(s1 & E & _)|(s1 & E & E1 & _)]; rewrite E in H; [done|].
  destruct (srem_cases (parents_key child) a s1)
    as [(s2 & E' & _)|(s2 & E' & E2 & _)]; rewrite E' in H; [done|].
  destruct (recur child s2) as [[[] s3|e s3]|] eqn:Hr; [|done..].
  pose proof (children_unlink a child s s1 s2) as Hch.
  assert (K12 : shrinks s s2).
  { eapply shrinks_trans; [by apply (shrinks_srem _ _ _ _ E1)|
                            by apply (shrinks_srem _ _ _ _ E2)]. }
  assert (Hset2 : settled s0 ({[child]} ∪ ({[a]} ∪ pending)) s2).
  { intros x c Hc0 Hc2. destruct (decide (c ∈ children s x)) as [Hin|Hout].
    - rewrite (Hch x) in Hc2 by done.
      assert (x = a ∧ c = child) as [-> ->] by (apply dec_stable; tauto).
      right. set_solver.
    - destruct (Hset x c Hc0 Hout) as [He|Hp]; [left|right; set_solver].
      apply set_eq. intros z. split; [|set_solver]. intros Hz.
      apply (K12 (childs_key c)) in Hz. fold (children s c) in Hz. set_solver. }
  destruct (Hrec _ _ _ Hr (shrinks_trans _ _ _ Hs0 K12) Hset2) as (K3 & Hset3 & _).
  destruct (IH _ _ H (shrinks_trans _ _ _ Hs0 (shrinks_trans _ _ _ K12 K3)) Hset3)
    as (K4 & Hset4 & Hrest).
  split; [eauto using shrinks_trans|]. split; [done|].
  intros c Hc. apply elem_of_cons in Hc as [->|Hc]; [|by apply Hrest].
  intros Hin. apply (K4 (childs_key a)), (K3 (childs_key a)) in Hin.
  fold (children s2 a) in Hin. apply (Hch a) in Hin; [|done..]. tauto.
Qed.

Lemma recurRemoveAssociation_settles (s0 : Storage) (fuel : nat) :
  ∀ pending a s s',
    recurRemoveAssociation fuel a s = Some (Ok tt s') ->
    shrinks s0 s -> settled s0 ({[a]} ∪ pending) s ->
    shrinks s s' ∧ settled s0 pending s' ∧ children s' a = ∅.
Proof.
  induction fuel as [|fuel IH]; intros pending a s s' H Hs0 Hset; [done|].
  rewrite recurRemoveAssociation_unfold in H.
  destruct (getArray_cases (childs_key a) s)
    as [(s1 & E & _)|(s1 & E & E1 & _)]; rewrite E in H; [done|].
  assert (K1 : shrinks s s1) by (by apply shrinks_same_sets).
  assert (Hset1 : settled s0 ({[a]} ∪ pending) s1).
  { intros x c. unfold children. rewrite !(members_same_sets _ _ _ E1). apply Hset. }
  destruct (remove_children_settles (recurRemoveAssociation fuel) s0 pending a)
    with (l := elements (members (childs_key a) s)) (s := s1) (s' := s')
    as (K2 & Hset2 & Hgone); [|done|eauto using shrinks_trans|done|].
  { intros c t t' Hr Ht Hst. by apply (IH ({[a]} ∪ pending)). }
  assert (Hempty : children s' a = ∅).
  { apply set_eq. intros x. split; [|set_solver]. intros Hx. exfalso.
    apply (Hgone x); [|done]. apply elem_of_elements.
    apply (K2 (childs_key a)) in Hx. by rewrite (members_same_sets _ _ _ E1) in Hx. }
  split; [eauto using shrinks_trans|]. split; [|done].
  intros x c Hc0 Hc. destruct (Hset2 x c Hc0 Hc) as [He|Hp]; [by left|].
  apply elem_of_union in Hp as [Hp|Hp]; [|by right].
  apply elem_of_singleton in Hp as ->. by left.
Qed.

(** X4. After a completed removeAssociation the child of the revoked
    association, and every address reached from it along the child edges that
    held before the call, has no children left: all associations granted
    through the revoked one are gone, those of its other parents included. *)
Theorem removeAssociation_invalidates (fuel : nat) (tx : Transaction) (s s' : Storage) :
  removeAssociation fuel tx s = Some (Ok tt s') ->
  ∀ d, reaches s (party tx) d -> children s' d = ∅.
Proof.
  intros H. unfold removeAssociation in H.
  destruct (srem_cases (childs_key (sender tx)) (party tx) s)
    as [(s1 & E & _)|(s1 & E & E1 & _)]; rewrite E in H; [done|].
  destruct (srem_cases (parents_key (party tx)) (sender tx) s1)
    as [(s2 & E' & _)|(s2 & E' & E2 & _)]; rewrite E' in H; [done|].
  pose proof (children_unlink (sender tx) (party tx) s s1 s2) as Hch.
  assert (K12 : shrinks s s2).
  { eapply shrinks_trans; [by apply (shrinks_srem _ _ _ _ E1)|
                            by apply (shrinks_srem _ _ _ _ E2)]. }
  assert (Hset2 : settled s ({[party tx]} ∪ ∅) s2).
  { intros x c Hc0 Hc2. rewrite (Hch x) in Hc2 by done.
    assert (x = sender tx ∧ c = party tx) as [-> ->] by (apply dec_stable; tauto).
    right. set_solver. }
  destruct (recurRemoveAssociation_settles s fuel ∅ _ _ _ H K12 Hset2)
    as (_ & Hset & Hempty).
  unfold reaches. apply rtc_ind_r; [done|]. intros y z _ Hyz IH.
  destruct (Hset y z Hyz) as [He|Hp]; [by rewrite IH|done|set_solver].
Qed.

Lemma removeAssociation_invalidates_witness :
  ∃ s', removeAssociation 3 revoke_A_B ring = Some (Ok tt s') ∧
        reaches ring "B" "C" ∧ children s' "C" = ∅.
Proof.
  assert (H : ∃ s', removeAssociation 3 revoke_A_B ring = Some (Ok tt s'))
    by (eexists; vm_compute; reflexivity).
  assert (Hr : reaches ring "B" "C")
    by (apply rtc_once; by vm_compute).
  destruct H as [s' H]. exists s'. split; [exact H|]. split; [exact Hr|].
  exact (removeAssociation_invalidates 3 revoke_A_B ring s' H "C" Hr).
Defined.

(** What a call to [srem] takes out of the set store, whatever its outcome. *)
Lemma srem_removes (k x : string) (s : Storage) (k' z : string) :
  z ∈ members k' s -> z ∉ members k' (final (srem k x s)) -> k' = k ∧ z = x.
Proof.
  destruct (srem_cases k x s) as [(s' & -> & E)|(s' & -> & E & _)]; simpl.
  - rewrite (members_same_sets _ _ _ E). tauto.
  - rewrite (members_after_srem _ _ k' _ _ E). case_decide; [|tauto].
    subst. intros Hin Hout. split; [done|]. apply dec_stable. set_solver.
Qed.

Lemma cut_below_same (s0 : Storage) (a : string) (s s' : Storage) :
  sets s' = sets s -> cut_below s0 a s -> cut_below s0 a s'.
Proof. intros E H k z. rewrite (members_same_sets _ _ _ E). apply H. Qed.

Lemma cut_below_step (s0 : Storage) (a c : string) (s s' : Storage) :
  c ∈ children s0 a ->
  cut_below s0 a s ->
  (∀ k z, z ∈ members k s -> z ∉ members k s' ->
          (k = childs_key a ∧ z = c) ∨ (k = parents_key c ∧ z = a)) ->
  cut_below s0 a s'.
Proof.
  intros Hc Hcut Hstep k z Hz0 Hz'.
  destruct (decide (z ∈ members k s)) as [Hin|Hout]; [|by apply Hcut].
  exists a, c. split; [apply rtc_refl|]. split; [done|]. by apply Hstep.
Qed.

Lemma cut_below_deeper (s0 : Storage) (a c : string) (s s' : Storage) :
  c ∈ children s0 a ->
  shrinks s0 s ->
  cut_below s0 a s ->
  cut_below s c s' ->
  cut_below s0 a s'.
Proof.
  intros Hc Hs Hcut Hdeep k z Hz0 Hz'.
  destruct (decide (z ∈ members k s)) as [Hin|Hout]; [|by apply Hcut].
  destruct (Hdeep k z Hin Hz') as (y & c' & Hy & Hc' & Hk).
  exists y, c'. split; [|split; [by apply (Hs (childs_key y))|done]].
  eapply rtc_l; [exact Hc|]. by eapply reaches_mono.
Qed.

Lemma remove_children_cut recur (s0 : Storage) (a : string) :
  (∀ c s o, recur c s = Some o -> cut_below s c (final o) ∧ shrinks s (final o)) ->
  ∀ l s o,
    (∀ c, c ∈ l -> c ∈ children s0 a) ->
    shrinks s0 s -> cut_below s0 a s ->
    remove_children recur a l s = Some o ->
    cut_below s0 a (final o).
Proof.
  intros Hrec l. induction l as [|child rest IH]; intros s o Hl Hs Hcut H; simpl in H.
  { by simplify_eq. }
  assert (Hchild : child ∈ children s0 a) by apply Hl, list_elem_of_here.
  destruct (srem_final (childs_key a) child s) as (K1 & _).
  pose proof (srem_removes (childs_key a) child s) as R1.
  destruct (srem (childs_key a) child s) as [[] s1|e s1]; simpl in *.
  2:{ simplify_eq. simpl. eapply cut_below_step; [done..|].
      intros k z Hz Hz'. left. by apply R1. }
  assert (Hcut1 : cut_below s0 a s1).
  { eapply cut_below_step; [done..|]. intros k z Hz Hz'. left. by apply R1. }
  destruct (srem_final (parents_key child) a s1) as (K2 & _).
  pose proof (srem_removes (parents_key child) a s1) as R2.
  destruct (srem (parents_key child) a s1) as [[] s2|e s2]; simpl in *.
  2:{ simplify_eq. simpl. eapply cut_below_step; [done..|].
      intros k z Hz Hz'. right. by apply R2. }
  assert (Hcut2 : cut_below s0 a s2).
  { eapply cut_below_step; [done..|]. intros k z Hz Hz'. right. by apply R2. }
  assert (Hs2 : shrinks s0 s2) by eauto using shrinks_trans.
  destruct (recur child s2) as [[[] s3|e s3]|] eqn:Hr; [| |done].
  - destruct (Hrec _ _ _ Hr) as [Hdeep K3]. simpl in Hdeep, K3.
    eapply IH; [| | |exact H].
    + intros c Hc. by apply Hl, list_elem_of_further.
    + eauto using shrinks_trans.
    + by eapply cut_below_deeper.
  - destruct (Hrec _ _ _ Hr) as [Hdeep K3]. simplify_eq. simpl in *.
    by eapply cut_below_deeper.
Qed.

Lemma recurRemoveAssociation_cut (fuel : nat) :
  ∀ a s o, recurRemoveAssociation fuel a s = Some o -> cut_below s a (final o).
Proof.
  induction fuel as [|fuel IH]; intros a s o H; [done|].
  rewrite recurRemoveAssociation_unfold in H.
  destruct (getArray_cases (childs_key a) s)
    as [(s1 & E & E1)|(s1 & E & E1 & _)]; rewrite E in H.
  { simplify_eq. simpl. intros k z. rewrite (members_same_sets _ _ _ E1). tauto. }
  eapply (remove_children_cut (recurRemoveAssociation fuel) s a); [| | | |exact H].
  - intros c t o' Hr. split; [by apply IH|].
    by destruct (recurRemoveAssociation_shrinks _ _ _ _ Hr).
  - intros c Hc. by apply elem_of_elements in Hc.
  - by apply shrinks_same_sets.
  - intros k z. rewrite (members_same_sets _ _ _ E1). tauto.
Qed.

(** X5. What removeAssociation takes out of the set store, whatever its
    outcome: entries of the pair of the revoked edge, and entries of the pairs
    of child edges that leave an address reached from the child. The children
    of every other address stay as they were. *)
Theorem removeAssociation_removes_below (fuel : nat) (tx : Transaction) (s : Storage)
    (o : Outcome Storage unit) :
  removeAssociation fuel tx s = Some o ->
  (∀ k z, z ∈ members k s -> z ∉ members k (final o) ->
     (k = childs_key (sender tx) ∧ z = party tx) ∨
     (k = parents_key (party tx) ∧ z = sender tx) ∨
     ∃ y c, reaches s (party tx) y ∧ c ∈ children s y ∧
            ((k = childs_key y ∧ z = c) ∨ (k = parents_key c ∧ z = y))) ∧
  (∀ x, x ≠ sender tx -> ¬ reaches s (party tx) x ->
        children (final o) x = children s x).
Proof.
  intros H.
  assert (Hcut : ∀ k z, z ∈ members k s -> z ∉ members k (final o) ->
     (k = childs_key (sender tx) ∧ z = party tx) ∨
     (k = parents_key (party tx) ∧ z = sender tx) ∨
     ∃ y c, reaches s (party tx) y ∧ c ∈ children s y ∧
            ((k = childs_key y ∧ z = c) ∨ (k = parents_key c ∧ z = y))).
  { unfold removeAssociation in H.
    destruct (srem_final (childs_key (sender tx)) (party tx) s) as (K1 & _).
    pose proof (srem_removes (childs_key (sender tx)) (party tx) s) as R1.
    destruct (srem (childs_key (sender tx)) (party tx) s) as [[] s1|e s1]; simpl in *.
    2:{ simplify_eq. simpl. intros k z Hz Hz'. left. by apply R1. }
    destruct (srem_final (parents_key (party tx)) (sender tx) s1) as (K2 & _).
    pose proof (srem_removes (parents_key (party tx)) (sender tx) s1) as R2.
    destruct (srem (parents_key (party tx)) (sender tx) s1) as [[] s2|e s2]; simpl in *.
    2:{ simplify_eq. simpl. intros k z Hz Hz'.
        destruct (decide (z ∈ members k s1)); [right; left; by apply R2|left; by apply R1]. }
    pose proof (recurRemoveAssociation_cut _ _ _ _ H) as Hdeep.
    intros k z Hz Hz'.
    destruct (decide (z ∈ members k s1)) as [Hin1|]; [|left; by apply R1].
    destruct (decide (z ∈ members k s2)) as [Hin2|]; [|right; left; by apply R2].
    right. right. destruct (Hdeep k z Hin2 Hz') as (y & c & Hy & Hc & Hk).
    exists y, c. split; [|split; [|done]].
    - eapply reaches_mono; [|exact Hy]. eauto using shrinks_trans.
    - by apply (K1 (childs_key y)), (K2 (childs_key y)). }
  split; [exact Hcut|]. intros x Hx Hnr.
  pose proof (removeAssociation_shrinks_aux fuel tx s o H) as K.
  apply set_eq. intros c. split; [apply (K (childs_key x))|].
  intros Hc. apply dec_stable. intros Hout.
  destruct (Hcut _ _ Hc Hout) as [[Hk _]|[[Hk _]|(y & c' & Hy & _ & [[Hk _]|[Hk _]])]].
  - by apply childs_key_inj in Hk.
  - by apply childs_parents_ne in Hk.
  - apply childs_key_inj in Hk. by subst.
  - by apply childs_parents_ne in Hk.
Qed.

Lemma reaches_inv (s : Storage) (a d : string) :
  reaches s a d -> d = a ∨ ∃ p, d ∈ children s p.
Proof.
  unfold reaches. revert d. apply rtc_ind_r; [by left|].
  intros y z _ Hyz _. right. by exists y.
Qed.

Lemma children_family (p c : string) :
  c ∈ children family p ->
  (p = "A" ∧ c = "B") ∨ (p = "B" ∧ (c = "C" ∨ c = "D")).
Proof.
  destruct (decide (p = "A")) as [->|HA].
  { assert (E : children family "A" = {["B"]}) by (vm_compute; reflexivity).
    rewrite E. set_solver. }
  destruct (decide (p = "B")) as [->|HB].
  { assert (E : children family "B" = {["C"; "D"]}) by (vm_compute; reflexivity).
    rewrite E. set_solver. }
  assert (Hc : ∀ a, a ≠ p -> childs_key a ≠ childs_key p)
    by (intros a Ha Hk; by apply childs_key_inj in Hk).
  assert (Hp : ∀ a, parents_key a ≠ childs_key p)
    by (intros a Hk; symmetry in Hk; by apply childs_parents_ne in Hk).
  unfold children, members, family. cbn [sets].
  rewrite lookup_insert_ne by (by apply Hc).
  rewrite lookup_insert_ne by apply Hp.
  rewrite lookup_insert_ne by (by apply Hc).
  rewrite lookup_insert_ne by apply Hp.
  rewrite lookup_singleton_ne by apply Hp.
  cbn [default from_option]. set_solver.
Qed.

Lemma removeAssociation_removes_below_witness :
  ∃ s', removeAssociation 2 revoke_A_B family = Some (Ok tt s') ∧
        "Z" ≠ sender revoke_A_B ∧ ¬ reaches family (party revoke_A_B) "Z" ∧
        children s' "Z" = children family "Z".
Proof.
  assert (H : ∃ s', removeAssociation 2 revoke_A_B family = Some (Ok tt s'))
    by (eexists; vm_compute; reflexivity).
  assert (H1 : "Z" ≠ sender revoke_A_B) by (intros E; discriminate E).
  assert (H2 : ¬ reaches family (party revoke_A_B) "Z").
  { intros Hr. apply reaches_inv in Hr as [Hr|[p Hp]]; [discriminate Hr|].
    apply children_family in Hp as [[_ Hp]|[_ [Hp|Hp]]]; discriminate Hp. }
  destruct H as [s' H]. exists s'. split; [exact H|]. split; [exact H1|].
  split; [exact H2|].
  exact (proj2 (removeAssociation_removes_below 2 revoke_A_B family _ H) "Z" H1 H2).
Defined.

(** X6. On a storage that does not fail, saving an association that was
    not there, to a party without children, and removing it again restores
    every set to the members it had. *)
Theorem saveAssociation_removeAssociation (fuel : nat) (tx : Transaction) (s : Storage) :
  faults s = [] ->
  party tx ∉ children s (sender tx) ->
  sender tx ∉ parents s (party tx) ->
  children s (party tx) = ∅ ->
  ∃ s1 s2, saveAssociation tx s = Ok tt s1 ∧
           removeAssociation (S fuel) tx s1 = Some (Ok tt s2) ∧
           ∀ k, members k s2 = members k s.
Proof.
  intros Hf Hc Hp Hleaf.
  set (t1 := with_sets (<[childs_key (sender tx) :=
                 {[party tx]} ∪ members (childs_key (sender tx)) s]> (sets s)) s).
  set (s1 := with_sets (<[parents_key (party tx) :=
                 {[sender tx]} ∪ members (parents_key (party tx)) t1]> (sets t1)) t1).
  set (t2 := with_sets (<[childs_key (sender tx) :=
                 members (childs_key (sender tx)) s1 ∖ {[party tx]}]> (sets s1)) s1).
  set (s2 := with_sets (<[parents_key (party tx) :=
                 members (parents_key (party tx)) t2 ∖ {[sender tx]}]> (sets t2)) t2).
  assert (Hsave : saveAssociation tx s = Ok tt s1).
  { unfold saveAssociation, bind. rewrite sadd_nofault by done.
    by rewrite (sadd_nofault _ _ t1) by done. }
  assert (Hs1 : ∀ k x, x ∈ members k s1 ↔
            x ∈ members k s ∨ (k = childs_key (sender tx) ∧ x = party tx) ∨
            (k = parents_key (party tx) ∧ x = sender tx))
    by (intros k x; by apply (members_link (sender tx) (party tx) s t1 s1)).
  assert (Hs2 : ∀ k x, x ∈ members k s2 ↔ x ∈ members k s1 ∧
            ¬ ((k = childs_key (sender tx) ∧ x = party tx) ∨
               (k = parents_key (party tx) ∧ x = sender tx)))
    by (intros k x; by apply (members_unlink (sender tx) (party tx) s1 t2 s2)).
  assert (Hback : ∀ k, members k s2 = members k s).
  { intros k. apply set_eq. intros x. rewrite Hs2, Hs1. split.
    - intros [[H|H] Hn]; [done|tauto].
    - intros H. split; [by left|]. intros [[-> ->]|[-> ->]]; tauto. }
  exists s1, s2. split; [done|]. split; [|done].
  unfold removeAssociation. rewrite (srem_nofault _ _ s1) by done.
  rewrite (srem_nofault _ _ t2) by done.
  apply recurRemoveAssociation_leaf; [done|].
  unfold children. by rewrite Hback.
Qed.

Lemma saveAssociation_removeAssociation_witness :
  faults family = [] ∧
  (party issue_C_E ∉ children family (sender issue_C_E)) ∧
  (sender issue_C_E ∉ parents family (party issue_C_E)) ∧
  children family (party issue_C_E) = ∅ ∧
  ∃ s1 s2, saveAssociation issue_C_E family = Ok tt s1 ∧
           removeAssociation 1 issue_C_E s1 = Some (Ok tt s2) ∧
           ∀ k, members k s2 = members k family.
Proof.
  assert (H1 : faults family = []) by reflexivity.
  assert (H2 : party issue_C_E ∉ children family (sender issue_C_E)) by (by vm_compute).
  assert (H3 : sender issue_C_E ∉ parents family (party issue_C_E)) by (by vm_compute).
  assert (H4 : children family (party issue_C_E) = ∅) by (vm_compute; reflexivity).
  repeat (split; [assumption|]).
  exact (saveAssociation_removeAssociation 0 issue_C_E family H1 H2 H3 H4).
Defined.

End AssociationsFurther.

(** ** The checkpoint, continued *)

Section CheckpointFurther.
Import Backend StorageService AnchorMonitorService.

Lemma setValue_Ok (k v : string) (s s' : Storage) :
  setValue k v s = Ok tt s' ->
  values s' = <[k := v]> (values s) ∧ faults s' = tail (faults s) ∧
  objects s' = objects s ∧ sets s' = sets s.
Proof.
  unfold setValue, call. destruct (faults s) as [|[] fs]; intros H; by simplify_eq.
Qed.

Lemma delValue_Ok (k : string) (s s' : Storage) :
  delValue k s = Ok tt s' ->
  values s' = delete k (values s) ∧ faults s' = tail (faults s) ∧
  objects s' = objects s ∧ sets s' = sets s.
Proof.
  unfold delValue, call. destruct (faults s) as [|[] fs]; intros H; by simplify_eq.
Qed.

(** X7. A height saved by saveProcessingHeight is read back by
    getProcessingHeight as that height, 0 and negative heights included,
    unless the read fails. *)
Theorem saveProcessingHeight_getProcessingHeight (h : Z) (s s1 : Storage) :
  saveProcessingHeight h s = Ok tt s1 ->
  head (faults s1) ≠ Some true ->
  ∃ s2, getProcessingHeight s1 = Ok (Some (Js.Int h)) s2.
Proof.
  intros H Hf. apply setValue_Ok in H as (Hv & _).
  rewrite getProcessingHeight_cases. eexists. f_equal.
  rewrite decide_False by done. rewrite Hv, lookup_insert_eq.
  by rewrite String_truthy, <- Number_String.
Qed.

Lemma saveProcessingHeight_getProcessingHeight_witness :
  saveProcessingHeight 0 (checkpointed 41 []) = Ok tt (checkpointed 0 []) ∧
  head (faults (checkpointed 0 [])) ≠ Some true ∧
  ∃ s2, getProcessingHeight (checkpointed 0 []) = Ok (Some (Js.Int 0)) s2.
Proof.
  assert (H1 : saveProcessingHeight 0 (checkpointed 41 []) = Ok tt (checkpointed 0 []))
    by (vm_compute; reflexivity).
  assert (H2 : head (faults (checkpointed 0 [])) ≠ Some true) by (simpl; congruence).
  repeat (split; [assumption|]).
  exact (saveProcessingHeight_getProcessingHeight 0 _ _ H1 H2).
Defined.

End CheckpointFurther.

(** ** Passes, continued *)

Section PassesFurther.
Import Backend StorageService AnchorMonitorService.

Context {Buffer : Type}.
Variable hexEncode : Buffer -> string.
Variable base64Decode : string -> Buffer.
Variable base58Decode : string -> Buffer.
Variable index : Transaction -> M Storage unit.

Local Abbreviation checkNewBlock' :=
  (checkNewBlock hexEncode base64Decode base58Decode).
Local Abbreviation scan' := (scan hexEncode base64Decode base58Decode).
Local Abbreviation processTransaction' :=
  (processTransaction hexEncode base64Decode base58Decode index).

(** The heights that a completed pass fetches. *)
Lemma checkNewBlock_fetches (node : NodeService) (m m' : Monitor) (currentHeight : Z) :
  getLastBlockHeight node = Resolved currentHeight ->
  checkNewBlock' node index m = Ok tt m' ->
  ∃ t, calls m' = calls m ++ t ∧
       fetched_heights t = seqZ (first_height m) (currentHeight + 1 - first_height m).
Proof.
  intros Hcur Hrun.
  pose proof (checkNewBlock_calls hexEncode base64Decode base58Decode node index m) as H.
  rewrite Hrun in H. eexists. split; [exact H|].
  unfold expected_calls. rewrite Hcur. apply fetched_heights_blocks.
Qed.

(** X8. After clearProcessHeight, getProcessingHeight returns null,
    whatever checkpoint was stored, and a pass that then runs to its end
    fetches the heights from the last known height + 1 on. *)
Theorem clearProcessHeight_restarts (node : NodeService) (m m' : Monitor)
    (s1 : Storage) (currentHeight : Z) :
  clearProcessHeight (storage m) = Ok tt s1 ->
  getLastBlockHeight node = Resolved currentHeight ->
  checkNewBlock' node index (with_storage s1 m) = Ok tt m' ->
  (∃ s2, getProcessingHeight s1 = Ok None s2) ∧
  ∃ t, calls m' = calls m ++ t ∧
       fetched_heights t = seqZ (lastBlock m + 1) (currentHeight - lastBlock m).
Proof.
  intros H Hcur Hrun. apply delValue_Ok in H as (Hv & _).
  assert (Hnull : getProcessingHeight s1 =
                  Ok None (with_faults (tail (faults s1)) s1)).
  { rewrite getProcessingHeight_cases, Hv, lookup_delete_eq. f_equal. by case_decide. }
  split; [eauto|].
  destruct (checkNewBlock_fetches node _ _ _ Hcur Hrun) as (t & Hc & Hf).
  exists t. split; [exact Hc|]. rewrite Hf. unfold first_height.
  cbn [storage with_storage lastBlock]. rewrite Hnull. unfold checkpoint_or. simpl.
  f_equal. lia.
Qed.

(** X9. The checkpoint 0, as saveProcessingHeight(0) stores it, and the
    empty text count for nothing when a pass starts: the one is a text that
    reads as the number 0, the other an empty text, and the pass fetches the
    heights from the last known height + 1 on. *)
Theorem falsy_checkpoint_ignored (node : NodeService) (m m' : Monitor)
    (text : string) (currentHeight : Z) :
  values (storage m) !! height_key = Some text ->
  text = Js.String_ 0 ∨ text = ""%string ->
  getLastBlockHeight node = Resolved currentHeight ->
  checkNewBlock' node index m = Ok tt m' ->
  ∃ t, calls m' = calls m ++ t ∧
       fetched_heights t = seqZ (lastBlock m + 1) (currentHeight - lastBlock m).
Proof.
  intros Hv Hn Hcur Hrun.
  destruct (checkNewBlock_fetches node _ _ _ Hcur Hrun) as (t & Hc & Hf).
  exists t. split; [exact Hc|]. rewrite Hf.
  assert (Hfirst : first_height m = lastBlock m + 1).
  { unfold first_height. rewrite getProcessingHeight_cases, Hv.
    case_decide; [done|]. destruct Hn as [-> | ->]; [|done].
    rewrite String_truthy. simpl. by rewrite Number_String. }
  rewrite Hfirst. f_equal. lia.
Qed.

Lemma bind_Ok {S A B} (c : M S A) (k : A -> M S B) (s s' : S) (b : B) :
  bind c k s = Ok b s' -> ∃ a s1, c s = Ok a s1 ∧ k a s1 = Ok b s'.
Proof. unfold bind. destruct (c s) as [a s1|e s1]; [eauto|done]. Qed.

Lemma keeps_ret {A} (a : A) : keeps_fields (ret a).
Proof. by intros m. Qed.

Lemma keeps_bind {A B} (c : M Monitor A) (k : A -> M Monitor B) :
  keeps_fields c -> (∀ a, keeps_fields (k a)) -> keeps_fields (bind c k).
Proof.
  intros Hc Hk m. unfold bind. specialize (Hc m).
  destruct (c m) as [a m1|e m1]; simpl in Hc; [|done].
  specialize (Hk a m1). destruct Hc as [<- <-]. exact Hk.
Qed.

Lemma keeps_on_storage {A} (c : M Storage A) : keeps_fields (on_storage c).
Proof. intros m. unfold on_storage. by destruct (c (storage m)). Qed.

Lemma keeps_on_node {A} (r : Reply A) : keeps_fields (on_node r).
Proof. intros m. by destruct r. Qed.

Lemma keeps_note (c : Call) : keeps_fields (note c).
Proof. by intros m. Qed.

Lemma keeps_for_of {A} (body : A -> M Monitor unit) (l : list A) :
  (∀ x, keeps_fields (body x)) -> keeps_fields (for_of l body).
Proof.
  intros Hb. induction l as [|x l IH]; cbn [for_of]; [apply keeps_ret|].
  apply keeps_bind; [apply Hb|]. intros _. apply IH.
Qed.

Lemma keeps_processTransaction (tx : Transaction) :
  keeps_fields (processTransaction' tx).
Proof.
  unfold processTransaction.
  apply keeps_bind; [apply keeps_on_storage|]. intros _.
  apply keeps_bind; [apply keeps_note|]. intros _.
  destruct (negb _); [apply keeps_ret|].
  assert (Hnative : ∀ l, keeps_fields (fun m : Monitor =>
            Ok tt (foldl (native_anchor_callback hexEncode base58Decode tx) m l))).
  { intros l m. simpl. revert m. induction l as [|a l IH]; intros m; [done|].
    simpl. by destruct (IH (native_anchor_callback hexEncode base58Decode tx m a)). }
  destruct (type tx =? 12), (data tx) as [items|];
    try (destruct (type tx =? 15), (anchors tx); (apply keeps_ret || apply Hnative)).
  apply keeps_for_of. intros item. unfold legacy_item.
  case_decide; [|apply keeps_ret]. unfold await_saveAnchor.
  apply keeps_bind; [apply keeps_on_storage|]. intros _. apply keeps_note.
Qed.

Lemma keeps_scan (node : NodeService) (n : nat) :
  ∀ h, keeps_fields (scan' node index n h).
Proof.
  induction n as [|n IH]; intros h; cbn [scan]; [apply keeps_ret|].
  apply keeps_bind; [apply keeps_on_node|]. intros block.
  apply keeps_bind; [apply keeps_note|]. intros _.
  apply keeps_bind; [apply keeps_for_of, keeps_processTransaction|]. intros _.
  apply keeps_bind; [apply keeps_on_storage|]. intros _.
  apply keeps_bind; [apply keeps_note|]. intros _. apply IH.
Qed.

(** A pass, step by step: the flag, the height of the node, the read of
    the checkpoint, the loop, the flag. *)
Lemma checkNewBlock_unfold (node : NodeService) (m : Monitor) :
  checkNewBlock' node index m =
  match getLastBlockHeight node with
  | Rejected e => Throw e (with_processing true m)
  | Resolved currentHeight =>
      let st := with_faults (tail (faults (storage m))) (storage m) in
      match scan' node index (Z.to_nat (currentHeight + 1 - first_height m))
              (first_height m) (with_storage st (with_processing true m)) with
      | Ok _ m1 => Ok tt (with_processing false m1)
      | Throw e m1 => Throw e m1
      end
  end.
Proof.
  unfold checkNewBlock, first_height.
  unfold bind at 1, set_processing. unfold bind at 1, on_node.
  destruct (getLastBlockHeight node) as [currentHeight|e]; [|done].
  unfold bind at 1, on_storage. cbn [storage with_processing].
  rewrite getProcessingHeight_cases. cbv zeta.
  cbn [lastBlock with_storage with_processing]. unfold bind.
  by destruct (scan' _ _ _ _ _).
Qed.

(** The fields of the monitor after a pass. *)
Lemma checkNewBlock_fields (node : NodeService) (m : Monitor) :
  match checkNewBlock' node index m with
  | Ok _ m' => processing m' = false
  | Throw _ m' => processing m' = true
  end ∧
  lastBlock (final (checkNewBlock' node index m)) = lastBlock m.
Proof.
  rewrite checkNewBlock_unfold.
  destruct (getLastBlockHeight node) as [currentHeight|e]; [|done].
  cbv zeta.
  destruct (keeps_scan node (Z.to_nat (currentHeight + 1 - first_height m))
              (first_height m)
              (with_storage (with_faults (tail (faults (storage m))) (storage m))
                 (with_processing true m))) as [Hp Hl].
  by destruct (scan' _ _ _ _ _) as [[] m1|e m1].
Qed.

(** X10. A pass that runs to its end leaves [processing] unset; a pass
    that throws leaves it set, so that a later turn of [process] scans
    nothing; neither changes [lastBlock]. *)
Theorem checkNewBlock_flag (node : NodeService) (m : Monitor) :
  match checkNewBlock' node index m with
  | Ok _ m' => processing m' = false
  | Throw _ m' =>
      processing m' = true ∧
      ∀ node', process_turn hexEncode base64Decode base58Decode index node' m' = Ok tt m'
  end ∧
  lastBlock (final (checkNewBlock' node index m)) = lastBlock m.
Proof.
  destruct (checkNewBlock_fields node m) as [Hp Hl]. split; [|done].
  destruct (checkNewBlock' node index m) as [[] m'|e m']; [done|].
  split; [done|]. intros node'. unfold process_turn. by rewrite Hp.
Qed.

Lemma on_storage_Ok {A} (c : M Storage A) (m m' : Monitor) (a : A) :
  on_storage c m = Ok a m' ->
  c (storage m) = Ok a (storage m') ∧ m' = with_storage (storage m') m.
Proof.
  unfold on_storage. destruct (c (storage m)) as [a' st|e st]; intros H; by simplify_eq.
Qed.

(** The loop, when it has run to its end over at least one height, has
    left the last of its heights as the checkpoint. *)
Lemma scan_checkpoint (node : NodeService) (n : nat) :
  ∀ h m m', scan' node index (S n) h m = Ok tt m' ->
            values (storage m') !! height_key = Some (Js.String_ (h + Z.of_nat n)).
Proof.
  induction n as [|n IH]; intros h m m' H.
  - cbn [scan] in H.
    apply bind_Ok in H as (block & m1 & _ & H).
    apply bind_Ok in H as ([] & m2 & _ & H).
    apply bind_Ok in H as ([] & m3 & _ & H).
    apply bind_Ok in H as ([] & m4 & Hsave & H).
    apply bind_Ok in H as ([] & m5 & Hnote & H).
    unfold ret in H. unfold note in Hnote. simplify_eq. cbn [storage].
    apply on_storage_Ok in Hsave as [Hsave _]. apply setValue_Ok in Hsave as [-> _].
    rewrite lookup_insert_eq. do 2 f_equal. lia.
  - remember (S n) as k eqn:Ek. cbn [scan] in H.
    apply bind_Ok in H as (block & m1 & _ & H).
    apply bind_Ok in H as ([] & m2 & _ & H).
    apply bind_Ok in H as ([] & m3 & _ & H).
    apply bind_Ok in H as ([] & m4 & _ & H).
    apply bind_Ok in H as ([] & m5 & _ & H).
    rewrite (IH _ _ _ H). do 2 f_equal. lia.
Qed.

(** X11. Two passes in a row that run to their end, the first over at
    least one height and up to a height other than 0, the node then standing
    at least as high: the second resumes right after the first, and together
    they fetch every height from the first height of the first pass to the
    new height of the node, each once and in order. *)
Theorem passes_resume (node1 node2 : NodeService) (m m1 m2 : Monitor)
    (height1 height2 : Z) :
  getLastBlockHeight node1 = Resolved height1 ->
  getLastBlockHeight node2 = Resolved height2 ->
  checkNewBlock' node1 index m = Ok tt m1 ->
  checkNewBlock' node2 index m1 = Ok tt m2 ->
  first_height m <= height1 <= height2 ->
  height1 ≠ 0 ->
  head (faults (storage m1)) ≠ Some true ->
  values (storage m1) !! height_key = Some (Js.String_ height1) ∧
  ∃ t1 t2, calls m1 = calls m ++ t1 ∧ calls m2 = calls m1 ++ t2 ∧
           fetched_heights t2 = seqZ (height1 + 1) (height2 - height1) ∧
           fetched_heights (t1 ++ t2) =
             seqZ (first_height m) (height2 + 1 - first_height m).
Proof.
  intros Hh1 Hh2 Hrun1 Hrun2 Hle Hnz Hf.
  assert (Hcp : values (storage m1) !! height_key = Some (Js.String_ height1)).
  { rewrite checkNewBlock_unfold, Hh1 in Hrun1. cbv zeta in Hrun1.
    destruct (scan' _ _ _ _ _) as [[] m'|e m'] eqn:Hscan in Hrun1; [|done].
    simplify_eq. cbn [storage with_processing].
    replace (Z.to_nat (height1 + 1 - first_height m))
      with (S (Z.to_nat (height1 - first_height m))) in Hscan by lia.
    rewrite (scan_checkpoint _ _ _ _ _ Hscan). do 2 f_equal. lia. }
  split; [exact Hcp|].
  destruct (checkNewBlock_fetches node1 _ _ _ Hh1 Hrun1) as (t1 & Hc1 & Hf1).
  destruct (checkNewBlock_fetches node2 _ _ _ Hh2 Hrun2) as (t2 & Hc2 & Hf2).
  assert (Hfirst : first_height m1 = height1 + 1).
  { unfold first_height. rewrite getProcessingHeight_cases.
    rewrite decide_False by done. rewrite Hcp, String_truthy. simpl.
    rewrite Number_String. unfold checkpoint_or. simpl.
    destruct (height1 =? 0) eqn:E; [lia|done]. }
  rewrite Hfirst in Hf2.
  replace (height2 + 1 - (height1 + 1)) with (height2 - height1) in Hf2 by lia.
  exists t1, t2. split; [done|]. split; [done|]. split; [done|].
  rewrite fetched_heights_app, Hf1, Hf2.
  replace (height2 + 1 - first_height m)
    with ((height1 + 1 - first_height m) + (height2 - height1)) by lia.
  rewrite seqZ_app by lia. do 2 f_equal. lia.
Qed.

Local Abbreviation process' := (process hexEncode base64Decode base58Decode index).
Local Abbreviation start' := (start hexEncode base64Decode base58Decode index).
Local Abbreviation process_turn' :=
  (process_turn hexEncode base64Decode base58Decode index).

Lemma process_turn_fields (node : NodeService) (m : Monitor) :
  lastBlock (final (process_turn' node m)) = lastBlock m.
Proof.
  unfold process_turn. destruct (processing m); [done|].
  apply checkNewBlock_fields.
Qed.

Lemma process_only_rejects (fuel : nat) :
  ∀ nodes m o, process' fuel nodes m = Some o ->
    ∃ e m', o = Throw e m' ∧ lastBlock m' = lastBlock m.
Proof.
  induction fuel as [|fuel IH]; intros nodes m o H; [done|]. cbn [process] in H.
  pose proof (process_turn_fields (nodes O) m) as Hl.
  destruct (process_turn' (nodes O) m) as [[] m1|e m1]; simpl in Hl.
  - destruct (IH _ _ _ H) as (e & m' & -> & Hl'). exists e, m'. split; [done|]. congruence.
  - simplify_eq. eauto.
Qed.

(** X12. [start] never resolves: it runs on, or it rejects, and then
    with [processing] unset; the last known height is then still the
    configured starting height, when one is configured. *)
Theorem start_only_rejects (fuel : nat) (startingBlock : StartingBlock)
    (node : NodeService) (nodes : nat -> NodeService) (m : Monitor)
    (o : Outcome Monitor unit) :
  start' fuel startingBlock node nodes m = Some o ->
  ∃ e m', o = Throw e m' ∧ processing m' = false ∧
          ∀ h, startingBlock = Height h -> lastBlock m' = h.
Proof.
  unfold start, resolve_lastBlock, bind. intros H.
  destruct startingBlock as [|h0].
  - unfold on_node in H. destruct (getLastBlockHeight node) as [h|e].
    + destruct (process' fuel nodes _) as [o'|] eqn:Hp; [|done].
      destruct (process_only_rejects _ _ _ _ Hp) as (e & m' & -> & _).
      simplify_eq. exists e, (with_processing false m'). by repeat split.
    + simplify_eq. exists e, (with_processing false m). by repeat split.
  - unfold ret in H.
    destruct (process' fuel nodes _) as [o'|] eqn:Hp; [|done].
    destruct (process_only_rejects _ _ _ _ Hp) as (e & m' & -> & Hl).
    simplify_eq. exists e, (with_processing false m'). split; [done|]. split; [done|].
    intros h [= <-]. exact Hl.
Qed.

(** X13. The first pass after [resolve_lastBlock], when no checkpoint is
    stored, starts one above the starting height: neither the configured
    starting block nor, for 'last', the block at the node's height is fetched. *)
Theorem starting_block_not_fetched (startingBlock : StartingBlock)
    (node0 node : NodeService) (m m0 m' : Monitor) (currentHeight : Z) :
  resolve_lastBlock startingBlock node0 m = Ok tt m0 ->
  values (storage m) !! height_key = None ->
  getLastBlockHeight node = Resolved currentHeight ->
  checkNewBlock' node index m0 = Ok tt m' ->
  ∃ h, match startingBlock with
       | Last => getLastBlockHeight node0 = Resolved h
       | Height h' => h = h'
       end ∧
       ∃ t, calls m' = calls m ++ t ∧
            fetched_heights t = seqZ (h + 1) (currentHeight - h) ∧
            h ∉ fetched_heights t.
Proof.
  intros Hres Hv Hcur Hrun.
  assert (Hm0 : ∃ h, match startingBlock with
                     | Last => getLastBlockHeight node0 = Resolved h
                     | Height h' => h = h'
                     end ∧ m0 = with_lastBlock h m).
  { unfold resolve_lastBlock, bind in Hres. destruct startingBlock as [|h0].
    - unfold on_node in Hres. destruct (getLastBlockHeight node0) as [h|e]; [|done].
      simplify_eq. eauto.
    - unfold ret in Hres. simplify_eq. eauto. }
  destruct Hm0 as (h & Hh & ->). exists h. split; [exact Hh|].
  destruct (checkNewBlock_fetches node _ _ _ Hcur Hrun) as (t & Hc & Hf).
  exists t. split; [exact Hc|].
  assert (Hfirst : first_height (with_lastBlock h m) = h + 1).
  { unfold first_height. cbn [storage with_lastBlock lastBlock].
    rewrite getProcessingHeight_cases, Hv. by case_decide. }
  rewrite Hfirst in Hf.
  replace (currentHeight + 1 - (h + 1)) with (currentHeight - h) in Hf by lia.
  split; [exact Hf|]. rewrite Hf, elem_of_seqZ. lia.
Qed.

(** *** The checkpoint of a block and its native anchors *)

Lemma fl_ret {A} (a : A) : keeps_in_flight (ret (S := Monitor) a).
Proof. by intros m p. Qed.

Lemma fl_bind {A B} (c : M Monitor A) (k : A -> M Monitor B) :
  keeps_in_flight c -> (∀ a, keeps_in_flight (k a)) -> keeps_in_flight (bind c k).
Proof.
  intros Hc Hk m p Hp. unfold bind. specialize (Hc m p Hp).
  destruct (c m) as [a m1|e m1]; cbn [final] in Hc; [|done]. by apply Hk.
Qed.

Lemma fl_on_storage {A} (c : M Storage A) : keeps_in_flight (on_storage c).
Proof. intros m p Hp. unfold on_storage. by destruct (c (storage m)). Qed.

Lemma fl_on_node {A} (r : Reply A) : keeps_in_flight (on_node r).
Proof. intros m p Hp. by destruct r. Qed.

Lemma fl_note (c : Call) : keeps_in_flight (note c).
Proof. by intros m p. Qed.

Lemma fl_for_of {A} (body : A -> M Monitor unit) (l : list A) :
  (∀ x, keeps_in_flight (body x)) -> keeps_in_flight (for_of l body).
Proof.
  intros Hb. induction l as [|x l IH]; cbn [for_of]; [apply fl_ret|].
  apply fl_bind; [apply Hb|]. intros _. apply IH.
Qed.

Lemma fl_processTransaction (tx : Transaction) :
  keeps_in_flight (processTransaction' tx).
Proof.
  unfold processTransaction.
  apply fl_bind; [apply fl_on_storage|]. intros _.
  apply fl_bind; [apply fl_note|]. intros _.
  destruct (negb _); [apply fl_ret|].
  assert (Hnative : ∀ l, keeps_in_flight (fun m : Monitor =>
            Ok tt (foldl (native_anchor_callback hexEncode base58Decode tx) m l))).
  { intros l m p. cbn [final]. revert m. induction l as [|a l IH]; intros m Hp; [done|].
    cbn [foldl]. apply IH. unfold native_anchor_callback, detached_saveAnchor.
    cbn [inflight]. apply elem_of_app. by left. }
  destruct (type tx =? 12), (data tx) as [items|];
    try (destruct (type tx =? 15), (anchors tx); (apply fl_ret || apply Hnative)).
  apply fl_for_of. intros item. unfold legacy_item.
  case_decide; [|apply fl_ret]. unfold await_saveAnchor.
  apply fl_bind; [apply fl_on_storage|]. intros _. apply fl_note.
Qed.

Lemma fl_scan (node : NodeService) (n : nat) :
  ∀ h, keeps_in_flight (scan' node index n h).
Proof.
  induction n as [|n IH]; intros h; cbn [scan]; [apply fl_ret|].
  apply fl_bind; [apply fl_on_node|]. intros block.
  apply fl_bind; [apply fl_note|]. intros _.
  apply fl_bind; [apply fl_for_of, fl_processTransaction|]. intros _.
  apply fl_bind; [apply fl_on_storage|]. intros _.
  apply fl_bind; [apply fl_note|]. intros _. apply IH.
Qed.

(** The saveAnchor calls of a transaction of type 15 that has been
    processed to the end: made, and none awaited. *)
Lemma processTransaction_unawaited (tx : Transaction) (l : list string) (m m' : Monitor) :
  type tx = 15 -> anchors tx = Some l ->
  processTransaction' tx m = Ok tt m' ->
  inflight m' =
  inflight m ++ map (fun anchor => (hexEncode (base58Decode anchor), id tx)) l.
Proof.
  intros Ht Ha H. destruct (index tx (storage m)) as [[] st|e st] eqn:Ei.
  - rewrite (processTransaction_native hexEncode base64Decode base58Decode index
               tx l m st Ht Ha Ei) in H. by simplify_eq.
  - unfold processTransaction in H. unfold bind at 1 in H. unfold on_storage in H.
    by rewrite Ei in H.
Qed.

Lemma processBlock_unawaited (tx : Transaction) (l : list string) (anchor : string) :
  type tx = 15 -> anchors tx = Some l -> anchor ∈ l ->
  ∀ txs m m',
    tx ∈ txs ->
    for_of txs processTransaction' m = Ok tt m' ->
    (hexEncode (base58Decode anchor), id tx) ∈ inflight m'.
Proof.
  intros Ht Ha Hl txs. induction txs as [|tx0 txs IH]; intros m m' Hin H.
  { by apply not_elem_of_nil in Hin. }
  cbn [for_of] in H. apply bind_Ok in H as ([] & m1 & H1 & H).
  apply elem_of_cons in Hin as [<-|Hin]; [|by apply (IH m1)].
  pose proof (fl_for_of processTransaction' txs fl_processTransaction m1
                (hexEncode (base58Decode anchor), id tx)) as Hkeep.
  rewrite H in Hkeep. apply Hkeep.
  rewrite (processTransaction_unawaited tx l m m1 Ht Ha H1).
  apply elem_of_app. right. apply list_elem_of_fmap. by exists anchor.
Qed.

Lemma scan_unawaited (node : NodeService) (tx : Transaction) (l : list string)
    (anchor : string) (h : Z) (block : Block) :
  type tx = 15 -> anchors tx = Some l -> anchor ∈ l ->
  getBlock node h = Resolved block -> tx ∈ transactions block ->
  ∀ n first m m',
    first <= h < first + Z.of_nat n ->
    scan' node index n first m = Ok tt m' ->
    (hexEncode (base58Decode anchor), id tx) ∈ inflight m'.
Proof.
  intros Ht Ha Hl Hb Hin n. induction n as [|n IH]; intros first m m' Hh H; [lia|].
  cbn [scan] in H.
  apply bind_Ok in H as (block0 & m1 & Hnode & H).
  apply bind_Ok in H as ([] & m2 & _ & H).
  apply bind_Ok in H as ([] & m3 & Hblock & H).
  destruct (decide (h = first)) as [->|Hne].
  - assert (block0 = block) as ->.
    { unfold on_node in Hnode. rewrite Hb in Hnode. by simplify_eq. }
    pose proof (processBlock_unawaited tx l anchor Ht Ha Hl _ _ _ Hin Hblock) as Hm3.
    pose proof (fl_bind _ _ (fl_on_storage (saveProcessingHeight first))
                  (fun _ => fl_bind _ _ (fl_note (SaveProcessingHeight first))
                              (fun _ => fl_scan node n (first + 1))) m3 _ Hm3) as Hkeep.
    by rewrite H in Hkeep.
  - apply bind_Ok in H as ([] & m4 & _ & H).
    apply bind_Ok in H as ([] & m5 & _ & H).
    apply (IH (first + 1) m5); [lia|done].
Qed.

(** C3. The checkpoint of a block is saved while the anchor writes of
    its transactions of type 15 have not been awaited. The loop of a pass,
    run over [n] heights from [first] to its end, has left its last height as
    the checkpoint and has seen saveProcessingHeight(h) resolve for every
    height [h] of these; and of every transaction of type 15 in the block of
    such a height the saveAnchor calls are among the calls made and never
    awaited: no step of the loop has waited for them to complete or has seen
    them fail. With [n] = 1 and [first] = [h] the state is the one in which
    the checkpoint [h] has just been saved. *)
Theorem checkpoint_saved_anchors_unawaited (node : NodeService) (n : nat)
    (first h : Z) (m m' : Monitor) (block : Block) (tx : Transaction)
    (l : list string) :
  scan' node index n first m = Ok tt m' ->
  first <= h < first + Z.of_nat n ->
  getBlock node h = Resolved block ->
  tx ∈ transactions block ->
  type tx = 15 ->
  anchors tx = Some l ->
  values (storage m') !! height_key = Some (Js.String_ (first + Z.of_nat n - 1)) ∧
  (∃ t, calls m' = calls m ++ t ∧ SaveProcessingHeight h ∈ t) ∧
  ∀ anchor, anchor ∈ l ->
    (hexEncode (base58Decode anchor), id tx) ∈ inflight m'.
Proof.
  intros Hrun Hh Hb Hin Ht Ha. split; [|split].
  - destruct n as [|n]; [lia|]. rewrite (scan_checkpoint node n first m m' Hrun).
    do 2 f_equal. lia.
  - pose proof (traced_scan hexEncode base64Decode base58Decode node index n first m)
      as Htr.
    rewrite Hrun in Htr. eexists. split; [exact Htr|].
    unfold pass_calls. apply list_elem_of_bind. exists h.
    split; [|apply elem_of_seqZ; lia].
    unfold block_calls. apply list_elem_of_further, elem_of_app. right.
    apply list_elem_of_here.
  - intros anchor Hl.
    by apply (scan_unawaited node tx l anchor h block Ht Ha Hl Hb Hin n first m m').
Qed.

(** *** A pass that fails, and the pass after it *)

Section Resume.

(** The generic indexer leaves the checkpoint of the scanner alone. *)
Hypothesis index_keeps :
  ∀ tx s, values (final (index tx s)) !! height_key = values s !! height_key.

Lemma cp_ret {A} (a : A) : keeps_checkpoint (ret (S := Monitor) a).
Proof. by intros m. Qed.

Lemma cp_bind {A B} (c : M Monitor A) (k : A -> M Monitor B) :
  keeps_checkpoint c -> (∀ a, keeps_checkpoint (k a)) -> keeps_checkpoint (bind c k).
Proof.
  intros Hc Hk m. unfold bind. specialize (Hc m).
  destruct (c m) as [a m1|e m1]; cbn [final] in Hc; [|done].
  rewrite <- Hc. apply Hk.
Qed.

Lemma cp_on_storage {A} (c : M Storage A) :
  (∀ s, values (final (c s)) !! height_key = values s !! height_key) ->
  keeps_checkpoint (on_storage c).
Proof.
  intros H m. unfold on_storage. specialize (H (storage m)).
  by destruct (c (storage m)).
Qed.

Lemma cp_note (c : Call) : keeps_checkpoint (note c).
Proof. by intros m. Qed.

Lemma cp_for_of {A} (body : A -> M Monitor unit) (l : list A) :
  (∀ x, keeps_checkpoint (body x)) -> keeps_checkpoint (for_of l body).
Proof.
  intros Hb. induction l as [|x l IH]; cbn [for_of]; [apply cp_ret|].
  apply cp_bind; [apply Hb|]. intros _. apply IH.
Qed.

Lemma saveAnchor_values (h t : string) (s : Storage) :
  values (final (saveAnchor h t s)) = values s.
Proof.
  unfold saveAnchor, addObject.
  match goal with |- context [call ?op s] =>
    destruct (call_cases op s) as [E|E]; rewrite E end; done.
Qed.

Lemma cp_processTransaction (tx : Transaction) :
  keeps_checkpoint (processTransaction' tx).
Proof.
  unfold processTransaction.
  apply cp_bind; [apply cp_on_storage, index_keeps|]. intros _.
  apply cp_bind; [apply cp_note|]. intros _.
  destruct (negb _); [apply cp_ret|].
  assert (Hnative : ∀ l, keeps_checkpoint (fun m : Monitor =>
            Ok tt (foldl (native_anchor_callback hexEncode base58Decode tx) m l))).
  { intros l m. cbn [final]. revert m. induction l as [|a l IH]; intros m; [done|].
    cbn [foldl]. by rewrite IH. }
  destruct (type tx =? 12), (data tx) as [items|];
    try (destruct (type tx =? 15), (anchors tx); (apply cp_ret || apply Hnative)).
  apply cp_for_of. intros item. unfold legacy_item.
  case_decide; [|apply cp_ret]. unfold await_saveAnchor.
  apply cp_bind; [|intros _; apply cp_note].
  apply cp_on_storage. intros s. by rewrite saveAnchor_values.
Qed.

(** Processing a block, whatever its outcome, fetches no block and leaves
    the checkpoint as it was. *)
Lemma processBlock_quiet (block : Block) (m : Monitor) :
  ∃ t, calls (final (processBlock hexEncode base64Decode base58Decode index block m)) =
       calls m ++ t ∧
       fetched_heights t = [] ∧
       values (storage (final (processBlock hexEncode base64Decode base58Decode
                                 index block m))) !! height_key =
       values (storage m) !! height_key.
Proof.
  pose proof (traced_processBlock hexEncode base64Decode base58Decode index block m) as Ht.
  pose proof (cp_for_of _ (transactions block) cp_processTransaction m) as Hcp.
  fold (processBlock hexEncode base64Decode base58Decode index block) in Hcp.
  revert Ht Hcp.
  destruct (processBlock _ _ _ _ block m) as [[] m'|e m']; cbn [final]; intros Ht Hcp.
  - eexists. split; [exact Ht|]. split; [apply fetched_heights_transactions|exact Hcp].
  - destruct Ht as (t & [r Hr] & Ht). exists t. split; [exact Ht|]. split; [|exact Hcp].
    pose proof (fetched_heights_transactions hexEncode base64Decode (transactions block))
      as Hnone.
    rewrite Hr, fetched_heights_app in Hnone. by apply app_eq_nil in Hnone as [? _].
Qed.

Lemma bind_Throw {S A B} (c : M S A) (k : A -> M S B) (s s' : S) (e : Error) :
  bind c k s = Throw e s' ->
  c s = Throw e s' ∨ ∃ a s1, c s = Ok a s1 ∧ k a s1 = Throw e s'.
Proof.
  unfold bind. destruct (c s) as [a s1|e1 s1]; intros H.
  - right. by exists a, s1.
  - left. by simplify_eq.
Qed.

(** The loop, when it throws after the checkpoint [h - 1]: it has fetched
    [k] heights from [h] on, and the checkpoint is the last of them, or the
    one before it. *)
Lemma scan_aborted (node : NodeService) (n : nat) :
  ∀ h m m' e,
    scan' node index n h m = Throw e m' ->
    values (storage m) !! height_key = Some (Js.String_ (h - 1)) ->
    ∃ t k c', calls m' = calls m ++ t ∧
              fetched_heights t = seqZ h k ∧ 0 <= k ∧
              values (storage m') !! height_key = Some (Js.String_ c') ∧
              (c' = h - 1 + k ∨ (0 < k ∧ c' = h + k - 2)).
Proof.
  induction n as [|n IH]; intros h m m' e H Hv; [done|].
  cbn [scan] in H.
  apply bind_Throw in H as [H|(block & m1 & Hnode & H)].
  { unfold on_node in H. destruct (getBlock node h); simplify_eq.
    exists [], 0, (h - 1). rewrite app_nil_r. split; [done|]. split; [done|].
    split; [done|]. split; [done|]. left. lia. }
  assert (m1 = m) as -> by (unfold on_node in Hnode; destruct (getBlock node h); by simplify_eq).
  apply bind_Throw in H as [H|([] & m2 & Hnote & H)]; [done|].
  unfold note in Hnote. simplify_eq.
  set (m2 := {| processing := _; lastBlock := _; storage := _; inflight := _;
                calls := _ |}) in H.
  destruct (processBlock_quiet block m2) as (tb & Hcb & Hfb & Hvb).
  cbn [calls storage m2] in Hcb, Hvb.
  apply bind_Throw in H as [H|([] & m3 & Hblock & H)].
  { rewrite H in Hcb, Hvb. cbn [final] in Hcb, Hvb.
    exists (GetBlock h :: tb), 1, (h - 1). split; [by rewrite Hcb, <- (assoc (++))|].
    split; [cbn [fetched_heights omap list_omap]; fold (fetched_heights tb);
            by rewrite Hfb|].
    split; [lia|]. split; [by rewrite Hvb|]. right. lia. }
  rewrite Hblock in Hcb, Hvb. cbn [final] in Hcb, Hvb.
  apply bind_Throw in H as [H|([] & m4 & Hsave & H)].
  { unfold on_storage in H.
    destruct (saveProcessingHeight h (storage m3)) as [[] st|e' st] eqn:Es; [done|].
    simplify_eq. cbn [calls storage with_storage].
    unfold saveProcessingHeight, setValue in Es.
    match type of Es with call ?op _ = _ =>
      destruct (call_cases op (storage m3)) as [E|E]; rewrite E in Es; [|done] end.
    simplify_eq. cbn [values with_faults].
    exists (GetBlock h :: tb), 1, (h - 1). split; [by rewrite Hcb, <- (assoc (++))|].
    split; [cbn [fetched_heights omap list_omap]; fold (fetched_heights tb);
            by rewrite Hfb|].
    split; [lia|]. split; [by rewrite Hvb|]. right. lia. }
  apply on_storage_Ok in Hsave as [Hsave Hm4]. apply setValue_Ok in Hsave as [Hv4 _].
  apply bind_Throw in H as [H|([] & m5 & Hnote & H)]; [done|].
  unfold note in Hnote. simplify_eq.
  apply IH in H as (t & k & c' & Hc & Hf & Hk & Hv' & Hc').
  2:{ cbn [storage]. rewrite Hv4, lookup_insert_eq. do 2 f_equal. lia. }
  cbn [calls] in Hc. rewrite Hm4 in Hc. cbn [calls with_storage] in Hc.
  exists (GetBlock h :: tb ++ SaveProcessingHeight h :: t), (k + 1), c'.
  split; [rewrite Hc, Hcb, <- !(assoc (++)); done|].
  split.
  { change (GetBlock h :: tb ++ SaveProcessingHeight h :: t)
      with ([GetBlock h] ++ tb ++ [SaveProcessingHeight h] ++ t).
    rewrite !fetched_heights_app, Hfb, Hf. cbn [fetched_heights omap list_omap app].
    rewrite (seqZ_cons h (k + 1)) by lia. cbn [app].
    replace (Z.succ h) with (h + 1) by lia.
    by replace (Z.pred (k + 1)) with k by lia. }
  split; [lia|]. split; [exact Hv'|]. lia.
Qed.

Lemma first_height_checkpoint (m : Monitor) (c : Z) :
  values (storage m) !! height_key = Some (Js.String_ c) ->
  c ≠ 0 ->
  head (faults (storage m)) ≠ Some true ->
  first_height m = c + 1.
Proof.
  intros Hv Hc Hf. unfold first_height. rewrite getProcessingHeight_cases.
  rewrite decide_False by done. rewrite Hv, String_truthy. simpl.
  rewrite Number_String. unfold checkpoint_or. simpl.
  destruct (c =? 0) eqn:E; [lia|done].
Qed.

(** X18. A pass that throws, from a stored checkpoint [c] above 0,
    has fetched [k] heights, [k] being 0 or more, from [c + 1] on, in order,
    and has left as the checkpoint the last of them or the one before it;
    the next pass over the storage it left, if it runs to its end, starts
    right after that checkpoint, and goes on to the height of the node:
    no height is left out, and one at most is fetched in both passes. The
    generic indexer is taken to leave the checkpoint alone, and the reads of
    the checkpoint not to fail. *)
Theorem aborted_pass_resumes (node1 node2 : NodeService) (m m1 m1' m2 : Monitor)
    (e : Error) (c height2 : Z) :
  values (storage m) !! height_key = Some (Js.String_ c) ->
  0 < c ->
  head (faults (storage m)) ≠ Some true ->
  checkNewBlock' node1 index m = Throw e m1 ->
  storage m1' = storage m1 ->
  head (faults (storage m1)) ≠ Some true ->
  getLastBlockHeight node2 = Resolved height2 ->
  checkNewBlock' node2 index m1' = Ok tt m2 ->
  ∃ t1 t2 k c',
    calls m1 = calls m ++ t1 ∧ calls m2 = calls m1' ++ t2 ∧
    0 <= k ∧
    fetched_heights t1 = seqZ (c + 1) k ∧
    values (storage m1) !! height_key = Some (Js.String_ c') ∧
    fetched_heights t2 = seqZ (c' + 1) (height2 - c') ∧
    (c' = c + k ∨ (0 < k ∧ c' = c + k - 1)).
Proof.
  intros Hv Hc Hf Hrun1 Hst Hf1 Hh2 Hrun2.
  assert (Hfirst : first_height m = c + 1)
    by (apply first_height_checkpoint; [done|lia|done]).
  assert (Hab : ∃ t1 k c', calls m1 = calls m ++ t1 ∧
                  fetched_heights t1 = seqZ (c + 1) k ∧ 0 <= k ∧
                  values (storage m1) !! height_key = Some (Js.String_ c') ∧
                  (c' = c + k ∨ (0 < k ∧ c' = c + k - 1))).
  { rewrite checkNewBlock_unfold in Hrun1.
    destruct (getLastBlockHeight node1) as [height1|e1].
    - cbv zeta in Hrun1. rewrite Hfirst in Hrun1.
      destruct (scan' _ _ _ _ _) as [[] m'|e' m'] eqn:Hscan in Hrun1; [done|].
      simplify_eq. apply scan_aborted in Hscan as (t & k & c' & H1 & H2 & H3 & H4 & H5).
      + exists t, k, c'. repeat (split; [done|]). lia.
      + cbn [storage with_storage values with_faults]. rewrite Hv. do 2 f_equal. lia.
    - simplify_eq. exists [], 0, c. cbn [calls storage with_processing].
      rewrite app_nil_r. repeat (split; [done|]). left. lia. }
  destruct Hab as (t1 & k & c' & Hc1 & Hf1' & Hk & Hv1 & Hc').
  assert (Hfirst' : first_height m1' = c' + 1).
  { apply first_height_checkpoint; rewrite ?Hst; [done|lia|done]. }
  destruct (checkNewBlock_fetches node2 _ _ _ Hh2 Hrun2) as (t2 & Hc2 & Hf2).
  rewrite Hfirst' in Hf2.
  replace (height2 + 1 - (c' + 1)) with (height2 - c') in Hf2 by lia.
  exists t1, t2, k, c'. done.
Qed.

End Resume.

End PassesFurther.

(** ** The passes, on the sample node *)

Section PassesFurtherSamples.
Import Backend StorageService AnchorMonitorService.

Local Abbreviation pass' := (checkNewBlock plain_encode plain_decode plain_decode).

Lemma checkpoint_saved_anchors_unawaited_witness :
  ∃ m',
    scan plain_encode plain_decode plain_decode (sample_node 8) silent_index 1 7
      (idle_monitor (checkpointed 6 []) 0) = Ok tt m' ∧
    7 <= 7 < 7 + Z.of_nat 1 ∧
    getBlock (sample_node 8) 7 =
      Resolved {| height := 7; transactions := [legacy_anchor; native_anchor] |} ∧
    native_anchor ∈ [legacy_anchor; native_anchor] ∧
    type native_anchor = 15 ∧
    anchors native_anchor = Some ["3yZe7d"%string] ∧
    values (storage m') !! height_key = Some (Js.String_ (7 + Z.of_nat 1 - 1)) ∧
    (∃ t, calls m' = [] ++ t ∧ SaveProcessingHeight 7 ∈ t) ∧
    ∀ anchor, anchor ∈ ["3yZe7d"%string] ->
      (plain_encode (plain_decode anchor), "tx-15"%string) ∈ inflight m'.
Proof.
  set (m := idle_monitor (checkpointed 6 []) 0).
  set (block := {| height := 7; transactions := [legacy_anchor; native_anchor] |}).
  set (m' := final (scan plain_encode plain_decode plain_decode (sample_node 8)
                      silent_index 1 7 m)).
  assert (H1 : scan plain_encode plain_decode plain_decode (sample_node 8)
                 silent_index 1 7 m = Ok tt m') by (vm_compute; reflexivity).
  assert (H2 : 7 <= 7 < 7 + Z.of_nat 1) by (simpl; lia).
  assert (H3 : getBlock (sample_node 8) 7 = Resolved block) by reflexivity.
  assert (H4 : native_anchor ∈ transactions block)
    by apply list_elem_of_further, list_elem_of_here.
  assert (H5 : type native_anchor = 15) by reflexivity.
  assert (H6 : anchors native_anchor = Some ["3yZe7d"%string]) by reflexivity.
  exists m'. split; [exact H1|]. split; [exact H2|]. split; [exact H3|].
  split; [exact H4|]. split; [exact H5|]. split; [exact H6|].
  exact (checkpoint_saved_anchors_unawaited plain_encode plain_decode plain_decode
           silent_index (sample_node 8) 1 7 7 m m' block native_anchor
           ["3yZe7d"%string] H1 H2 H3 H4 H5 H6).
Defined.

Lemma clearProcessHeight_restarts_witness :
  ∃ s1 m',
    clearProcessHeight (checkpointed 5 []) = Ok tt s1 ∧
    getLastBlockHeight (sample_node 4) = Resolved 4 ∧
    pass' (sample_node 4) silent_index
      (with_storage s1 (idle_monitor (checkpointed 5 []) 2)) = Ok tt m' ∧
    (∃ s2, getProcessingHeight s1 = Ok None s2) ∧
    ∃ t, calls m' = [] ++ t ∧ fetched_heights t = seqZ (2 + 1) (4 - 2).
Proof.
  set (m := idle_monitor (checkpointed 5 []) 2).
  set (s1 := final (clearProcessHeight (storage m))).
  set (m' := final (pass' (sample_node 4) silent_index (with_storage s1 m))).
  assert (H1 : clearProcessHeight (storage m) = Ok tt s1) by (vm_compute; reflexivity).
  assert (Hcur : getLastBlockHeight (sample_node 4) = Resolved 4) by reflexivity.
  assert (H2 : pass' (sample_node 4) silent_index (with_storage s1 m) = Ok tt m')
    by (vm_compute; reflexivity).
  exists s1, m'. split; [exact H1|]. split; [exact Hcur|]. split; [exact H2|].
  exact (clearProcessHeight_restarts plain_encode plain_decode plain_decode silent_index
           (sample_node 4) m m' s1 4 H1 Hcur H2).
Defined.

Lemma falsy_checkpoint_ignored_witness :
  ∃ m',
    values (checkpointed 0 []) !! height_key = Some "0"%string ∧
    ("0"%string = Js.String_ 0 ∨ "0"%string = ""%string) ∧
    getLastBlockHeight (sample_node 8) = Resolved 8 ∧
    pass' (sample_node 8) silent_index (idle_monitor (checkpointed 0 []) 5) = Ok tt m' ∧
    ∃ t, calls m' = [] ++ t ∧ fetched_heights t = seqZ (5 + 1) (8 - 5).
Proof.
  set (m := idle_monitor (checkpointed 0 []) 5).
  set (m' := final (pass' (sample_node 8) silent_index m)).
  assert (H1 : values (storage m) !! height_key = Some "0"%string)
    by (vm_compute; reflexivity).
  assert (H2 : "0"%string = Js.String_ 0 ∨ "0"%string = ""%string)
    by (left; vm_compute; reflexivity).
  assert (Hcur : getLastBlockHeight (sample_node 8) = Resolved 8) by reflexivity.
  assert (H3 : pass' (sample_node 8) silent_index m = Ok tt m')
    by (vm_compute; reflexivity).
  exists m'. split; [exact H1|]. split; [exact H2|]. split; [exact Hcur|].
  split; [exact H3|].
  exact (falsy_checkpoint_ignored plain_encode plain_decode plain_decode silent_index
           (sample_node 8) m m' "0" 8 H1 H2 Hcur H3).
Defined.

Lemma passes_resume_witness :
  ∃ m1 m2,
    pass' (sample_node 6) silent_index (idle_monitor (checkpointed 5 []) 10) = Ok tt m1 ∧
    pass' (sample_node 8) silent_index m1 = Ok tt m2 ∧
    values (storage m1) !! height_key = Some (Js.String_ 6) ∧
    ∃ t1 t2, calls m1 = [] ++ t1 ∧ calls m2 = calls m1 ++ t2 ∧
             fetched_heights t2 = seqZ (6 + 1) (8 - 6) ∧
             fetched_heights (t1 ++ t2) = seqZ 6 (8 + 1 - 6).
Proof.
  set (m := idle_monitor (checkpointed 5 []) 10).
  set (m1 := final (pass' (sample_node 6) silent_index m)).
  set (m2 := final (pass' (sample_node 8) silent_index m1)).
  assert (Hc1 : getLastBlockHeight (sample_node 6) = Resolved 6) by reflexivity.
  assert (Hc2 : getLastBlockHeight (sample_node 8) = Resolved 8) by reflexivity.
  assert (H1 : pass' (sample_node 6) silent_index m = Ok tt m1)
    by (vm_compute; reflexivity).
  assert (H2 : pass' (sample_node 8) silent_index m1 = Ok tt m2)
    by (vm_compute; reflexivity).
  assert (Hfirst : first_height m = 6) by (vm_compute; reflexivity).
  assert (Hle : first_height m <= 6 <= 8) by (rewrite Hfirst; lia).
  assert (Hnz : 6 ≠ 0) by lia.
  assert (Hf : head (faults (storage m1)) ≠ Some true)
    by (vm_compute; intros E; discriminate E).
  exists m1, m2. split; [exact H1|]. split; [exact H2|].
  destruct (passes_resume plain_encode plain_decode plain_decode silent_index
              (sample_node 6) (sample_node 8) m m1 m2 6 8 Hc1 Hc2 H1 H2 Hle Hnz Hf)
    as (Hv & t1 & t2 & Ht1 & Ht2 & Hf2 & Hf12).
  split; [exact Hv|]. exists t1, t2. split; [exact Ht1|]. split; [exact Ht2|].
  split; [exact Hf2|]. rewrite Hfirst in Hf12. exact Hf12.
Defined.

Lemma start_only_rejects_witness :
  ∃ o,
    start plain_encode plain_decode plain_decode silent_index 1 (Height 0) broken_node
      (fun _ => broken_node) (idle_monitor empty_storage 7) = Some o ∧
    ∃ e m', o = Throw e m' ∧ processing m' = false ∧
            ∀ h, Height 0 = Height h -> lastBlock m' = h.
Proof.
  set (m := idle_monitor empty_storage 7).
  set (o := Throw (A := unit) NodeUnavailable
              (final (checkNewBlock plain_encode plain_decode plain_decode broken_node
                        silent_index (with_lastBlock 0 m)))).
  assert (H : start plain_encode plain_decode plain_decode silent_index 1 (Height 0)
                broken_node (fun _ => broken_node) m =
              Some (Throw NodeUnavailable (with_processing false (final o))))
    by (vm_compute; reflexivity).
  eexists. split; [exact H|].
  exact (start_only_rejects plain_encode plain_decode plain_decode silent_index 1
           (Height 0) broken_node (fun _ => broken_node) m _ H).
Defined.

Lemma starting_block_not_fetched_witness :
  ∃ m0 m',
    resolve_lastBlock Last (sample_node 6) (idle_monitor empty_storage 0) = Ok tt m0 ∧
    values empty_storage !! height_key = None ∧
    getLastBlockHeight (sample_node 8) = Resolved 8 ∧
    pass' (sample_node 8) silent_index m0 = Ok tt m' ∧
    ∃ h, getLastBlockHeight (sample_node 6) = Resolved h ∧
         ∃ t, calls m' = [] ++ t ∧
              fetched_heights t = seqZ (h + 1) (8 - h) ∧
              h ∉ fetched_heights t.
Proof.
  set (m := idle_monitor empty_storage 0).
  set (m0 := with_lastBlock 6 m).
  set (m' := final (pass' (sample_node 8) silent_index m0)).
  assert (H1 : resolve_lastBlock Last (sample_node 6) m = Ok tt m0) by reflexivity.
  assert (H2 : values (storage m) !! height_key = None) by reflexivity.
  assert (Hcur : getLastBlockHeight (sample_node 8) = Resolved 8) by reflexivity.
  assert (H3 : pass' (sample_node 8) silent_index m0 = Ok tt m')
    by (vm_compute; reflexivity).
  exists m0, m'. split; [exact H1|]. split; [exact H2|]. split; [exact Hcur|].
  split; [exact H3|].
  exact (starting_block_not_fetched plain_encode plain_decode plain_decode silent_index
           Last (sample_node 6) (sample_node 8) m m0 m' 8 H1 H2 Hcur H3).
Defined.

End PassesFurtherSamples.

(** ** Trust roles: granting and resolving *)

Section RolesFurther.
Import Backend StorageService.

Lemma roles_key_inj (a b : string) : roles_key a = roles_key b -> a = b.
Proof. unfold roles_key. apply String.app_inj. Qed.

Lemma replace_prop_names {V} (k : string) (v : V) (props : list (string * V)) :
  map fst (replace_prop k v props) = map fst props.
Proof.
  induction props as [|[k' v'] rest IH]; cbn [replace_prop map fst]; [done|].
  destruct (decide (k' = k)) as [->|Hne]; cbn [map fst]; [done|]. by rewrite IH.
Qed.

Lemma insert_index_names {V} (n : Z) (k : string) (v : V) (props : list (string * V)) :
  map fst (insert_index fst n (k, v) props) =
  insert_index (fun name => name) n k (map fst props).
Proof.
  induction props as [|[k' v'] rest IH]; cbn [insert_index map fst]; [done|].
  destruct (Js.array_index k') as [n'|]; [|done].
  destruct (n' <? n); cbn [map fst]; [by rewrite IH|done].
Qed.

(** The names of an object after [obj[k] = v]. *)
Lemma set_prop_names {V} (k : string) (v : V) (props : list (string * V)) :
  map fst (set_prop k v props) = enumerate_with k (map fst props).
Proof.
  unfold set_prop, enumerate_with.
  destruct (decide (k ∈ map fst props)) as [Hin|Hin]; [apply replace_prop_names|].
  destruct (decide (k = "__proto__"%string)) as [Hp|Hp]; [done|].
  destruct (Js.array_index k) as [i|]; [apply insert_index_names|].
  by rewrite map_app.
Qed.

(** A new array index goes between two parts of the enumeration. *)
Lemma insert_index_split {A} (key : A -> string) (n : Z) (x : A) (l : list A) :
  ∃ l1 l2, l = l1 ++ l2 ∧ insert_index key n x l = l1 ++ x :: l2.
Proof.
  induction l as [|y l IH]; cbn [insert_index]; [by exists [], []|].
  destruct (Js.array_index (key y)) as [n'|]; [|by exists [], (y :: l)].
  destruct (n' <? n); [|by exists [], (y :: l)].
  destruct IH as (l1 & l2 & -> & ->). by exists (y :: l1), l2.
Qed.

(** An assignment leaves the names as they are, or puts the new name
    between two parts of them, and last when it is no array index. *)
Lemma enumerate_with_cases (k : string) (names : list string) :
  (enumerate_with k names = names ∧ (k = "__proto__"%string ∨ k ∈ names)) ∨
  (k ≠ "__proto__"%string ∧ (k ∉ names) ∧
   ∃ l1 l2, names = l1 ++ l2 ∧ enumerate_with k names = l1 ++ k :: l2 ∧
            (Js.array_index k = None -> l2 = [])).
Proof.
  unfold enumerate_with.
  destruct (decide (k ∈ names)) as [Hin|Hin]; [left; auto|].
  destruct (decide (k = "__proto__"%string)) as [Hp|Hp]; [left; auto|].
  right. split; [done|]. split; [done|].
  destruct (Js.array_index k) as [n|].
  - destruct (insert_index_split (fun name => name) n k names) as (l1 & l2 & E1 & E2).
    exists l1, l2. by repeat split.
  - exists names, []. by rewrite app_nil_r.
Qed.

Lemma elem_of_enumerate_with (k x : string) (names : list string) :
  k ≠ "__proto__"%string ->
  x ∈ enumerate_with k names ↔ x = k ∨ x ∈ names.
Proof.
  intros Hp. destruct (enumerate_with_cases k names)
    as [[-> [?|Hin]]|(_ & _ & l1 & l2 & -> & -> & _)]; [done| |].
  - split; [auto|]. by intros [->|?].
  - rewrite !elem_of_app, elem_of_cons. tauto.
Qed.

Lemma foldl_enumerate_existing (l : list string) :
  ∀ acc, (∀ x, x ∈ l -> x ∈ acc) ->
         foldl (fun acc x => enumerate_with x acc) acc l = acc.
Proof.
  induction l as [|x l IH]; intros acc Hsub; [done|]. cbn [foldl].
  assert (Hx : enumerate_with x acc = acc).
  { unfold enumerate_with. rewrite decide_True; [done|].
    apply Hsub, list_elem_of_here. }
  rewrite Hx. apply IH. intros y Hy. by apply Hsub, list_elem_of_further.
Qed.

(** The names of a document after properties have been merged into it. *)
Lemma merge_props_names {V} (new : list (string * V)) :
  ∀ old, map fst (merge_props old new) =
         foldl (fun acc x => enumerate_with x acc) (map fst old) (map fst new).
Proof.
  unfold merge_props. induction new as [|[k v] new IH]; intros old; [done|].
  cbn [foldl map fst snd]. by rewrite IH, set_prop_names.
Qed.

(** The names of a document after [roles[k] = v] has been merged into it. *)
Lemma merge_set_prop_names {V} (k : string) (v : V) (old : list (string * V)) :
  map fst (merge_props old (set_prop k v old)) = enumerate_with k (map fst old).
Proof.
  rewrite merge_props_names, set_prop_names.
  destruct (enumerate_with_cases k (map fst old))
    as [[E _]|(Hp & Hin & l1 & l2 & E1 & E2 & _)].
  - rewrite E. by apply foldl_enumerate_existing.
  - rewrite E2 at 1. rewrite foldl_app. cbn [foldl].
    assert (H1 : foldl (fun acc x => enumerate_with x acc) (map fst old) l1 = map fst old).
    { apply foldl_enumerate_existing. intros x Hx. rewrite E1, elem_of_app. auto. }
    rewrite H1, E2. apply foldl_enumerate_existing. intros x Hx.
    rewrite elem_of_app, elem_of_cons. auto.
Qed.

(** What a completed [saveTrustNetworkRole] leaves in the store. *)
Lemma saveTrustNetworkRole_Ok (recipient sender : string) (data : Role) (s s' : Storage) :
  saveTrustNetworkRole recipient sender data s = Ok tt s' ->
  role_names s' recipient = enumerate_with (role data) (role_names s recipient) ∧
  (∀ k, k ≠ roles_key recipient -> objects s' !! k = objects s !! k) ∧
  values s' = values s ∧ sets s' = sets s.
Proof.
  unfold saveTrustNetworkRole, bind, getObject. intros H.
  match type of H with context [call ?op s] =>
    destruct (call_cases op s) as [E|E]; rewrite E in H; [done|] end.
  cbn [fst snd] in H. unfold addObject in H.
  match type of H with call ?op ?s0 = _ =>
    destruct (call_cases op s0) as [E'|E']; rewrite E' in H; [done|] end.
  simplify_eq. cbn [fst snd]. split; [|split; [|done]].
  - unfold role_names, read_object. cbn [objects with_objects with_faults].
    rewrite lookup_insert_eq. cbn [default from_option Datatypes.id props_of].
    apply merge_set_prop_names.
  - intros k Hk. cbn [objects with_objects with_faults]. by rewrite lookup_insert_ne.
Qed.

Lemma dedup_by_sub {A K} `{EqDecision K} (key : A -> K) (l : list A) (x : A) :
  x ∈ dedup_by key l -> x ∈ l.
Proof.
  revert x. induction l as [|y l IH]; intros x; simpl; [done|].
  rewrite !elem_of_cons, list_elem_of_filter. intros [->|[_ Hx]]; auto.
Qed.

Lemma dedup_by_keys {A K} `{EqDecision K} (key : A -> K) (l : list A) (k : K) :
  k ∈ key <$> l -> k ∈ key <$> dedup_by key l.
Proof.
  induction l as [|y l IH]; simpl; [done|].
  rewrite !elem_of_cons. intros [->|Hk]; [by left|].
  destruct (decide (k = key y)) as [->|Hne]; [by left|]. right.
  apply IH in Hk. apply list_elem_of_fmap in Hk as (z & -> & Hz).
  apply list_elem_of_fmap. exists z. split; [done|].
  apply list_elem_of_filter. by split.
Qed.

Lemma dedup_by_NoDup {A K} `{EqDecision K} (key : A -> K) (l : list A) :
  NoDup (key <$> dedup_by key l).
Proof.
  induction l as [|y l IH]; simpl; [apply NoDup_nil_2|].
  apply NoDup_cons. split.
  - rewrite list_elem_of_fmap. intros (z & Hk & Hz).
    apply list_elem_of_filter in Hz as [Hz _]. by apply Hz.
  - eapply sublist_NoDup; [exact IH|]. apply fmap_sublist, sublist_filter.
Qed.

(** [configRoles[role]] is truthy for the names of the table and for the
    names that a plain object inherits; only an entry of the table has roles
    to issue or authorizations. *)
Lemma config_of_is_Some (table : gmap string RoleConfig) (name : string) :
  is_Some (config_of table name) ↔ is_Some (table !! name) ∨ name ∈ Js.Object_prototype.
Proof.
  unfold config_of. destruct (table !! name) as [config|].
  - split; [by left|by eauto].
  - case_decide as Hp.
    + split; [by right|by eauto].
    + split; [by intros [? ?]|]. intros [[? ?]|?]; done.
Qed.

Lemma config_of_own (table : gmap string RoleConfig) (name : string)
    (config : RoleConfig) :
  config_of table name = Some config ->
  table !! name = Some config ∨ (issues config = None ∧ authorization config = None).
Proof.
  unfold config_of. destruct (table !! name) as [config'|]; [by left|].
  case_decide; [|done]. intros [= <-]. by right.
Qed.

(** The result of the loop when a name for which [configRoles[role]] is
    not truthy stands among the assigned names. *)
Lemma listed_without (table : gmap string RoleConfig) (k : string) (l1 l2 : list string) :
  config_of table k = None ->
  listed table (l1 ++ k :: l2) = listed table (l1 ++ l2).
Proof.
  intros Hnone. unfold listed. rewrite !filter_app.
  rewrite (filter_cons_False _ k); [done|]. rewrite Hnone. by intros [? ?].
Qed.

(** X14. A role granted by a completed saveTrustNetworkRole, under a
    name other than __proto__ that the role table defines, is among the roles
    that getTrustNetworkRoles then returns for the recipient, with the name
    of every role that its table entry may issue and with every authorization
    of the entry; granted for the first time under a name that is no array
    index, it comes last among the roles. *)
Theorem saveTrustNetworkRole_grants (table : gmap string RoleConfig)
    (recipient sender : string) (data : Role) (config : RoleConfig)
    (s s1 s2 : Storage) (r : RoleData) :
  saveTrustNetworkRole recipient sender data s = Ok tt s1 ->
  role data ≠ "__proto__"%string ->
  table !! role data = Some config ->
  getTrustNetworkRoles table recipient s1 = Ok r s2 ->
  role data ∈ roles r ∧
  (∀ x, x ∈ default [] (issues config) -> role x ∈ role <$> issues_roles r) ∧
  (∀ a, a ∈ default [] (authorization config) -> a ∈ issues_authorization r) ∧
  (role data ∉ role_names s recipient ->
   Js.array_index (role data) = None ->
   ∀ r0 s0, getTrustNetworkRoles table recipient s = Ok r0 s0 ->
            roles r = roles r0 ++ [role data]).
Proof.
  intros Hsave Hproto Htable Hget.
  apply saveTrustNetworkRole_Ok in Hsave as (Hnames & _).
  apply getTrustNetworkRoles_Ok in Hget as ->.
  assert (Hconf : config_of table (role data) = Some config)
    by (unfold config_of; by rewrite Htable).
  assert (Hin : role data ∈ role_names s1 recipient).
  { rewrite Hnames. apply elem_of_enumerate_with; auto. }
  assert (Hpresent : role data ∈
            filter (fun name => is_Some (config_of table name)) (role_names s1 recipient)).
  { apply list_elem_of_filter. split; [by rewrite Hconf|done]. }
  assert (Hconfig : config ∈
            omap (config_of table)
              (filter (fun name => is_Some (config_of table name))
                 (role_names s1 recipient))).
  { apply list_elem_of_omap. by exists (role data). }
  unfold listed. cbn [roles issues_roles issues_authorization].
  split; [exact Hpresent|]. split; [|split].
  - intros x Hx. apply dedup_by_keys. apply list_elem_of_fmap. exists x.
    split; [done|]. apply list_elem_of_bind. by exists config.
  - intros a Ha.
    assert (H : a ∈ (fun scope : string => scope) <$>
                  dedup_by (fun scope : string => scope)
                    (omap (config_of table)
                       (filter (fun name => is_Some (config_of table name))
                          (role_names s1 recipient)) ≫=
                     fun config => default [] (authorization config))).
    { apply dedup_by_keys. rewrite list_fmap_id. apply list_elem_of_bind. by exists config. }
    by rewrite list_fmap_id in H.
  - intros Hnew Hidx r0 s0 Hget0. apply getTrustNetworkRoles_Ok in Hget0 as ->.
    cbn [roles listed]. rewrite Hnames.
    destruct (enumerate_with_cases (role data) (role_names s recipient))
      as [[_ [?|?]]|(_ & _ & l1 & l2 & E1 & -> & Hlast)]; [done|done|].
    rewrite (Hlast Hidx) in E1 |- *. rewrite app_nil_r in E1. subst l1.
    rewrite filter_app. f_equal. rewrite filter_cons_True by (by rewrite Hconf). done.
Qed.

(** X15. A completed saveTrustNetworkRole, of a role under a name other
    than __proto__, leaves what getTrustNetworkRoles returns as it was for
    every other address, and for the recipient too when [configRoles[role]]
    is not truthy for the role (the table has no entry of that name and a
    plain object inherits no member of that name) or when the recipient held
    the role already: a role granted again is listed once. *)
Theorem saveTrustNetworkRole_unchanged (table : gmap string RoleConfig)
    (recipient sender : string) (data : Role) (s s1 : Storage) (address : string) :
  saveTrustNetworkRole recipient sender data s = Ok tt s1 ->
  role data ≠ "__proto__"%string ->
  address ≠ recipient ∨
    (table !! role data = None ∧ role data ∉ Js.Object_prototype) ∨
    role data ∈ role_names s recipient ->
  ∀ r0 s0 r s2,
    getTrustNetworkRoles table address s = Ok r0 s0 ->
    getTrustNetworkRoles table address s1 = Ok r s2 ->
    r = r0.
Proof.
  intros Hsave Hproto Hcase r0 s0 r s2 Hget0 Hget.
  apply saveTrustNetworkRole_Ok in Hsave as (Hnames & Hother & _).
  apply getTrustNetworkRoles_Ok in Hget0 as ->.
  apply getTrustNetworkRoles_Ok in Hget as ->.
  destruct (decide (address = recipient)) as [->|Hne].
  - rewrite Hnames.
    destruct (enumerate_with_cases (role data) (role_names s recipient))
      as [[-> _]|(_ & Hnew & l1 & l2 & E1 & -> & _)]; [done|].
    destruct Hcase as [?|[[Hnone Hnp]|Hheld]]; [done| |done].
    rewrite E1. apply listed_without. unfold config_of. rewrite Hnone.
    by rewrite decide_False.
  - f_equal. unfold role_names, read_object. rewrite Hother; [done|].
    intros E. by apply roles_key_inj in E.
Qed.

(** X16. What getTrustNetworkRoles returns: the roles are the stored
    role names that the role table defines or that name a member of
    [Object.prototype]; every role to issue and every authorization comes
    from the table entry of one of these roles; no two roles to issue bear
    one name, and no authorization is listed twice. *)
Theorem getTrustNetworkRoles_sound (table : gmap string RoleConfig) (address : string)
    (s s' : Storage) (r : RoleData) :
  getTrustNetworkRoles table address s = Ok r s' ->
  (∀ name, name ∈ roles r ↔
           name ∈ role_names s address ∧
           (is_Some (table !! name) ∨ name ∈ Js.Object_prototype)) ∧
  (∀ x, x ∈ issues_roles r ->
        ∃ name config, name ∈ roles r ∧ table !! name = Some config ∧
                       x ∈ default [] (issues config)) ∧
  (∀ a, a ∈ issues_authorization r ->
        ∃ name config, name ∈ roles r ∧ table !! name = Some config ∧
                       a ∈ default [] (authorization config)) ∧
  NoDup (role <$> issues_roles r) ∧ NoDup (issues_authorization r).
Proof.
  intros Hget. apply getTrustNetworkRoles_Ok in Hget as ->.
  unfold listed. cbn [roles issues_roles issues_authorization].
  assert (Hfrom : ∀ {B} (f : RoleConfig -> list B) (x : B),
            x ∈ (omap (config_of table)
                   (filter (fun name => is_Some (config_of table name))
                      (role_names s address))
                 ≫= f) ->
            ∃ name config,
              name ∈ filter (fun name => is_Some (config_of table name))
                       (role_names s address) ∧
              config_of table name = Some config ∧ x ∈ f config).
  { intros B f x Hx. apply list_elem_of_bind in Hx as (config & Hx & Hc).
    apply list_elem_of_omap in Hc as (name & Hname & Hc). by exists name, config. }
  split; [|split; [|split; [|split]]].
  - intros name. rewrite list_elem_of_filter, config_of_is_Some. tauto.
  - intros x Hx. apply dedup_by_sub in Hx. apply Hfrom in Hx as (name & config & Hn & Hc & Hx).
    exists name, config. split; [done|]. split; [|done].
    apply config_of_own in Hc as [Hc|[Hi _]]; [done|]. rewrite Hi in Hx.
    by apply not_elem_of_nil in Hx.
  - intros a Ha. apply dedup_by_sub in Ha. apply Hfrom in Ha as (name & config & Hn & Hc & Ha).
    exists name, config. split; [done|]. split; [|done].
    apply config_of_own in Hc as [Hc|[_ Hi]]; [done|]. rewrite Hi in Ha.
    by apply not_elem_of_nil in Ha.
  - apply dedup_by_NoDup.
  - rewrite <- (list_fmap_id (dedup_by _ _)). apply dedup_by_NoDup.
Qed.

Lemma filter_on {A} (P Q : A -> Prop) `{∀ x, Decision (P x)} `{∀ x, Decision (Q x)}
    (l : list A) :
  (∀ x, x ∈ l -> P x ↔ Q x) -> filter P l = filter Q l.
Proof.
  induction l as [|x l IH]; intros Hl; [done|].
  assert (Hx : P x ↔ Q x) by (apply Hl, list_elem_of_here).
  assert (Hr : filter P l = filter Q l)
    by (apply IH; intros y Hy; by apply Hl, list_elem_of_further).
  destruct (decide (P x)) as [HP|HP].
  - rewrite !filter_cons_True by tauto. by rewrite Hr.
  - rewrite !filter_cons_False by tauto. exact Hr.
Qed.

Lemma omap_on {A B} (f g : A -> option B) (l : list A) :
  (∀ x, x ∈ l -> f x = g x) -> omap f l = omap g l.
Proof.
  induction l as [|x l IH]; intros Hl; [done|]. cbn [omap list_omap].
  rewrite (Hl x) by apply list_elem_of_here.
  rewrite IH; [done|]. intros y Hy. by apply Hl, list_elem_of_further.
Qed.

(** X24. When no assigned role name is the name of a member of
    [Object.prototype] that the role table lacks, getTrustNetworkRoles
    returns what the specification words as getRoles: the assigned names that
    the table defines, the roles these may issue, deduplicated by name, the
    first occurrence winning, and their authorizations, each once. *)
Theorem getTrustNetworkRoles_as_specified (table : gmap string RoleConfig)
    (address : string) (s s' : Storage) (r : RoleData) :
  getTrustNetworkRoles table address s = Ok r s' ->
  (∀ name, name ∈ role_names s address -> name ∈ Js.Object_prototype ->
           is_Some (table !! name)) ->
  r = getRoles table (role_names s address).
Proof.
  intros Hget Hplain. apply getTrustNetworkRoles_Ok in Hget as ->.
  assert (Hsame : ∀ name, name ∈ role_names s address ->
                          config_of table name = table !! name).
  { intros name Hin. unfold config_of.
    destruct (table !! name) as [config|] eqn:E; [done|].
    case_decide as Hp; [|done]. destruct (Hplain name Hin Hp) as [? ?]. congruence. }
  unfold listed, getRoles.
  assert (Hpresent : filter (fun name => is_Some (config_of table name))
                       (role_names s address) =
                     filter (fun name => is_Some (table !! name)) (role_names s address)).
  { apply filter_on. intros name Hin. by rewrite Hsame. }
  rewrite Hpresent.
  assert (Hconfigs : omap (config_of table)
                       (filter (fun name => is_Some (table !! name))
                          (role_names s address)) =
                     omap (fun name => table !! name)
                       (filter (fun name => is_Some (table !! name))
                          (role_names s address))).
  { apply omap_on. intros name Hin. apply Hsame.
    by apply list_elem_of_filter in Hin as [_ ?]. }
  by rewrite Hconfigs.
Qed.

End RolesFurther.

(** ** What indexing a transaction writes *)

Section TransactionsFurther.
Import Backend StorageService AnchorMonitorService.

Context {Buffer : Type}.
Variable hexEncode : Buffer -> string.
Variable base64Decode : string -> Buffer.
Variable base58Decode : string -> Buffer.
Variable index : Transaction -> M Storage unit.

Local Abbreviation processTransaction'' :=
  (processTransaction hexEncode base64Decode base58Decode index).
Local Abbreviation legacy_item'' := (legacy_item hexEncode base64Decode).

(** [saveAnchor], whatever its outcome, adds at most the id it is given. *)
Lemma saveAnchor_final (h t : string) (s : Storage) (h' : string) :
  anchor_entries (final (saveAnchor h t s)) h' ⊆ anchor_entries s h' ∪ {[t]}.
Proof.
  destruct (saveAnchor h t s) as [[] s'|e s'] eqn:E; cbn [final].
  - rewrite (saveAnchor_Ok _ _ _ _ E h'). case_decide; set_solver.
  - unfold saveAnchor, addObject in E.
    match type of E with call ?op _ = _ =>
      destruct (call_cases op s) as [E'|E']; rewrite E' in E; [|done] end.
    simplify_eq. unfold anchor_entries, read_object.
    cbn [objects with_faults]. set_solver.
Qed.

Lemma legacy_item_own (tx : Transaction) (item : DataItem) (m : Monitor) :
  (∀ h, anchor_entries (storage (final (legacy_item'' tx item m))) h ⊆
        anchor_entries (storage m) h ∪ {[id tx]}) ∧
  inflight (final (legacy_item'' tx item m)) = inflight m ∧
  (item_key item ≠ anchorToken -> storage (final (legacy_item'' tx item m)) = storage m).
Proof.
  unfold legacy_item. case_decide as Hk.
  - unfold await_saveAnchor, bind, on_storage, note.
    pose proof (saveAnchor_final
      (hexEncode (base64Decode (Js.replace "base64:" "" (item_value item))))
      (id tx) (storage m)) as Hs. revert Hs.
    destruct (saveAnchor _ _ (storage m)) as [[] st|e st];
      cbn [final storage inflight with_storage]; intros Hs; by repeat split.
  - unfold ret. cbn [final]. split; [set_solver|done].
Qed.

Lemma legacy_items_own (tx : Transaction) (items : list DataItem) :
  ∀ m,
    (∀ h, anchor_entries (storage (final (for_of items (legacy_item'' tx) m))) h ⊆
          anchor_entries (storage m) h ∪ {[id tx]}) ∧
    inflight (final (for_of items (legacy_item'' tx) m)) = inflight m ∧
    ((∀ item, item ∈ items -> item_key item ≠ anchorToken) ->
     storage (final (for_of items (legacy_item'' tx) m)) = storage m).
Proof.
  induction items as [|item items IH]; intros m; cbn [for_of].
  { unfold ret. cbn [final]. split; [set_solver|done]. }
  unfold bind. destruct (legacy_item_own tx item m) as (H1 & H2 & H3). revert H1 H2 H3.
  destruct (legacy_item'' tx item m) as [[] m1|e m1]; cbn [final]; intros H1 H2 H3.
  - destruct (IH m1) as (I1 & I2 & I3). split; [|split].
    + intros h. specialize (H1 h). specialize (I1 h). set_solver.
    + congruence.
    + intros Hno. rewrite I3, H3; [done| |].
      * apply Hno, list_elem_of_here.
      * intros item' Hin. apply Hno. by apply list_elem_of_further.
  - split; [exact H1|split; [exact H2|]]. intros Hno. apply H3, Hno, list_elem_of_here.
Qed.

Lemma native_anchors_inflight (tx : Transaction) (l : list string) :
  ∀ m, storage (foldl (native_anchor_callback hexEncode base58Decode tx) m l) = storage m ∧
       inflight (foldl (native_anchor_callback hexEncode base58Decode tx) m l) =
       inflight m ++ map (fun anchor => (hexEncode (base58Decode anchor), id tx)) l.
Proof.
  induction l as [|a l IH]; intros m; cbn [foldl map].
  { by rewrite app_nil_r. }
  destruct (IH (native_anchor_callback hexEncode base58Decode tx m a)) as [-> ->].
  unfold native_anchor_callback, detached_saveAnchor. cbn [storage inflight].
  by rewrite <- (assoc (++)).
Qed.

(** X17. Whatever its outcome, processTransaction adds to the anchor
    records no id but that of the transaction, provided the generic indexer
    leaves them alone; it adds none unless the type is 12 and a data item
    bears the anchor key; the saveAnchor calls it leaves in flight all carry
    the id of the transaction, and there are none unless the type is 15 and
    the transaction has anchors. *)
Theorem processTransaction_own_id (tx : Transaction) (m : Monitor) :
  (∀ s h, anchor_entries (final (index tx s)) h = anchor_entries s h) ->
  (∀ h, anchor_entries (storage (final (processTransaction'' tx m))) h ⊆
        anchor_entries (storage m) h ∪ {[id tx]}) ∧
  (type tx ≠ 12 ∨
   (∀ items item, data tx = Some items -> item ∈ items -> item_key item ≠ anchorToken) ->
   ∀ h, anchor_entries (storage (final (processTransaction'' tx m))) h =
        anchor_entries (storage m) h) ∧
  ∃ l, inflight (final (processTransaction'' tx m)) = inflight m ++ l ∧
       (∀ p, p ∈ l -> p.2 = id tx) ∧
       (type tx ≠ 15 ∨ anchors tx = None -> l = []).
Proof.
  intros Hidx.
  assert (Hidle : ∀ m' : Monitor,
    (∀ h, anchor_entries (storage m') h = anchor_entries (storage m) h) ->
    inflight m' = inflight m ->
    (∀ h, anchor_entries (storage m') h ⊆ anchor_entries (storage m) h ∪ {[id tx]}) ∧
    (type tx ≠ 12 ∨
     (∀ items item, data tx = Some items -> item ∈ items -> item_key item ≠ anchorToken) ->
     ∀ h, anchor_entries (storage m') h = anchor_entries (storage m) h) ∧
    ∃ l, inflight m' = inflight m ++ l ∧
         (∀ p, p ∈ l -> p.2 = id tx) ∧
         (type tx ≠ 15 ∨ anchors tx = None -> l = [])).
  { intros m' He Hi. split; [intros h; rewrite He; set_solver|]. split; [done|].
    exists []. rewrite app_nil_r. split; [done|]. split; [|done].
    intros p Hp. by apply not_elem_of_nil in Hp. }
  set (m' := final (processTransaction'' tx m)).
  assert (Em' : m' = final (processTransaction'' tx m)) by reflexivity. clearbody m'.
  unfold processTransaction in Em'. unfold bind at 1 in Em'. unfold on_storage in Em'.
  pose proof (Hidx (storage m)) as Hst. revert Hst Em'.
  destruct (index tx (storage m)) as [[] st|e st]; cbn [final]; intros Hst Em';
    [|subst m'; by apply Hidle].
  unfold bind at 1 in Em'. unfold note in Em'.
  set (m1 := {| processing := _; lastBlock := _; storage := _; inflight := _;
                calls := _ |}) in Em'.
  assert (Hst1 : ∀ h, anchor_entries (storage m1) h = anchor_entries (storage m) h)
    by exact Hst.
  assert (Hfl1 : inflight m1 = inflight m) by reflexivity.
  clearbody m1. revert Em'.
  destruct (negb _); [intros ->; by apply Hidle|].
  destruct (type tx =? 12) eqn:E12; [destruct (data tx) as [items|] eqn:Ed|].
  - intros ->. destruct (legacy_items_own tx items m1) as (H1 & H2 & H3).
    split; [|split].
    + intros h. specialize (H1 h). rewrite Hst1 in H1. exact H1.
    + intros [Hne|Hno] h.
      * apply Z.eqb_eq in E12. done.
      * rewrite H3; [apply Hst1|]. intros item. by apply Hno.
    + exists []. rewrite app_nil_r. split; [congruence|]. split; [|done].
      intros p Hp. by apply not_elem_of_nil in Hp.
  - destruct (type tx =? 15) eqn:E15; [apply Z.eqb_eq in E12, E15; congruence|].
    intros ->. by apply Hidle.
  - destruct (type tx =? 15) eqn:E15; [destruct (anchors tx) as [l|] eqn:Ea|];
      try (intros ->; by apply Hidle).
    cbn [final]. intros ->.
    destruct (native_anchors_inflight tx l m1) as [Hs Hf]. split; [|split].
    + intros h. rewrite Hs, Hst1. set_solver.
    + intros _ h. by rewrite Hs, Hst1.
    + eexists. split; [rewrite Hf, Hfl1; reflexivity|]. split.
      * intros p Hp. apply list_elem_of_fmap in Hp as (a & -> & _). done.
      * intros [Hne|Hnone]; [|done]. apply Z.eqb_eq in E15. done.
Qed.

Local Abbreviation legacy_hashes' := (legacy_hashes hexEncode base64Decode).
Local Abbreviation anchored' := (anchored hexEncode base64Decode).

(** The anchor records after the loop over the data items has run to its end. *)
Lemma legacy_items_entries (tx : Transaction) (items : list DataItem) :
  ∀ m m', for_of items (legacy_item'' tx) m = Ok tt m' ->
    ∀ h, anchor_entries (storage m') h =
         if decide (anchor_key h ∈ anchor_key <$> legacy_hashes' items)
         then {[id tx]} ∪ anchor_entries (storage m) h
         else anchor_entries (storage m) h.
Proof.
  induction items as [|item items IH]; intros m m' H h; cbn [for_of] in H.
  { unfold ret in H. simplify_eq. rewrite decide_False; [done|]. apply not_elem_of_nil. }
  unfold bind in H.
  destruct (legacy_item'' tx item m) as [[] m1|e m1] eqn:Hitem; [|done].
  rewrite (IH _ _ H h). unfold legacy_hashes. cbn [omap list_omap].
  fold (legacy_hashes' items). unfold legacy_item in Hitem.
  destruct (decide (item_key item = anchorToken)) as [Hk|Hk].
  - apply await_saveAnchor_Ok in Hitem as (Hs & _ & _).
    rewrite (saveAnchor_Ok _ _ _ _ Hs h). cbn [fmap list_fmap].
    fold (fmap anchor_key (legacy_hashes' items)).
    repeat case_decide; try set_solver; exfalso;
      match goal with
      | H : _ ∉ _ :: _ |- _ => apply not_elem_of_cons in H as [? ?]
      | H : _ ∈ _ :: _ |- _ => apply elem_of_cons in H as [?|?]
      end; done.
  - unfold ret in Hitem. by simplify_eq.
Qed.

(** The anchor records after a transaction has been processed to the end. *)
Lemma processTransaction_entries (tx : Transaction) (m m' : Monitor) :
  (∀ s h, anchor_entries (final (index tx s)) h = anchor_entries s h) ->
  processTransaction'' tx m = Ok tt m' ->
  ∀ h, anchor_entries (storage m') h =
       if anchored' tx h then {[id tx]} ∪ anchor_entries (storage m) h
       else anchor_entries (storage m) h.
Proof.
  intros Hidx H h. unfold processTransaction in H. unfold bind at 1 in H.
  unfold on_storage in H. pose proof (Hidx (storage m) h) as Hst. revert Hst H.
  destruct (index tx (storage m)) as [[] st|e st]; cbn [final]; intros Hst H; [|done].
  unfold bind at 1 in H. unfold note in H.
  set (m1 := {| processing := _; lastBlock := _; storage := _; inflight := _;
                calls := _ |}) in H.
  assert (Hst1 : anchor_entries (storage m1) h = anchor_entries (storage m) h)
    by exact Hst.
  clearbody m1. unfold anchored. revert H.
  destruct (negb _) eqn:Hskip.
  { intros H. unfold ret in H. simplify_eq. rewrite Hst1.
    destruct (type tx =? 12) eqn:E12; [|done]. exfalso.
    unfold transactionTypes in Hskip. cbn [existsb] in Hskip. rewrite E12 in Hskip.
    done. }
  destruct (type tx =? 12) eqn:E12; [destruct (data tx) as [items|] eqn:Ed|].
  - intros H. rewrite (legacy_items_entries tx items _ _ H h), Hst1.
    by destruct (decide _); [rewrite bool_decide_eq_true_2|rewrite bool_decide_eq_false_2].
  - destruct (type tx =? 15) eqn:E15; [apply Z.eqb_eq in E12, E15; congruence|].
    intros H. unfold ret in H. by simplify_eq.
  - destruct (type tx =? 15), (anchors tx) as [l|]; intros H;
      try (unfold ret in H; by simplify_eq).
    simplify_eq. by rewrite (proj1 (native_anchors_inflight tx l m1)).
Qed.

(** A transaction that is not of type 15, or has no anchors, processed to
    the end, has made no call that it did not await. *)
Lemma processTransaction_awaits_all (tx : Transaction) (m m' : Monitor) :
  type tx ≠ 15 ∨ anchors tx = None ->
  processTransaction'' tx m = Ok tt m' ->
  inflight m' = inflight m.
Proof.
  intros Hno H. unfold processTransaction in H. unfold bind at 1 in H.
  unfold on_storage in H. revert H.
  destruct (index tx (storage m)) as [[] st|e st]; intros H; [|done].
  unfold bind at 1 in H. unfold note in H.
  set (m1 := {| processing := _; lastBlock := _; storage := _; inflight := _;
                calls := _ |}) in H.
  assert (Hfl1 : inflight m1 = inflight m) by reflexivity.
  clearbody m1. revert H.
  destruct (negb _); [intros H; unfold ret in H; by simplify_eq|].
  destruct (type tx =? 12) eqn:E12; [destruct (data tx) as [items|] eqn:Ed|].
  - intros H. destruct (legacy_items_own tx items m1) as (_ & Hfl & _).
    rewrite H in Hfl. cbn [final] in Hfl. congruence.
  - destruct (type tx =? 15) eqn:E15; [apply Z.eqb_eq in E12, E15; congruence|].
    intros H. unfold ret in H. by simplify_eq.
  - destruct (type tx =? 15) eqn:E15; [destruct (anchors tx) as [l|] eqn:Ea|];
      intros H; try (unfold ret in H; by simplify_eq).
    apply Z.eqb_eq in E15. by destruct Hno.
Qed.

(** X23. With no write in flight, a transaction that makes no call
    without awaiting it (its type is not 15, or it has no anchors), processed
    to the end, has its id in the anchor records of the hashes of its anchor
    items, when its type is 12, and has changed no other anchor record;
    processed to the end once more, it changes no anchor record at all, and
    still no write is in flight. The generic indexer is taken to leave the
    anchor records alone. *)
Theorem processTransaction_again (tx : Transaction) (m m1 m2 : Monitor) :
  (∀ s h, anchor_entries (final (index tx s)) h = anchor_entries s h) ->
  inflight m = [] ->
  type tx ≠ 15 ∨ anchors tx = None ->
  processTransaction'' tx m = Ok tt m1 ->
  processTransaction'' tx m1 = Ok tt m2 ->
  inflight m1 = [] ∧ inflight m2 = [] ∧
  ∀ h, anchor_entries (storage m1) h =
         (if anchored' tx h then {[id tx]} ∪ anchor_entries (storage m) h
          else anchor_entries (storage m) h) ∧
       anchor_entries (storage m2) h = anchor_entries (storage m1) h.
Proof.
  intros Hidx Hfl Hno H1 H2.
  pose proof (processTransaction_awaits_all tx m m1 Hno H1) as F1.
  pose proof (processTransaction_awaits_all tx m1 m2 Hno H2) as F2.
  split; [congruence|]. split; [congruence|]. intros h.
  pose proof (processTransaction_entries tx m m1 Hidx H1 h) as E1.
  pose proof (processTransaction_entries tx m1 m2 Hidx H2 h) as E2.
  split; [exact E1|]. rewrite E2. destruct (anchored' tx h); [|done].
  rewrite E1. set_solver.
Qed.

End TransactionsFurther.

(** ** Public keys, and the keys of the stores *)

Section KeysFurther.
Import Backend StorageService.

Lemma pubkey_key_inj (a b : string) : pubkey_key a = pubkey_key b -> a = b.
Proof. unfold pubkey_key. apply String.app_inj. Qed.

Lemma pubkey_height_ne (a : string) : pubkey_key a ≠ height_key.
Proof. intros E. discriminate E. Qed.

Lemma roles_anchor_ne (a h : string) : roles_key a ≠ anchor_key h.
Proof. intros E. discriminate E. Qed.

Lemma call_final_values {A} (op : Storage -> A * Storage) (s : Storage) (k : string) :
  (∀ s0, values (op s0).2 !! k = values s0 !! k) ->
  values (final (call op s)) !! k = values s !! k.
Proof.
  intros H. destruct (call_cases op s) as [E|E]; rewrite E; cbn [final]; [done|].
  by rewrite H.
Qed.

Lemma call_final_objects {A} (op : Storage -> A * Storage) (s : Storage) (k : string) :
  (∀ s0, objects (op s0).2 !! k = objects s0 !! k) ->
  objects (final (call op s)) !! k = objects s !! k.
Proof.
  intros H. destruct (call_cases op s) as [E|E]; rewrite E; cbn [final]; [done|].
  by rewrite H.
Qed.

(** X19. A public key saved by savePublicKey is what getPublicKey then
    returns for the address, and for every other address getPublicKey returns
    what was stored before, unless the read fails. *)
Theorem savePublicKey_getPublicKey (address publicKey : string) (s s1 : Storage) :
  savePublicKey address publicKey s = Ok tt s1 ->
  head (faults s1) ≠ Some true ->
  (∃ s2, getPublicKey address s1 = Ok (Some publicKey) s2) ∧
  (∀ other, other ≠ address ->
            ∃ s2, getPublicKey other s1 = Ok (values s !! pubkey_key other) s2).
Proof.
  intros Hsave Hf. apply setValue_Ok in Hsave as (Hv & _).
  split; [|intros other Hne]; unfold getPublicKey.
  - destruct (getValue_cases (pubkey_key address) s1) as [[_ ?]|[-> _]]; [done|].
    rewrite Hv, lookup_insert_eq. eauto.
  - destruct (getValue_cases (pubkey_key other) s1) as [[_ ?]|[-> _]]; [done|].
    rewrite Hv, lookup_insert_ne; [eauto|].
    intros E. by apply pubkey_key_inj in E.
Qed.

(** X20. The keys of the stores keep apart, whatever the addresses and
    hashes: no savePublicKey touches the checkpoint of the scanner; neither
    saveProcessingHeight nor clearProcessHeight touches a public key; no
    saveAnchor touches a role document, and no saveTrustNetworkRole an anchor
    record; and this whatever the outcome of the call. *)
Theorem stores_kept_apart (s : Storage) :
  (∀ address publicKey,
     values (final (savePublicKey address publicKey s)) !! height_key =
     values s !! height_key) ∧
  (∀ h address,
     values (final (saveProcessingHeight h s)) !! pubkey_key address =
     values s !! pubkey_key address) ∧
  (∀ address,
     values (final (clearProcessHeight s)) !! pubkey_key address =
     values s !! pubkey_key address) ∧
  (∀ hash id address,
     objects (final (saveAnchor hash id s)) !! roles_key address =
     objects s !! roles_key address) ∧
  (∀ recipient sender data hash,
     objects (final (saveTrustNetworkRole recipient sender data s)) !! anchor_key hash =
     objects s !! anchor_key hash).
Proof.
  split; [|split; [|split; [|split]]].
  - intros address publicKey. apply call_final_values. intros s0.
    cbn [snd values with_values]. apply lookup_insert_ne, pubkey_height_ne.
  - intros h address. apply call_final_values. intros s0.
    cbn [snd values with_values]. apply lookup_insert_ne.
    intros E. symmetry in E. by apply pubkey_height_ne in E.
  - intros address. apply call_final_values. intros s0.
    cbn [snd values with_values]. apply lookup_delete_ne.
    intros E. symmetry in E. by apply pubkey_height_ne in E.
  - intros hash id address. apply call_final_objects. intros s0.
    cbn [snd objects with_objects]. apply lookup_insert_ne.
    intros E. symmetry in E. by apply roles_anchor_ne in E.
  - intros recipient sender data hash. unfold saveTrustNetworkRole, bind, getObject.
    match goal with |- context [call ?op s] =>
      destruct (call_cases op s) as [E|E]; rewrite E end; [done|].
    cbn [fst snd].
    unfold addObject.
    match goal with |- context [call ?op ?s0] =>
      destruct (call_cases op s0) as [E'|E']; rewrite E' end; cbn [final]; [done|].
    cbn [snd objects with_objects with_faults].
    apply lookup_insert_ne, roles_anchor_ne.
Qed.

End KeysFurther.

(** ** The further properties, on the sample data *)

Section FurtherAtSamples.
Import Backend StorageService AnchorMonitorService.

Local Abbreviation run_pass := (checkNewBlock plain_encode plain_decode plain_decode).

Lemma saveTrustNetworkRole_grants_witness :
  ∃ s1 r,
    saveTrustNetworkRole "3Jq" "3Nr" {| role_type := 100; role := "validator" |}
      empty_storage = Ok tt s1 ∧
    "validator"%string ≠ "__proto__"%string ∧
    role_table !! "validator" =
      Some {| issues := Some [ {| role_type := 100; role := "node" |} ];
              authorization := Some ["tx:anchor"] |} ∧
    getTrustNetworkRoles role_table "3Jq" s1 = Ok r s1 ∧
    "validator" ∈ roles r.
Proof.
  set (data := {| role_type := 100; role := "validator" |}).
  set (config := {| issues := Some [ {| role_type := 100; role := "node" |} ];
                    authorization := Some ["tx:anchor"] |}).
  set (s1 := final (saveTrustNetworkRole "3Jq" "3Nr" data empty_storage)).
  set (r := {| roles := ["validator"];
               issues_roles := [ {| role_type := 100; role := "node" |} ];
               issues_authorization := ["tx:anchor"] |}).
  assert (H1 : saveTrustNetworkRole "3Jq" "3Nr" data empty_storage = Ok tt s1)
    by (vm_compute; reflexivity).
  assert (Hp : role data ≠ "__proto__"%string) by (intros E; discriminate E).
  assert (H2 : role_table !! role data = Some config) by (vm_compute; reflexivity).
  assert (H3 : getTrustNetworkRoles role_table "3Jq" s1 = Ok r s1)
    by (vm_compute; reflexivity).
  exists s1, r. split; [exact H1|]. split; [exact Hp|]. split; [exact H2|].
  split; [exact H3|].
  exact (proj1 (saveTrustNetworkRole_grants role_table "3Jq" "3Nr" data config
                  empty_storage s1 s1 r H1 Hp H2 H3)).
Defined.

Lemma saveTrustNetworkRole_unchanged_witness :
  ∃ s1 r0 r,
    saveTrustNetworkRole "3Jq" "3Xy" {| role_type := 101; role := "ghost" |} granted =
      Ok tt s1 ∧
    "ghost"%string ≠ "__proto__"%string ∧
    ("3Jq"%string ≠ "3Jq"%string ∨
     (role_table !! "ghost" = None ∧ "ghost"%string ∉ Js.Object_prototype) ∨
     "ghost"%string ∈ role_names granted "3Jq") ∧
    getTrustNetworkRoles role_table "3Jq" granted = Ok r0 granted ∧
    getTrustNetworkRoles role_table "3Jq" s1 = Ok r s1 ∧
    r = r0.
Proof.
  set (data := {| role_type := 101; role := "ghost" |}).
  set (s1 := final (saveTrustNetworkRole "3Jq" "3Xy" data granted)).
  set (r := {| roles := ["validator"];
               issues_roles := [ {| role_type := 100; role := "node" |} ];
               issues_authorization := ["tx:anchor"] |}).
  assert (H1 : saveTrustNetworkRole "3Jq" "3Xy" data granted = Ok tt s1)
    by (vm_compute; reflexivity).
  assert (Hp : role data ≠ "__proto__"%string) by (intros E; discriminate E).
  assert (H2 : "3Jq"%string ≠ "3Jq"%string ∨
               (role_table !! role data = None ∧ role data ∉ Js.Object_prototype) ∨
               role data ∈ role_names granted "3Jq").
  { right. left. split; [vm_compute; reflexivity|].
    intros Hin. apply list_elem_of_In in Hin. vm_compute in Hin.
    repeat (destruct Hin as [Hin|Hin]; [discriminate Hin|]). exact Hin. }
  assert (H3 : getTrustNetworkRoles role_table "3Jq" granted = Ok r granted)
    by (vm_compute; reflexivity).
  assert (H4 : getTrustNetworkRoles role_table "3Jq" s1 = Ok r s1)
    by (vm_compute; reflexivity).
  exists s1, r, r. split; [exact H1|]. split; [exact Hp|]. split; [exact H2|].
  split; [exact H3|]. split; [exact H4|].
  exact (saveTrustNetworkRole_unchanged role_table "3Jq" "3Xy" data granted s1
           "3Jq" H1 Hp H2 r granted r s1 H3 H4).
Defined.

Lemma getTrustNetworkRoles_sound_witness :
  ∃ r,
    getTrustNetworkRoles role_table "3Jq" granted = Ok r granted ∧
    NoDup (role <$> issues_roles r) ∧ NoDup (issues_authorization r).
Proof.
  set (r := {| roles := ["validator"];
               issues_roles := [ {| role_type := 100; role := "node" |} ];
               issues_authorization := ["tx:anchor"] |}).
  assert (H : getTrustNetworkRoles role_table "3Jq" granted = Ok r granted)
    by (vm_compute; reflexivity).
  exists r. split; [exact H|].
  exact (proj2 (proj2 (proj2 (getTrustNetworkRoles_sound role_table "3Jq" granted granted
                                r H)))).
Defined.

Lemma getTrustNetworkRoles_as_specified_witness :
  ∃ r,
    getTrustNetworkRoles role_table "3Jq" granted = Ok r granted ∧
    (∀ name, name ∈ role_names granted "3Jq" -> name ∈ Js.Object_prototype ->
             is_Some (role_table !! name)) ∧
    r = getRoles role_table (role_names granted "3Jq").
Proof.
  set (r := {| roles := ["validator"];
               issues_roles := [ {| role_type := 100; role := "node" |} ];
               issues_authorization := ["tx:anchor"] |}).
  assert (H : getTrustNetworkRoles role_table "3Jq" granted = Ok r granted)
    by (vm_compute; reflexivity).
  assert (Hplain : ∀ name, name ∈ role_names granted "3Jq" ->
                           name ∈ Js.Object_prototype -> is_Some (role_table !! name)).
  { intros name Hin Hp. exfalso.
    apply list_elem_of_In in Hin. apply list_elem_of_In in Hp.
    vm_compute in Hin. vm_compute in Hp.
    destruct Hin as [<-|[<-|[]]];
      repeat (destruct Hp as [Hp|Hp]; [discriminate Hp|]); exact Hp. }
  exists r. split; [exact H|]. split; [exact Hplain|].
  exact (getTrustNetworkRoles_as_specified role_table "3Jq" granted granted r H Hplain).
Defined.

Lemma processTransaction_own_id_witness :
  (∀ s h, anchor_entries (final (silent_index legacy_anchor s)) h = anchor_entries s h) ∧
  ∀ h, anchor_entries
         (storage (final (processTransaction plain_encode plain_decode plain_decode
                            silent_index legacy_anchor (idle_monitor empty_storage 0)))) h ⊆
       anchor_entries empty_storage h ∪ {["tx-12"]}.
Proof.
  assert (H : ∀ s h, anchor_entries (final (silent_index legacy_anchor s)) h =
                     anchor_entries s h) by (intros s h; reflexivity).
  split; [exact H|].
  exact (proj1 (processTransaction_own_id plain_encode plain_decode plain_decode
                  silent_index legacy_anchor (idle_monitor empty_storage 0) H)).
Defined.

Lemma processTransaction_again_witness :
  ∃ m1 m2,
    (∀ s h, anchor_entries (final (silent_index legacy_anchor s)) h =
            anchor_entries s h) ∧
    inflight (idle_monitor empty_storage 0) = [] ∧
    (type legacy_anchor ≠ 15 ∨ anchors legacy_anchor = None) ∧
    processTransaction plain_encode plain_decode plain_decode silent_index
      legacy_anchor (idle_monitor empty_storage 0) = Ok tt m1 ∧
    processTransaction plain_encode plain_decode plain_decode silent_index
      legacy_anchor m1 = Ok tt m2 ∧
    inflight m1 = [] ∧ inflight m2 = [] ∧
    ∀ h, anchor_entries (storage m1) h =
           (if anchored plain_encode plain_decode legacy_anchor h
            then {["tx-12"]} ∪ anchor_entries empty_storage h
            else anchor_entries empty_storage h) ∧
         anchor_entries (storage m2) h = anchor_entries (storage m1) h.
Proof.
  set (m := idle_monitor empty_storage 0).
  set (m1 := final (processTransaction plain_encode plain_decode plain_decode
                      silent_index legacy_anchor m)).
  set (m2 := final (processTransaction plain_encode plain_decode plain_decode
                      silent_index legacy_anchor m1)).
  assert (Hidx : ∀ s h, anchor_entries (final (silent_index legacy_anchor s)) h =
                        anchor_entries s h) by (intros s h; reflexivity).
  assert (H1 : processTransaction plain_encode plain_decode plain_decode silent_index
                 legacy_anchor m = Ok tt m1) by (vm_compute; reflexivity).
  assert (H2 : processTransaction plain_encode plain_decode plain_decode silent_index
                 legacy_anchor m1 = Ok tt m2) by (vm_compute; reflexivity).
  assert (Hfl : inflight m = []) by reflexivity.
  assert (Hno : type legacy_anchor ≠ 15 ∨ anchors legacy_anchor = None)
    by (right; reflexivity).
  exists m1, m2. split; [exact Hidx|]. split; [exact Hfl|]. split; [exact Hno|].
  split; [exact H1|]. split; [exact H2|].
  exact (processTransaction_again plain_encode plain_decode plain_decode silent_index
           legacy_anchor m m1 m2 Hidx Hfl Hno H1 H2).
Defined.

Lemma aborted_pass_resumes_witness :
  ∃ m1 m2,
    (∀ tx s, values (final (silent_index tx s)) !! height_key = values s !! height_key) ∧
    run_pass (sample_node 8) silent_index
      (idle_monitor (checkpointed 5 [false; false; false; true]) 0) =
      Throw StorageUnavailable m1 ∧
    getLastBlockHeight (sample_node 8) = Resolved 8 ∧
    run_pass (sample_node 8) silent_index m1 = Ok tt m2 ∧
    ∃ t1 t2 k c',
      calls m1 = [] ++ t1 ∧ calls m2 = calls m1 ++ t2 ∧
      0 <= k ∧
      fetched_heights t1 = seqZ (5 + 1) k ∧
      values (storage m1) !! height_key = Some (Js.String_ c') ∧
      fetched_heights t2 = seqZ (c' + 1) (8 - c') ∧
      (c' = 5 + k ∨ (0 < k ∧ c' = 5 + k - 1)).
Proof.
  set (m := idle_monitor (checkpointed 5 [false; false; false; true]) 0).
  set (m1 := final (run_pass (sample_node 8) silent_index m)).
  set (m2 := final (run_pass (sample_node 8) silent_index m1)).
  assert (Hidx : ∀ tx s, values (final (silent_index tx s)) !! height_key =
                         values s !! height_key) by (intros tx s; reflexivity).
  assert (Hv : values (storage m) !! height_key = Some (Js.String_ 5))
    by (vm_compute; reflexivity).
  assert (Hc : 0 < 5) by lia.
  assert (Hf : head (faults (storage m)) ≠ Some true)
    by (vm_compute; intros E; discriminate E).
  assert (H1 : run_pass (sample_node 8) silent_index m = Throw StorageUnavailable m1)
    by (vm_compute; reflexivity).
  assert (Hst : storage m1 = storage m1) by reflexivity.
  assert (Hf1 : head (faults (storage m1)) ≠ Some true)
    by (vm_compute; intros E; discriminate E).
  assert (Hh2 : getLastBlockHeight (sample_node 8) = Resolved 8) by reflexivity.
  assert (H2 : run_pass (sample_node 8) silent_index m1 = Ok tt m2)
    by (vm_compute; reflexivity).
  exists m1, m2. split; [exact Hidx|]. split; [exact H1|]. split; [exact Hh2|].
  split; [exact H2|].
  exact (aborted_pass_resumes plain_encode plain_decode plain_decode silent_index Hidx
           (sample_node 8) (sample_node 8) m m1 m1 m2 StorageUnavailable 5 8
           Hv Hc Hf H1 Hst Hf1 Hh2 H2).
Defined.

Lemma savePublicKey_getPublicKey_witness :
  ∃ s1 s2,
    savePublicKey "3Jq" "8Fk" empty_storage = Ok tt s1 ∧
    head (faults s1) ≠ Some true ∧
    getPublicKey "3Jq" s1 = Ok (Some "8Fk"%string) s2.
Proof.
  set (s1 := final (savePublicKey "3Jq" "8Fk" empty_storage)).
  assert (H1 : savePublicKey "3Jq" "8Fk" empty_storage = Ok tt s1)
    by (vm_compute; reflexivity).
  assert (H2 : head (faults s1) ≠ Some true) by (vm_compute; intros E; discriminate E).
  destruct (proj1 (savePublicKey_getPublicKey "3Jq" "8Fk" empty_storage s1 H1 H2))
    as [s2 H3].
  exists s1, s2. split; [exact H1|]. split; [exact H2|]. exact H3.
Defined.

End FurtherAtSamples.

(** ** Period labels and pages *)

Section LabelsAndPages.
Import StorageService RedisConnection.

Lemma padded_upto_99 (n : Z) : 0 <= n <= 99 -> padded n = true.
Proof.
  intros Hn.
  assert (Hall : forallb padded (seqZ 0 100) = true) by (vm_compute; reflexivity).
  rewrite forallb_forall in Hall. apply Hall, list_elem_of_In, elem_of_seqZ. lia.
Qed.

(** X21. The label that formatPeriod gives a date whose month is 0 to
    11 and whose day is 1 to 31: the year, then the month counted from 1 and
    the day, each written with two digits, then the time 00:00:00. *)
Theorem formatPeriod_padded (date : Date) :
  0 <= getUTCMonth date <= 11 ->
  1 <= getUTCDate date <= 31 ->
  ∃ month day,
    formatPeriod date =
      Js.String_ (getUTCFullYear date) +:+ "-" +:+ month +:+ "-" +:+ day +:+ " 00:00:00" ∧
    String.length month = 2%nat ∧ String.length day = 2%nat ∧
    Js.Number month = Js.Int (getUTCMonth date + 1) ∧
    Js.Number day = Js.Int (getUTCDate date).
Proof.
  intros Hm Hd.
  pose proof (padded_upto_99 (getUTCMonth date + 1) ltac:(lia)) as Pm.
  pose proof (padded_upto_99 (getUTCDate date) ltac:(lia)) as Pd.
  unfold padded in Pm, Pd.
  apply andb_true_iff in Pm as [Lm Nm]. apply andb_true_iff in Pd as [Ld Nd].
  apply Nat.eqb_eq in Lm, Ld.
  exists (Js.substr (-2) ("0" +:+ Js.String_ (getUTCMonth date + 1))),
         (Js.substr (-2) ("0" +:+ Js.String_ (getUTCDate date))).
  split; [reflexivity|]. split; [exact Lm|]. split; [exact Ld|].
  split.
  - clear Nd. destruct (Js.Number _) as [|z]; [done|]. apply Z.eqb_eq in Nm. by subst.
  - clear Nm. destruct (Js.Number _) as [|z]; [done|]. apply Z.eqb_eq in Nd. by subst.
Qed.

Lemma formatPeriod_padded_witness :
  0 <= 0 <= 11 ∧ 1 <= 5 <= 31 ∧
  formatPeriod {| getUTCFullYear := 2024; getUTCMonth := 0; getUTCDate := 5 |} =
    "2024-01-05 00:00:00"%string ∧
  ∃ month day,
    formatPeriod {| getUTCFullYear := 2024; getUTCMonth := 0; getUTCDate := 5 |} =
      Js.String_ 2024 +:+ "-" +:+ month +:+ "-" +:+ day +:+ " 00:00:00" ∧
    String.length month = 2%nat ∧ String.length day = 2%nat ∧
    Js.Number month = Js.Int (0 + 1) ∧ Js.Number day = Js.Int 5.
Proof.
  assert (Hm : 0 <= getUTCMonth {| getUTCFullYear := 2024; getUTCMonth := 0;
                                   getUTCDate := 5 |} <= 11) by (simpl; lia).
  assert (Hd : 1 <= getUTCDate {| getUTCFullYear := 2024; getUTCMonth := 0;
                                  getUTCDate := 5 |} <= 31) by (simpl; lia).
  split; [exact Hm|]. split; [exact Hd|]. split; [vm_compute; reflexivity|].
  exact (formatPeriod_padded _ Hm Hd).
Defined.

(** X22. A page of zrangePaginate, for a limit and an offset that are
    not negative, from a server that answers ZRANGE as Redis does: the [limit]
    members that follow the first [offset] of the ranking, fewer where the
    ranking ends; but for the limit 0 at the offset 0 the whole ranking, the
    last index asked for being -1 then. *)
Theorem zrangePaginate_page (connection : Redis) (key : string) (l : list string)
    (limit offset : Z) :
  serves connection key l ->
  0 <= offset ->
  0 <= limit ->
  zrangePaginate connection key limit offset =
  Resolved (if (limit =? 0) && (offset =? 0) then l
            else take (Z.to_nat limit) (drop (Z.to_nat offset) l)).
Proof.
  intros Hserves Ho Hl. unfold zrangePaginate. cbv zeta. rewrite Hserves. f_equal.
  unfold ranked. cbv zeta.
  rewrite (proj2 (Z.ltb_ge offset 0)) by lia.
  destruct (limit =? 0) eqn:El; [apply Z.eqb_eq in El; subst limit|apply Z.eqb_neq in El];
    (destruct (offset =? 0) eqn:Eo;
       [apply Z.eqb_eq in Eo; subst offset|apply Z.eqb_neq in Eo]); cbn [andb].
  - change (0 - 1 + 0 <? 0) with true. cbv iota.
    destruct (Z.of_nat (List.length l) + (0 - 1 + 0) <? 0) eqn:E.
    + apply Z.ltb_lt in E. destruct l; [done|simpl in E; lia].
    + apply Z.ltb_ge in E. rewrite drop_0.
      apply take_ge. lia.
  - rewrite (proj2 (Z.ltb_ge (0 - 1 + offset) 0)) by lia.
    rewrite (proj2 (Z.ltb_lt _ offset)) by lia. done.
  - rewrite (proj2 (Z.ltb_ge (limit - 1 + 0) 0)) by lia. rewrite drop_0.
    destruct (Z.min (limit - 1 + 0) (Z.of_nat (List.length l) - 1) <? 0) eqn:E.
    + apply Z.ltb_lt in E. destruct l; [by rewrite take_nil|simpl in E; lia].
    + apply Z.ltb_ge in E. destruct (Z.le_gt_cases limit (Z.of_nat (List.length l))).
      * f_equal. lia.
      * rewrite !take_ge by lia. done.
  - rewrite (proj2 (Z.ltb_ge (limit - 1 + offset) 0)) by lia.
    destruct (Z.min (limit - 1 + offset) (Z.of_nat (List.length l) - 1) <? offset) eqn:E.
    + apply Z.ltb_lt in E. rewrite drop_ge by lia. by rewrite take_nil.
    + apply Z.ltb_ge in E.
      destruct (Z.le_gt_cases (limit + offset) (Z.of_nat (List.length l))).
      * f_equal. lia.
      * rewrite !take_ge; [done| |]; rewrite length_drop; lia.
Qed.

Lemma zrangePaginate_page_witness :
  serves sample_connection "lto:tx:anchor:3Jq" ["tx-1"; "tx-2"; "tx-3"] ∧
  zrangePaginate sample_connection "lto:tx:anchor:3Jq" 2 1 = Resolved ["tx-2"; "tx-3"] ∧
  zrangePaginate sample_connection "lto:tx:anchor:3Jq" 0 0 =
    Resolved ["tx-1"; "tx-2"; "tx-3"].
Proof.
  assert (H : serves sample_connection "lto:tx:anchor:3Jq" ["tx-1"; "tx-2"; "tx-3"])
    by (intros start stop; reflexivity).
  split; [exact H|]. split.
  - exact (zrangePaginate_page sample_connection "lto:tx:anchor:3Jq" _ 2 1 H
             ltac:(lia) ltac:(lia)).
  - exact (zrangePaginate_page sample_connection "lto:tx:anchor:3Jq" _ 0 0 H
             ltac:(lia) ltac:(lia)).
Defined.

End LabelsAndPages.
